(** * inspektio: cookie adapter, storage service and cookie dashboard

    A shallow embedding of the TypeScript sources

      - [src/adapters/cookies.ts]          (module [CookieAdapter])
      - [src/services/storage.service.ts]  (module [StorageService])
      - the cookie dashboard script        (module [Dashboard])

    together with the ECMAScript and browser built-ins they call
    (module [Js] and module [Json]).  Promises are modelled by their
    outcome, asynchronous code by explicit state passing over the
    browser state it talks to. *)

From Stdlib Require Import List String Ascii Bool Arith ZArith NArith QArith.
From Stdlib Require Import Lia Permutation Sorted DecimalString.
Import ListNotations.

Set Implicit Arguments.
Set Warnings "-register-all".
Unset Strict Implicit.
Local Open Scope list_scope.

(* ================================================================= *)
(** ** ECMAScript values used by the sources *)

Module Js.

(** A JavaScript string is a sequence of UTF-16 code units. *)
Definition code_unit := N.
Definition jsstring := list code_unit.

(** String literals of the sources are ASCII. *)
Definition lit (s : string) : jsstring :=
  map N_of_ascii (list_ascii_of_string s).

(** The double quote, for literals that contain one. *)
Definition dquote : code_unit := 34%N.

(** A literal in which every apostrophe stands for a double quote. *)
Definition qlit (s : string) : jsstring :=
  map (fun c => if N.eqb c 39 then dquote else c) (lit s).

Fixpoint str_eqb (a b : jsstring) : bool :=
  match a, b with
  | [], [] => true
  | x :: a', y :: b' => N.eqb x y && str_eqb a' b'
  | _, _ => false
  end.

(** [a < b] on strings: lexicographic order of the code units. *)
Fixpoint str_compare (a b : jsstring) : comparison :=
  match a, b with
  | [], [] => Eq
  | [], _ :: _ => Lt
  | _ :: _, [] => Gt
  | x :: a', y :: b' =>
      match N.compare x y with
      | Eq => str_compare a' b'
      | c => c
      end
  end.

Definition str_ltb (a b : jsstring) : bool :=
  match str_compare a b with Lt => true | _ => false end.

(** ToBoolean on the values the sources test. *)
Definition truthy_string (s : jsstring) : bool :=
  match s with [] => false | _ :: _ => true end.

Definition truthy_opt_string (v : option jsstring) : bool :=
  match v with Some s => truthy_string s | None => false end.

Definition truthy_opt_bool (v : option bool) : bool :=
  match v with Some b => b | None => false end.

(** [String.prototype.includes]. *)
Fixpoint starts_with (needle hay : jsstring) : bool :=
  match needle, hay with
  | [], _ => true
  | _ :: _, [] => false
  | x :: n', y :: h' => N.eqb x y && starts_with n' h'
  end.

Fixpoint includes (hay needle : jsstring) : bool :=
  starts_with needle hay ||
  match hay with
  | [] => false
  | _ :: h' => includes h' needle
  end.

(** Error objects: a name and a message. [new Error(m)] is [Error m]. *)
Record JsError := mkError { error_name : jsstring; error_message : jsstring }.

Definition Error (message : jsstring) : JsError :=
  mkError (lit "Error") message.

(** The settled state of a promise. *)
Inductive Outcome (A : Type) : Type :=
| Resolved (a : A)
| Rejected (e : JsError).

Arguments Resolved {A} a.
Arguments Rejected {A} e.

(** Asynchronous code over a world [W]: it settles and leaves a world. *)
Definition Async (W A : Type) : Type := W -> Outcome A * W.

Definition ret {W A} (a : A) : Async W A := fun w => (Resolved a, w).

Definition throw {W A} (e : JsError) : Async W A := fun w => (Rejected e, w).

(** [await c; k] *)
Definition bind {W A B} (c : Async W A) (k : A -> Async W B) : Async W B :=
  fun w =>
    match c w with
    | (Resolved a, w') => k a w'
    | (Rejected e, w') => (Rejected e, w')
    end.

(** [try { c } catch (error) { h error }] *)
Definition try_catch {W A} (c : Async W A) (h : JsError -> Async W A)
  : Async W A :=
  fun w =>
    match c w with
    | (Resolved a, w') => (Resolved a, w')
    | (Rejected e, w') => h e w'
    end.

(** [for (const x of xs) { await body x }] *)
Fixpoint for_of {W A} (xs : list A) (body : A -> Async W unit)
  : Async W unit :=
  match xs with
  | [] => ret tt
  | x :: xs' => bind (body x) (fun _ => for_of xs' body)
  end.

(** [Array.prototype.sort(comparefn)].  ECMAScript requires the sort to be
    stable; the comparator returns a negative number, zero or a positive
    number.  The model is the stable insertion sort: every conforming
    engine returns the same array whenever the comparator is a consistent
    ordering of the elements.  For any other comparator the order is the
    engine's own: there the model stands for a permutation only. *)
Section Sort.
Variable A : Type.
Variable comparefn : A -> A -> Z.

Fixpoint sort_insert (x : A) (l : list A) : list A :=
  match l with
  | [] => [x]
  | y :: l' =>
      if (comparefn x y <=? 0)%Z then x :: y :: l'
      else y :: sort_insert x l'
  end.

Definition sort (l : list A) : list A := fold_right sort_insert [] l.

End Sort.

(** [a] may stand before [b] for the comparator. *)
Definition precedes {A} (comparefn : A -> A -> Z) (a b : A) : Prop :=
  (comparefn a b <= 0)%Z.

(** The strict order [lt] tells the elements of [l] apart: no element
    occurs twice and any two are ordered one way or the other. *)
Definition told_apart {A} (lt : A -> A -> bool) (l : list A) : Prop :=
  NoDup l
  /\ forall x y, In x l -> In y l -> x = y \/ lt x y = true \/ lt y x = true.

(** [Array.prototype.sort()] without a comparator, on strings: the order
    of the code units. *)
Definition default_compare (a b : jsstring) : Z :=
  match str_compare a b with Lt => (-1)%Z | Eq => 0%Z | Gt => 1%Z end.

(** [[...new Set(xs)]]: the distinct elements in order of first
    occurrence. *)
Fixpoint mem (x : jsstring) (l : list jsstring) : bool :=
  match l with
  | [] => false
  | y :: l' => str_eqb x y || mem x l'
  end.

Fixpoint unique_from (seen : list jsstring) (xs : list jsstring)
  : list jsstring :=
  match xs with
  | [] => []
  | x :: xs' =>
      if mem x seen then unique_from seen xs'
      else x :: unique_from (x :: seen) xs'
  end.

Definition unique (xs : list jsstring) : list jsstring := unique_from [] xs.

(** What the host environment decides: the locale's collation and case
    mapping, and the decimal rendering of a double. *)
Class Platform : Type := {
  (** [a.localeCompare(b)] *)
  localeCompare : jsstring -> jsstring -> Z;
  (** [s.toLowerCase()] *)
  toLowerCase : jsstring -> jsstring;
  (** [String(x)] for the number a JSON numeric literal denotes *)
  numberToString : jsstring -> jsstring
}.

(** A consistent comparator, as ECMAScript requires of
    [localeCompare]. *)
Class Collation (P : Platform) : Prop := {
  localeCompare_antisym :
    forall a b, (localeCompare a b < 0)%Z <-> (0 < localeCompare b a)%Z;
  localeCompare_trans :
    forall a b c, (localeCompare a b <= 0)%Z -> (localeCompare b c <= 0)%Z ->
                  (localeCompare a c <= 0)%Z
}.

End Js.

Import Js.

Declare Scope async_scope.
Delimit Scope async_scope with async.
Notation "x <- c ;; k" := (bind c (fun x => k))
  (at level 61, c at next level, right associativity) : async_scope.
Notation "c ;;; k" := (bind c (fun _ => k))
  (at level 61, right associativity) : async_scope.

(* ================================================================= *)
(** ** src/adapters/cookies.ts *)

Module CookieAdapter.

Inductive SameSite := strict | lax | no_restriction.

Definition sameSite_string (s : SameSite) : jsstring :=
  match s with
  | strict => lit "strict"
  | lax => lit "lax"
  | no_restriction => lit "no_restriction"
  end.

(** [chrome.cookies.Cookie].  A number is finite here and stands as the
    rational it is; comparing doubles is comparing these. *)
Record Cookie := {
  name : jsstring;
  value : jsstring;
  domain : jsstring;
  path : jsstring;
  secure : bool;
  httpOnly : bool;
  sameSite : SameSite;
  expirationDate : option Q;
  hostOnly : bool;
  session : bool;
  storeId : jsstring
}.

Record BrowserCookieOptions := {
  opt_url : option jsstring;
  opt_path : option jsstring;
  opt_domain : jsstring;
  opt_secure : option bool;
  opt_httpOnly : option bool;
  opt_expirationDate : option Q;
  opt_sameSite : option SameSite;
  opt_storeId : option jsstring
}.

(** Argument of [chrome.cookies.set]. *)
Record SetDetails := {
  set_name : jsstring;
  set_value : jsstring;
  set_url : jsstring;
  set_path : option jsstring;
  set_domain : jsstring;
  set_secure : option bool;
  set_httpOnly : option bool;
  set_sameSite : option SameSite;
  set_expirationDate : option Q;
  set_storeId : option jsstring
}.

(** Argument of [chrome.cookies.remove]. *)
Record RemoveDetails := {
  remove_name : jsstring;
  remove_url : jsstring
}.

(** Argument of [chrome.cookies.getAll]: [{ domain }] or [{}]. *)
Record GetAllDetails := {
  getAll_domain : option jsstring
}.

(** [private api = chrome?.cookies ?? browser.cookies]: the browser's
    cookie API over the browser state [W]. *)
Class CookiesApi (W : Type) : Type := {
  api_getAll : GetAllDetails -> Async W (list Cookie);
  api_set : SetDetails -> Async W unit;
  api_remove : RemoveDetails -> Async W unit
}.

(** Argument of [inferUrl]. *)
Record InferOpts := {
  io_domain : jsstring;
  io_path : option jsstring;
  io_secure : option bool
}.

(** [domain.replace(/^\./, "")] *)
Definition strip_leading_dot (d : jsstring) : jsstring :=
  match d with
  | c :: rest => if N.eqb c 46 then rest else d
  | [] => []
  end.

Definition inferUrl (opts : InferOpts) : jsstring :=
  let protocol :=
    if truthy_opt_bool (io_secure opts) then lit "https" else lit "http" in
  let host := strip_leading_dot (io_domain opts) in
  let path := match io_path opts with Some p => p | None => lit "/" end in
  protocol ++ lit "://" ++ host ++ path.

Section Adapter.
Context {W : Type} {api : CookiesApi W}.
Local Open Scope async_scope.

Definition set (name value : jsstring) (options : BrowserCookieOptions)
  : Async W unit :=
  let url :=
    match opt_url options with
    | Some u => u
    | None =>
        inferUrl {| io_domain := opt_domain options;
                    io_path := opt_path options;
                    io_secure := opt_secure options |}
    end in
  api_set {| set_name := name;
             set_value := value;
             set_url := url;
             set_path := opt_path options;
             set_domain := opt_domain options;
             set_secure := opt_secure options;
             set_httpOnly := opt_httpOnly options;
             set_sameSite := opt_sameSite options;
             set_expirationDate := opt_expirationDate options;
             set_storeId := opt_storeId options |}.

Definition get (name domain : jsstring) : Async W (option jsstring) :=
  cookies <- api_getAll {| getAll_domain := Some domain |} ;;
  let found :=
    List.find (fun c => str_eqb (CookieAdapter.name c) name) cookies in
  ret (option_map value found).

(** [delete(name, domain, path = "/")] *)
Definition delete (name domain : jsstring) (path : option jsstring)
  : Async W unit :=
  let path := match path with Some p => p | None => lit "/" end in
  let url := inferUrl {| io_domain := domain;
                         io_path := Some path;
                         io_secure := None |} in
  api_remove {| remove_name := name; remove_url := url |}.

Definition entries : Async W (list (jsstring * jsstring)) :=
  cookies <- api_getAll {| getAll_domain := None |} ;;
  ret (map (fun c => (domain c ++ lit ":" ++ CookieAdapter.name c, value c))
           cookies).

Definition keys : Async W (list jsstring) :=
  cookies <- api_getAll {| getAll_domain := None |} ;;
  ret (map CookieAdapter.name cookies).

Definition has (name domain : jsstring) : Async W bool :=
  v <- get name domain ;;
  ret (truthy_opt_string v).

Definition find
  (predicate : jsstring -> jsstring -> jsstring -> bool)
  : Async W (option (jsstring * jsstring * jsstring)) :=
  cookies <- api_getAll {| getAll_domain := None |} ;;
  let found :=
    List.find (fun c => predicate (CookieAdapter.name c) (value c) (domain c))
         cookies in
  ret (option_map (fun c => (CookieAdapter.name c, value c, domain c)) found).

(** The body of the loop in [clear]. *)
Definition remove_cookie (c : Cookie) : Async W unit :=
  let url := inferUrl {| io_domain := domain c;
                         io_path := Some (path c);
                         io_secure := Some (secure c) |} in
  api_remove {| remove_name := CookieAdapter.name c; remove_url := url |}.

Definition clear : Async W unit :=
  cookies <- api_getAll {| getAll_domain := None |} ;;
  for_of cookies remove_cookie.

End Adapter.

(** [all] and [filter], which group the cookies by domain. *)
Module ByDomain.

(** What [all] and [filter] use of the JavaScript realm: plain objects,
    and reading and writing a property by name.  Both go through the
    prototype chain of the object and may throw, so what they do is the
    realm's, as a cookie request is the browser's. *)
Class Realm (W : Type) : Type := {
  Value : Type;
  (** a string as a value *)
  of_string : jsstring -> Value;
  ToBoolean : Value -> bool;
  (** [{}] *)
  new_object : Async W Value;
  (** [o[k]] *)
  Get : Value -> jsstring -> Async W Value;
  (** [o[k] = v], in strict code *)
  Put : Value -> jsstring -> Value -> Async W unit
}.

Section Grouping.
Context {W : Type} {api : CookiesApi W} {realm : Realm W}.
Local Open Scope async_scope.

(** [if (!map[domain]) map[domain] = {}; map[domain][name] = value] *)
Definition group_cookie (map : Value) (domain name value : jsstring)
  : Async W unit :=
  existing <- Get map domain ;;
  (if ToBoolean existing then ret tt
   else (fresh <- new_object ;; Put map domain fresh)) ;;;
  inner <- Get map domain ;;
  Put inner name (of_string value).

Definition all : Async W Value :=
  cookies <- api_getAll {| getAll_domain := None |} ;;
  map <- new_object ;;
  for_of cookies (fun cookie =>
    group_cookie map (domain cookie) (CookieAdapter.name cookie)
                 (CookieAdapter.value cookie)) ;;;
  ret map.

Definition filter
  (predicate : jsstring -> jsstring -> jsstring -> bool)
  : Async W Value :=
  cookies <- api_getAll {| getAll_domain := None |} ;;
  result <- new_object ;;
  for_of cookies (fun c =>
    if predicate (CookieAdapter.name c) (CookieAdapter.value c) (domain c)
    then group_cookie result (domain c) (CookieAdapter.name c)
                      (CookieAdapter.value c)
    else ret tt) ;;;
  ret result.

End Grouping.

End ByDomain.

End CookieAdapter.

(* ================================================================= *)
(** ** The JSON object of ECMAScript, as far as the service uses it *)

Module Json.

(** The values [JSON.parse] returns.  A number keeps its literal; an
    object keeps its properties in creation order, each key once. *)
Inductive JsValue : Type :=
| JNull
| JBool (b : bool)
| JNumber (literal : jsstring)
| JString (s : jsstring)
| JArray (elems : list JsValue)
| JObject (props : list (jsstring * JsValue)).

(** CreateDataProperty: an existing key keeps its place. *)
Fixpoint define_property {V} (o : list (jsstring * V)) (k : jsstring) (v : V)
  : list (jsstring * V) :=
  match o with
  | [] => [(k, v)]
  | (k', v') :: o' =>
      if str_eqb k' k then (k', v) :: o'
      else (k', v') :: define_property o' k v
  end.

Definition proto_key : jsstring := lit "__proto__".

(** [o[k] = v] on a plain object [o], for a string [v]: the key
    [__proto__] reaches the setter inherited from [Object.prototype],
    which ignores a value that is neither an object nor null. *)
Definition assign {V} (o : list (jsstring * V)) (k : jsstring) (v : V)
  : list (jsstring * V) :=
  if str_eqb k proto_key then o else define_property o k v.

Definition is_digit (c : code_unit) : bool :=
  (N.leb 48 c && N.leb c 57)%bool.

Fixpoint decimal_value (acc : N) (s : jsstring) : option N :=
  match s with
  | [] => Some acc
  | c :: r =>
      if is_digit c then decimal_value (acc * 10 + (c - 48))%N r else None
  end.

(** An array index: a canonical numeric string below [2^32 - 1]. *)
Definition array_index (k : jsstring) : option N :=
  match k with
  | [] => None
  | c :: r =>
      if (N.eqb c 48 && negb (match r with [] => true | _ => false end))%bool
      then None
      else match decimal_value 0 k with
           | Some n => if N.leb n 4294967294 then Some n else None
           | None => None
           end
  end.

Definition is_index {V} (p : jsstring * V) : bool :=
  match array_index (fst p) with Some _ => true | None => false end.

(** OrdinaryOwnPropertyKeys: array indices in ascending numeric order,
    then the other keys in creation order. *)
Definition own_property_order {V} (o : list (jsstring * V))
  : list (jsstring * V) :=
  let indices :=
    flat_map (fun p => match array_index (fst p) with
                       | Some n => [(n, p)]
                       | None => []
                       end) o in
  map snd (sort (fun a b => (Z.of_N (fst a) - Z.of_N (fst b))%Z) indices)
  ++ filter (fun p => negb (is_index p)) o.

Definition index_key (i : nat) : jsstring :=
  lit (NilZero.string_of_uint (Nat.to_uint i)).

Definition indexed {V} (l : list V) : list (jsstring * V) :=
  combine (map index_key (seq 0 (List.length l))) l.

(** [Object.entries(v)]; [None] is the TypeError thrown for [null]. *)
Definition Object_entries (v : JsValue) : option (list (jsstring * JsValue)) :=
  match v with
  | JNull => None
  | JBool _ => Some []
  | JNumber _ => Some []
  | JString s => Some (indexed (map (fun c => JString [c]) s))
  | JArray es => Some (indexed es)
  | JObject props => Some (own_property_order props)
  end.

Fixpoint join (sep : jsstring) (l : list jsstring) : jsstring :=
  match l with
  | [] => []
  | x :: l' =>
      match l' with
      | [] => x
      | _ :: _ => x ++ sep ++ join sep l'
      end
  end.

(** [Object.prototype.hasOwnProperty.call(o, k)] *)
Definition has_own_property {V} (o : list (jsstring * V)) (k : jsstring)
  : bool :=
  existsb (fun p => str_eqb (fst p) k) o.

(** [String(v)] for a value [JSON.parse] made; [None] is the TypeError it
    throws.  An object is converted by its [toString], then its
    [valueOf]: a parsed object that has a key [toString] of its own
    holds no function there, and [valueOf] (its own, no function either,
    or the inherited one, which returns the object) gives no primitive,
    so the conversion throws; every other parsed object inherits
    [Object.prototype.toString].  An array is joined with commas, [null]
    elements as empty strings, the others by [String]. *)
Fixpoint to_string {P : Platform} (v : JsValue) : option jsstring :=
  match v with
  | JNull => Some (lit "null")
  | JBool b => Some (if b then lit "true" else lit "false")
  | JNumber l => Some (numberToString l)
  | JString s => Some s
  | JArray es =>
      let fix elements (l : list JsValue) : option (list jsstring) :=
        match l with
        | [] => Some []
        | e :: l' =>
            match (match e with JNull => Some [] | _ => to_string e end) with
            | Some s => option_map (cons s) (elements l')
            | None => None
            end
        end in
      option_map (join (lit ",")) (elements es)
  | JObject props =>
      if has_own_property props (lit "toString") then None
      else Some (lit "[object Object]")
  end.

(** *** JSON.parse *)

Definition is_ws (c : code_unit) : bool :=
  (N.eqb c 32 || N.eqb c 9 || N.eqb c 10 || N.eqb c 13)%bool.

Fixpoint skip_ws (s : jsstring) : jsstring :=
  match s with
  | [] => []
  | c :: r => if is_ws c then skip_ws r else s
  end.

Fixpoint strip_prefix (p s : jsstring) : option jsstring :=
  match p, s with
  | [], _ => Some s
  | _ :: _, [] => None
  | x :: p', y :: s' => if N.eqb x y then strip_prefix p' s' else None
  end.

Fixpoint take_digits (s : jsstring) : jsstring * jsstring :=
  match s with
  | [] => ([], [])
  | c :: r =>
      if is_digit c then let (d, r') := take_digits r in (c :: d, r')
      else ([], s)
  end.

Definition lex_int (s : jsstring) : option (jsstring * jsstring) :=
  match s with
  | [] => None
  | c :: r =>
      if N.eqb c 48 then Some ([c], r)
      else if is_digit c then let (d, r') := take_digits r in Some (c :: d, r')
      else None
  end.

Definition lex_frac (s : jsstring) : option (jsstring * jsstring) :=
  match s with
  | [] => Some ([], [])
  | c :: r =>
      if N.eqb c 46 then
        match take_digits r with
        | ([], _) => None
        | (d, r') => Some (c :: d, r')
        end
      else Some ([], s)
  end.

Definition lex_exp (s : jsstring) : option (jsstring * jsstring) :=
  match s with
  | [] => Some ([], [])
  | c :: r =>
      if (N.eqb c 101 || N.eqb c 69)%bool then
        let (sign, r1) :=
          match r with
          | x :: r' =>
              if (N.eqb x 43 || N.eqb x 45)%bool then ([x], r') else ([], r)
          | [] => ([], [])
          end in
        match take_digits r1 with
        | ([], _) => None
        | (d, r') => Some (c :: sign ++ d, r')
        end
      else Some ([], s)
  end.

Definition lex_number (s : jsstring) : option (jsstring * jsstring) :=
  let (sign, r0) :=
    match s with
    | c :: r => if N.eqb c 45 then ([c], r) else ([], s)
    | [] => ([], [])
    end in
  match lex_int r0 with
  | None => None
  | Some (i, r1) =>
      match lex_frac r1 with
      | None => None
      | Some (f, r2) =>
          match lex_exp r2 with
          | None => None
          | Some (e, r3) => Some (sign ++ i ++ f ++ e, r3)
          end
      end
  end.

Definition hex_value (c : code_unit) : option N :=
  if is_digit c then Some (c - 48)%N
  else if (N.leb 97 c && N.leb c 102)%bool then Some (c - 87)%N
  else if (N.leb 65 c && N.leb c 70)%bool then Some (c - 55)%N
  else None.

Definition hex4 (h1 h2 h3 h4 : code_unit) : option code_unit :=
  match hex_value h1, hex_value h2, hex_value h3, hex_value h4 with
  | Some a, Some b, Some c, Some d => Some (((a * 16 + b) * 16 + c) * 16 + d)%N
  | _, _, _, _ => None
  end.

(** The single-character escapes. *)
Definition unescape (e : code_unit) : option code_unit :=
  if N.eqb e 34 then Some 34%N
  else if N.eqb e 92 then Some 92%N
  else if N.eqb e 47 then Some 47%N
  else if N.eqb e 98 then Some 8%N
  else if N.eqb e 102 then Some 12%N
  else if N.eqb e 110 then Some 10%N
  else if N.eqb e 114 then Some 13%N
  else if N.eqb e 116 then Some 9%N
  else None.

Definition cons_char (c : code_unit) (r : option (jsstring * jsstring))
  : option (jsstring * jsstring) :=
  match r with
  | Some (s, rest) => Some (c :: s, rest)
  | None => None
  end.

(** The characters of a string literal, after its opening quote. *)
Fixpoint parse_chars (s : jsstring) : option (jsstring * jsstring) :=
  match s with
  | [] => None
  | c :: r =>
      if N.eqb c 34 then Some ([], r)
      else if N.eqb c 92 then
        match r with
        | [] => None
        | e :: r' =>
            if N.eqb e 117 then
              match r' with
              | h1 :: h2 :: h3 :: h4 :: r'' =>
                  match hex4 h1 h2 h3 h4 with
                  | Some u => cons_char u (parse_chars r'')
                  | None => None
                  end
              | _ => None
              end
            else
              match unescape e with
              | Some u => cons_char u (parse_chars r')
              | None => None
              end
        end
      else if N.ltb c 32 then None
      else cons_char c (parse_chars r)
  end.

Section Nested.
(** The parser of a nested value. *)
Variable parse_nested : jsstring -> option (JsValue * jsstring).

(** The members of an object, after its opening brace. *)
Fixpoint parse_members (n : nat) (s : jsstring)
  (acc : list (jsstring * JsValue)) : option (JsValue * jsstring) :=
  match n with
  | O => None
  | S n' =>
      match skip_ws s with
      | [] => None
      | q :: r =>
          if negb (N.eqb q 34) then None
          else
            match parse_chars r with
            | None => None
            | Some (k, r1) =>
                match skip_ws r1 with
                | [] => None
                | colon :: r2 =>
                    if negb (N.eqb colon 58) then None
                    else
                      match parse_nested r2 with
                      | None => None
                      | Some (v, r3) =>
                          let acc' := define_property acc k v in
                          match skip_ws r3 with
                          | [] => None
                          | c :: r4 =>
                              if N.eqb c 44 then parse_members n' r4 acc'
                              else if N.eqb c 125 then Some (JObject acc', r4)
                              else None
                          end
                      end
                end
            end
      end
  end.

(** The elements of an array, after its opening bracket. *)
Fixpoint parse_elements (n : nat) (s : jsstring) (acc : list JsValue)
  : option (JsValue * jsstring) :=
  match n with
  | O => None
  | S n' =>
      match parse_nested s with
      | None => None
      | Some (v, r) =>
          match skip_ws r with
          | [] => None
          | c :: r' =>
              if N.eqb c 44 then parse_elements n' r' (acc ++ [v])
              else if N.eqb c 93 then Some (JArray (acc ++ [v]), r')
              else None
          end
      end
  end.

End Nested.

Definition parse_keyword (kw : jsstring) (v : JsValue) (s : jsstring)
  : option (JsValue * jsstring) :=
  match strip_prefix kw s with
  | Some r => Some (v, r)
  | None => None
  end.

(** A value, with the white space before it.  The fuel bounds the
    nesting depth; a text never nests deeper than it is long. *)
Fixpoint parse_value (fuel : nat) (s : jsstring)
  : option (JsValue * jsstring) :=
  match fuel with
  | O => None
  | S f =>
      match skip_ws s with
      | [] => None
      | c :: r =>
          if N.eqb c 123 then
            match skip_ws r with
            | [] => None
            | c' :: r' =>
                if N.eqb c' 125 then Some (JObject [], r')
                else parse_members (parse_value f) (List.length r) r []
            end
          else if N.eqb c 91 then
            match skip_ws r with
            | [] => None
            | c' :: r' =>
                if N.eqb c' 93 then Some (JArray [], r')
                else parse_elements (parse_value f) (List.length r) r []
            end
          else if N.eqb c 34 then
            match parse_chars r with
            | Some (str, r') => Some (JString str, r')
            | None => None
            end
          else if N.eqb c 116 then parse_keyword (lit "true") (JBool true) (c :: r)
          else if N.eqb c 102 then parse_keyword (lit "false") (JBool false) (c :: r)
          else if N.eqb c 110 then parse_keyword (lit "null") JNull (c :: r)
          else
            match lex_number (c :: r) with
            | Some (l, r') => Some (JNumber l, r')
            | None => None
            end
      end
  end.

(** [JSON.parse(text)]; [None] is the SyntaxError it throws. *)
Definition JSON_parse (text : jsstring) : option JsValue :=
  match parse_value (S (List.length text)) text with
  | Some (v, r) =>
      match skip_ws r with
      | [] => Some v
      | _ :: _ => None
      end
  | None => None
  end.

(** *** JSON.stringify *)

Definition hex_digit (d : N) : code_unit :=
  if N.ltb d 10 then (48 + d)%N else (87 + d)%N.

(** [\uXXXX], in lower-case hexadecimal. *)
Definition unicode_escape (c : code_unit) : jsstring :=
  [92; 117;
   hex_digit ((c / 4096) mod 16); hex_digit ((c / 256) mod 16);
   hex_digit ((c / 16) mod 16); hex_digit (c mod 16)]%N.

Definition is_high_surrogate (c : code_unit) : bool :=
  (N.leb 55296 c && N.leb c 56319)%bool.

Definition is_low_surrogate (c : code_unit) : bool :=
  (N.leb 56320 c && N.leb c 57343)%bool.

Definition quote_unit (c : code_unit) : jsstring :=
  if N.eqb c 8 then [92; 98]%N
  else if N.eqb c 9 then [92; 116]%N
  else if N.eqb c 10 then [92; 110]%N
  else if N.eqb c 12 then [92; 102]%N
  else if N.eqb c 13 then [92; 114]%N
  else if N.eqb c 34 then [92; 34]%N
  else if N.eqb c 92 then [92; 92]%N
  else if N.ltb c 32 then unicode_escape c
  else [c].

(** QuoteJSONString without the enclosing quotes: a surrogate pair is
    copied, a lone surrogate is escaped. *)
Fixpoint quote_chars (s : jsstring) : jsstring :=
  match s with
  | [] => []
  | c :: r =>
      if is_high_surrogate c then
        match r with
        | d :: r' =>
            if is_low_surrogate d then c :: d :: quote_chars r'
            else unicode_escape c ++ quote_chars r
        | [] => unicode_escape c
        end
      else if is_low_surrogate c then unicode_escape c ++ quote_chars r
      else quote_unit c ++ quote_chars r
  end.

Definition quote (s : jsstring) : jsstring :=
  dquote :: quote_chars s ++ [dquote].

Definition member (p : jsstring * jsstring) : jsstring :=
  lit "  " ++ quote (fst p) ++ lit ": " ++ quote (snd p).

(** [JSON.stringify(o, null, 2)] for a [Record<string, string>]. *)
Definition JSON_stringify (o : list (jsstring * jsstring)) : jsstring :=
  match own_property_order o with
  | [] => lit "{}"
  | p :: ps =>
      lit "{" ++ [10%N] ++ member p
      ++ flat_map (fun q => [44%N; 10%N] ++ member q) ps
      ++ [10%N] ++ lit "}"
  end.

End Json.

(* ================================================================= *)
(** ** src/services/storage.service.ts *)

Module StorageService.
Import Json.

(** [type StorageType = "local" | "session"] *)
Inductive StorageType := local | session.

Record StorageEntry := { key : jsstring; value : jsstring }.

(** A Web Storage area: its pairs, in the order [key(i)] enumerates. *)
Definition Storage := list (jsstring * jsstring).

Definition Storage_key (s : Storage) (i : nat) : option jsstring :=
  option_map fst (nth_error s i).

Fixpoint getItem (s : Storage) (k : jsstring) : option jsstring :=
  match s with
  | [] => None
  | (k', v) :: s' => if str_eqb k' k then Some v else getItem s' k
  end.

(** A key already present keeps its place; a new key goes last (the
    place is the browser's choice, and nothing below depends on it). *)
Fixpoint setItem (s : Storage) (k v : jsstring) : Storage :=
  match s with
  | [] => [(k, v)]
  | (k', v') :: s' =>
      if str_eqb k' k then (k', v) :: s' else (k', v') :: setItem s' k v
  end.

Fixpoint removeItem (s : Storage) (k : jsstring) : Storage :=
  match s with
  | [] => []
  | (k', v') :: s' =>
      if str_eqb k' k then s' else (k', v') :: removeItem s' k
  end.

(** The page of a tab, reduced to its two storage areas. *)
Record Page := { localStorage : Storage; sessionStorage : Storage }.

(** [chrome.tabs.Tab]; its [id] is optional. *)
Record Tab := { tab_id : option Z }.

Inductive ChromeCall :=
| tabs_query
| scripting_executeScript (tabId : Z).

(** The browser as the service sees it: the answer to
    [tabs.query({active: true, currentWindow: true})], the pages that
    accept an injected script, and the calls made so far.  The service
    reaches the page of the active tab only; that two tabs on one origin
    share their [localStorage] is not represented. *)
Record Browser := {
  active_tabs : list Tab;
  pages : list (Z * Page);
  calls : list ChromeCall
}.

Definition record_call (c : ChromeCall) (b : Browser) : Browser :=
  {| active_tabs := active_tabs b;
     pages := pages b;
     calls := calls b ++ [c] |}.

Fixpoint page_of (ps : list (Z * Page)) (tabId : Z) : option Page :=
  match ps with
  | [] => None
  | (i, p) :: ps' => if Z.eqb i tabId then Some p else page_of ps' tabId
  end.

Fixpoint update_page (ps : list (Z * Page)) (tabId : Z) (p : Page)
  : list (Z * Page) :=
  match ps with
  | [] => []
  | (i, q) :: ps' =>
      if Z.eqb i tabId then (i, p) :: ps'
      else (i, q) :: update_page ps' tabId p
  end.

(** [chrome.tabs.query({ active: true, currentWindow: true }, callback)] *)
Definition query_tabs (b : Browser) : list Tab * Browser :=
  (active_tabs b, record_call tabs_query b).

(** [tabs[0]?.id], when it is truthy. *)
Definition first_tab_id (tabs : list Tab) : option Z :=
  match tabs with
  | [] => None
  | t :: _ =>
      match tab_id t with
      | Some i => if Z.eqb i 0 then None else Some i
      | None => None
      end
  end.

(** [chrome.scripting.executeScript({target: {tabId}, func, args},
    callback)]: the callback receives the result of [func] run in the
    page, or [undefined] ([None]) when the script cannot be injected. *)
Definition executeScript {R} (tabId : Z) (func : Page -> R * Page)
  (b : Browser) : option R * Browser :=
  let b := record_call (scripting_executeScript tabId) b in
  match page_of (pages b) tabId with
  | None => (None, b)
  | Some page =>
      let (r, page') := func page in
      (Some r,
       {| active_tabs := active_tabs b;
          pages := update_page (pages b) tabId page';
          calls := calls b |})
  end.

(** [type === "local" ? localStorage : sessionStorage] *)
Definition storage_of (type : StorageType) (page : Page) : Storage :=
  match type with
  | local => localStorage page
  | session => sessionStorage page
  end.

Definition with_storage (type : StorageType) (page : Page) (s : Storage)
  : Page :=
  match type with
  | local => {| localStorage := s; sessionStorage := sessionStorage page |}
  | session => {| localStorage := localStorage page; sessionStorage := s |}
  end.

(** [storage.getItem(key) || ""] *)
Definition or_empty (v : option jsstring) : jsstring :=
  match v with
  | Some s => if truthy_string s then s else []
  | None => []
  end.

(** The function [getAllEntries] injects. *)
Definition read_entries {P : Platform} (storage : Storage)
  : list StorageEntry :=
  let entries :=
    flat_map (fun i =>
                match Storage_key storage i with
                | Some k =>
                    [{| key := k; value := or_empty (getItem storage k) |}]
                | None => []
                end)
             (seq 0 (List.length storage)) in
  sort (fun a b => localeCompare (key a) (key b)) entries.

Definition no_active_tab : JsError := Error (lit "No active tab found").

Definition getAllEntries {P : Platform} (storageType : StorageType)
  : Async Browser (list StorageEntry) :=
  fun b =>
    let (tabs, b1) := query_tabs b in
    match first_tab_id tabs with
    | None => (Resolved [], b1)
    | Some tabId =>
        let (results, b2) :=
          executeScript tabId
            (fun page => (read_entries (storage_of storageType page), page))
            b1 in
        (Resolved (match results with Some r => r | None => [] end), b2)
    end.

Definition setEntry (storageType : StorageType) (k v : jsstring)
  : Async Browser unit :=
  fun b =>
    let (tabs, b1) := query_tabs b in
    match first_tab_id tabs with
    | None => (Rejected no_active_tab, b1)
    | Some tabId =>
        let (_, b2) :=
          executeScript tabId
            (fun page =>
               let storage := storage_of storageType page in
               (true, with_storage storageType page (setItem storage k v)))
            b1 in
        (Resolved tt, b2)
    end.

Definition deleteEntry (storageType : StorageType) (k : jsstring)
  : Async Browser unit :=
  fun b =>
    let (tabs, b1) := query_tabs b in
    match first_tab_id tabs with
    | None => (Rejected no_active_tab, b1)
    | Some tabId =>
        let (_, b2) :=
          executeScript tabId
            (fun page =>
               let storage := storage_of storageType page in
               (true, with_storage storageType page (removeItem storage k)))
            b1 in
        (Resolved tt, b2)
    end.

Definition clearAll (storageType : StorageType) : Async Browser unit :=
  fun b =>
    let (tabs, b1) := query_tabs b in
    match first_tab_id tabs with
    | None => (Rejected no_active_tab, b1)
    | Some tabId =>
        let (_, b2) :=
          executeScript tabId
            (fun page => (true, with_storage storageType page []))
            b1 in
        (Resolved tt, b2)
    end.

Section Service.
Context {P : Platform}.
Local Open Scope async_scope.

(** [entries.reduce((acc, entry) => { acc[entry.key] = entry.value;
    return acc; }, {})] *)
Definition to_record (entries : list StorageEntry)
  : list (jsstring * jsstring) :=
  fold_left (fun acc entry => assign acc (key entry) (value entry)) entries [].

Definition exportEntries (storageType : StorageType) : Async Browser jsstring :=
  entries <- getAllEntries storageType ;;
  let exportData := to_record entries in
  ret (JSON_stringify exportData).

(** What [JSON.parse] and [Object.entries] throw; the handler of
    [importEntries] drops both. *)
Definition syntax_error : JsError := mkError (lit "SyntaxError") [].
Definition type_error : JsError := mkError (lit "TypeError") [].

Definition invalid_json : JsError := Error (lit "Invalid JSON format").

Definition importEntries (storageType : StorageType) (jsonData : jsstring)
  : Async Browser unit :=
  try_catch
    (match JSON_parse jsonData with
     | None => throw syntax_error
     | Some data =>
         match Object_entries data with
         | None => throw type_error
         | Some es =>
             for_of es (fun kv =>
               match to_string (snd kv) with
               | Some s => setEntry storageType (fst kv) s
               | None => throw type_error
               end)
         end
     end)
    (fun error => throw invalid_json).

End Service.

End StorageService.

(* ================================================================= *)
(** ** The cookie dashboard (script of the Svelte component) *)

Module Dashboard.
Import CookieAdapter.

(** The component's [interface Cookie] has the fields of
    [chrome.cookies.Cookie]; [CookieField] is [keyof Cookie]. *)
Inductive CookieField :=
| f_name | f_value | f_domain | f_path | f_secure | f_httpOnly
| f_sameSite | f_expirationDate | f_hostOnly | f_session | f_storeId.

Inductive SortDirection := asc | desc.

Definition field_eqb (f g : CookieField) : bool :=
  match f, g with
  | f_name, f_name | f_value, f_value | f_domain, f_domain
  | f_path, f_path | f_secure, f_secure | f_httpOnly, f_httpOnly
  | f_sameSite, f_sameSite | f_expirationDate, f_expirationDate
  | f_hostOnly, f_hostOnly | f_session, f_session
  | f_storeId, f_storeId => true
  | _, _ => false
  end.

(** The reactive state the filter effect reads and writes. *)
Record State := {
  cookies : list Cookie;
  filteredCookies : list Cookie;
  searchTerm : jsstring;
  selectedDomain : jsstring;
  showExpiredOnly : bool;
  sortField : CookieField;
  sortDirection : SortDirection
}.

(** A function value; [Function_length] is the number of its
    parameters. *)
Record Arrow (A : Type) := {
  Function_length : nat;
  Function_call : unit -> A
}.

Arguments Function_length {A} _.
Arguments Function_call {A} _.

(** [let domains = $derived(() => {...})].  [$derived] takes an
    expression (it is [$derived.by] that takes a function and calls it),
    so the value of [domains] is the arrow function itself. *)
Definition domains (cookies : list Cookie) : Arrow (list jsstring) :=
  {| Function_length := 0;
     Function_call := fun _ =>
       let uniqueDomains :=
         sort default_compare (unique (map domain cookies)) in
       lit "all" :: uniqueDomains |}.

(** The items of [{#each collection as item}] for a collection that is a
    function: the block turns a value that is no array into one with
    [Array.from], which reads a function as an array-like of [length]
    elements, each [undefined] ([None]). *)
Definition each {A B} (collection : Arrow A) : list (option B) :=
  repeat None (Function_length collection).

(** The [<option>]s of the domain filter:
    [{#each domains as domain} <option value={domain}>]. *)
Definition domain_options (cookies : list Cookie) : list (option jsstring) :=
  each (domains cookies).

Definition Qltb (x y : Q) : bool := negb (Qle_bool y x).

Definition bool_ltb (a b : bool) : bool := (negb a && b)%bool.

(** [a[sortField] < b[sortField]]: strings by code units, booleans as 0
    and 1, numbers numerically; a missing [expirationDate] is below and
    above nothing. *)
Definition field_lt (f : CookieField) (a b : Cookie) : bool :=
  match f with
  | f_name => str_ltb (name a) (name b)
  | f_value => str_ltb (value a) (value b)
  | f_domain => str_ltb (domain a) (domain b)
  | f_path => str_ltb (path a) (path b)
  | f_secure => bool_ltb (secure a) (secure b)
  | f_httpOnly => bool_ltb (httpOnly a) (httpOnly b)
  | f_sameSite =>
      str_ltb (sameSite_string (sameSite a)) (sameSite_string (sameSite b))
  | f_expirationDate =>
      match expirationDate a, expirationDate b with
      | Some x, Some y => Qltb x y
      | _, _ => false
      end
  | f_hostOnly => bool_ltb (hostOnly a) (hostOnly b)
  | f_session => bool_ltb (session a) (session b)
  | f_storeId => str_ltb (storeId a) (storeId b)
  end.

(** The comparator handed to [filtered.sort]. *)
Definition compare_cookies (f : CookieField) (d : SortDirection)
  (a b : Cookie) : Z :=
  let comparison := 0%Z in
  let comparison := if field_lt f a b then (-1)%Z else comparison in
  let comparison := if field_lt f b a then 1%Z else comparison in
  match d with
  | desc => (- comparison)%Z
  | asc => comparison
  end.

Section Effect.
Context {P : Platform}.

Definition matches_search (term : jsstring) (cookie : Cookie) : bool :=
  (includes (toLowerCase (name cookie)) (toLowerCase term)
   || includes (toLowerCase (value cookie)) (toLowerCase term)
   || includes (toLowerCase (domain cookie)) (toLowerCase term))%bool.

(** [cookie.expirationDate && cookie.expirationDate < now], as a truth
    value. *)
Definition is_expired (now : Q) (cookie : Cookie) : bool :=
  match expirationDate cookie with
  | Some e => (negb (Qeq_bool e 0) && Qltb e now)%bool
  | None => false
  end.

(** The three filter stages; the flag tells whether [filtered] still is
    the [cookies] array itself. *)
Definition filter_stage (on : bool) (keep : Cookie -> bool)
  (cur : list Cookie * bool) : list Cookie * bool :=
  if on then (filter keep (fst cur), false) else cur.

Definition run_filters (now : Q) (st : State) : list Cookie * bool :=
  let cur := (cookies st, true) in
  let cur := filter_stage (truthy_string (searchTerm st))
                          (matches_search (searchTerm st)) cur in
  let cur := filter_stage (negb (str_eqb (selectedDomain st) (lit "all")))
                          (fun c => str_eqb (domain c) (selectedDomain st))
                          cur in
  filter_stage (showExpiredOnly st) (is_expired now) cur.

(** The [$effect] that applies filters and sorting; [now] is
    [Date.now() / 1000].  [sort] works in place, so it also reorders
    [cookies] when no filter made a copy. *)
Definition apply_filters (now : Q) (st : State) : State :=
  let (filtered, aliased) := run_filters now st in
  let sorted :=
    sort (compare_cookies (sortField st) (sortDirection st)) filtered in
  {| cookies := if aliased then sorted else cookies st;
     filteredCookies := sorted;
     searchTerm := searchTerm st;
     selectedDomain := selectedDomain st;
     showExpiredOnly := showExpiredOnly st;
     sortField := sortField st;
     sortDirection := sortDirection st |}.

End Effect.

Definition setSortField (field : CookieField) (st : State) : State :=
  let same := field_eqb (sortField st) field in
  {| cookies := cookies st;
     filteredCookies := filteredCookies st;
     searchTerm := searchTerm st;
     selectedDomain := selectedDomain st;
     showExpiredOnly := showExpiredOnly st;
     sortField := if same then sortField st else field;
     sortDirection :=
       if same then
         match sortDirection st with asc => desc | desc => asc end
       else asc |}.

End Dashboard.

(* ================================================================= *)
(** ** Test doubles: a host platform and a scripted cookie API *)

Module Fixtures.
Import CookieAdapter.

Definition ascii_lower (c : code_unit) : code_unit :=
  if (N.leb 65 c && N.leb c 90)%bool then (c + 32)%N else c.

(** A host whose collation is the order of the code units, whose case
    mapping covers the ASCII letters, and which prints a number as its
    literal stands (right for literals such as [5] or [1.5]). *)
Definition binary_platform : Platform :=
  {| localeCompare := default_compare;
     toLowerCase := map ascii_lower;
     numberToString := fun l => l |}.

Inductive Request :=
| req_getAll (d : GetAllDetails)
| req_set (d : SetDetails)
| req_remove (d : RemoveDetails).

(** A cookie API that answers from a fixed listing, rejects every call
    with [fault] when one is set, and records the requests it gets. *)
Record Jar := {
  listing : list Cookie;
  fault : option JsError;
  requests : list Request
}.

Definition received (r : Request) (j : Jar) : Jar :=
  {| listing := listing j; fault := fault j; requests := requests j ++ [r] |}.

Definition answer {A} (r : Request) (a : Jar -> A) : Async Jar A :=
  fun j =>
    match fault j with
    | Some e => (Rejected e, received r j)
    | None => (Resolved (a j), received r j)
    end.

Definition in_domain (d : GetAllDetails) (c : Cookie) : bool :=
  match getAll_domain d with
  | Some dom => str_eqb (domain c) dom
  | None => true
  end.

#[export] Instance scripted_api : CookiesApi Jar :=
  {| api_getAll := fun d =>
       answer (req_getAll d) (fun j => filter (in_domain d) (listing j));
     api_set := fun d => answer (req_set d) (fun _ => tt);
     api_remove := fun d => answer (req_remove d) (fun _ => tt) |}.

(** A realm double whose objects take no property: every value is the
    one object, reading gives it back and writing does nothing. *)
#[export] Instance inert_realm : ByDomain.Realm Jar :=
  {| ByDomain.Value := unit;
     ByDomain.of_string := fun _ => tt;
     ByDomain.ToBoolean := fun _ => true;
     ByDomain.new_object := ret tt;
     ByDomain.Get := fun _ _ => ret tt;
     ByDomain.Put := fun _ _ _ => ret tt |}.

Definition cookie (n v d p : string) : Cookie :=
  {| name := lit n; value := lit v; domain := lit d; path := lit p;
     secure := false; httpOnly := false; sameSite := lax;
     expirationDate := None; hostOnly := true; session := true;
     storeId := lit "0" |}.

Definition expiring (n d : string) (e : Q) : Cookie :=
  {| name := lit n; value := lit "v"; domain := lit d; path := lit "/";
     secure := false; httpOnly := false; sameSite := lax;
     expirationDate := Some e; hostOnly := true; session := false;
     storeId := lit "0" |}.

End Fixtures.

(* ================================================================= *)
(** ** The behaviour the specification describes, in its own words *)

Module Described.
Import CookieAdapter.

(** "The domain with a single leading dot stripped." *)
Inductive strips_one_dot : jsstring -> jsstring -> Prop :=
| strips_dot (host : jsstring) : strips_one_dot (46%N :: host) host
| strips_nothing (d : jsstring) :
    (forall host, d <> 46%N :: host) -> strips_one_dot d d.

(** The URL the spec describes for a secure flag, a domain and a path. *)
Definition described_url (secure : option bool) (domain : jsstring)
  (path : option jsstring) (url : jsstring) : Prop :=
  exists scheme host p,
    url = scheme ++ lit "://" ++ host ++ p
    /\ scheme = match secure with
                | Some true => lit "https"
                | _ => lit "http"
                end
    /\ strips_one_dot domain host
    /\ p = match path with Some q => q | None => lit "/" end.

(** The key/value entries of a storage area. *)
Definition entry_of (p : jsstring * jsstring) : StorageService.StorageEntry :=
  {| StorageService.key := fst p; StorageService.value := snd p |}.

(** "The set {all} united with the set of distinct cookie domains,
    sorted." *)
Definition described_domain_options (cookies : list Cookie) : list jsstring :=
  sort default_compare (unique (lit "all" :: map domain cookies)).

(** "Expiration timestamp strictly less than current time in seconds." *)
Definition expired (now : Q) (c : Cookie) : Prop :=
  exists e, expirationDate c = Some e /\ e < now.

(** The same, for a timestamp that is not zero. *)
Definition expired_nonzero (now : Q) (c : Cookie) : Prop :=
  exists e, expirationDate c = Some e /\ ~ e == 0 /\ e < now.

(** Two cookies have an equal value of the field ([===]). *)
Definition same_field_value (f : Dashboard.CookieField) (a b : Cookie)
  : Prop :=
  match f with
  | Dashboard.f_name => name a = name b
  | Dashboard.f_value => value a = value b
  | Dashboard.f_domain => domain a = domain b
  | Dashboard.f_path => path a = path b
  | Dashboard.f_secure => secure a = secure b
  | Dashboard.f_httpOnly => httpOnly a = httpOnly b
  | Dashboard.f_sameSite => sameSite a = sameSite b
  | Dashboard.f_expirationDate =>
      match expirationDate a, expirationDate b with
      | Some x, Some y => x == y
      | None, None => True
      | _, _ => False
      end
  | Dashboard.f_hostOnly => hostOnly a = hostOnly b
  | Dashboard.f_session => session a = session b
  | Dashboard.f_storeId => storeId a = storeId b
  end.

(** The cookie has a value of the field. *)
Definition has_field_value (f : Dashboard.CookieField) (c : Cookie) : Prop :=
  match f with
  | Dashboard.f_expirationDate => expirationDate c <> None
  | _ => True
  end.

(** "No two cookies have an equal value of the selected sort field." *)
Definition distinct_field_values (f : Dashboard.CookieField)
  (l : list Cookie) : Prop :=
  ForallOrdPairs (fun a b => ~ same_field_value f a b) l.

(** The comparator returns 0 for no two cookies of the list. *)
Definition no_ties (f : Dashboard.CookieField) (l : list Cookie) : Prop :=
  ForallOrdPairs
    (fun a b => Dashboard.compare_cookies f Dashboard.asc a b <> 0%Z) l.

End Described.

(* ================================================================= *)
(** ** The text [JSON.stringify] writes, piece by piece *)

Module JsonText.
Import Json.

(** A parser of nested values that reads a quoted string after one
    space, as [parse_value] does with any fuel. *)
Definition reads_strings (pv : jsstring -> option (JsValue * jsstring))
  : Prop :=
  forall s rest,
    pv (32%N :: 34%N :: quote_chars s ++ 34%N :: rest)
    = Some (JString s, rest).

(** The members after the first, each behind a comma and a line feed. *)
Definition members_text (ps : list (jsstring * jsstring)) : jsstring :=
  flat_map (fun q => [44%N; 10%N] ++ member q) ps.

(** [o[k]] on own properties. *)
Fixpoint get_property {V} (o : list (jsstring * V)) (k : jsstring)
  : option V :=
  match o with
  | [] => None
  | (k', v) :: o' => if str_eqb k' k then Some v else get_property o' k
  end.

(** [String(v)] where it does not throw. *)
Definition string_of {P : Platform} (v : JsValue) : jsstring :=
  match to_string v with Some s => s | None => [] end.

(** [String(v)] does not throw. *)
Definition converts {P : Platform} (v : JsValue) : bool :=
  match to_string v with Some _ => true | None => false end.

(** The properties [JSON.parse] creates, member by member. *)
Definition define_all (acc : list (jsstring * JsValue))
  (ps : list (jsstring * jsstring)) : list (jsstring * JsValue) :=
  fold_left (fun a q => define_property a (fst q) (JString (snd q))) ps acc.

End JsonText.

(* ================================================================= *)
(** ** Invariants of the browser state *)

Module Invariants.
Import StorageService.

(** A storage area holds each key once. *)
Definition distinct_keys (s : Storage) : Prop := NoDup (map fst s).

(** Every storage area of every page holds each key once. *)
Definition well_formed (b : Browser) : Prop :=
  forall i page,
    In (i, page) (pages b) ->
    distinct_keys (localStorage page) /\ distinct_keys (sessionStorage page).

End Invariants.


(* ================================================================= *)
(** ** src/content/index.ts *)

Module ContentScript.
Import Json StorageService JsonText.

(** What a call of the listener does. *)
Inductive Handled :=
| responded (data : list (jsstring * jsstring))
    (** [sendResponse(data); return true] *)
| ignored  (** returns [undefined] *)
| thrown (e : JsError).

(** [localStorage.getItem(key) ?? ""] *)
Definition or_default (v : option jsstring) : jsstring :=
  match v with Some s => s | None => [] end.

(** The loop that fills [data]; [key(i)] is a key for every [i] below
    [length]. *)
Definition collect (storage : Storage) : list (jsstring * jsstring) :=
  fold_left (fun data i =>
               match Storage_key storage i with
               | Some key =>
                   assign data key (or_default (getItem storage key))
               | None => data
               end)
            (seq 0 (List.length storage)) [].

(** [message.type === "GET_LOCALSTORAGE"], for a message that arrived as
    JSON: reading a property of [null] throws, a primitive or an array
    has no [type]. *)
Definition is_request (message : JsValue) : JsError + bool :=
  match message with
  | JNull => inl type_error
  | JObject props =>
      match get_property props (lit "type") with
      | Some (JString s) => inr (str_eqb s (lit "GET_LOCALSTORAGE"))
      | _ => inr false
      end
  | _ => inr false
  end.

(** The listener given to [chrome.runtime.onMessage.addListener], run in
    a page whose [localStorage] is [storage]. *)
Definition onMessage (message : JsValue) (storage : Storage) : Handled :=
  match is_request message with
  | inl e => thrown e
  | inr true => responded (collect storage)
  | inr false => ignored
  end.

End ContentScript.

(* ================================================================= *)
(** ** The cookie dashboard: loading, deleting and selecting cookies *)

Module DashboardActions.
Import CookieAdapter Dashboard.

(** [String.prototype.trim] strips WhiteSpace and LineTerminator code
    points. *)
Definition is_whitespace (c : code_unit) : bool :=
  (N.leb 9%N c && N.leb c 13%N) || N.eqb c 32%N || N.eqb c 160%N || N.eqb c 5760%N
  || (N.leb 8192%N c && N.leb c 8202%N) || N.eqb c 8232%N || N.eqb c 8233%N
  || N.eqb c 8239%N || N.eqb c 8287%N || N.eqb c 12288%N || N.eqb c 65279%N.

Fixpoint trim_start (s : jsstring) : jsstring :=
  match s with
  | [] => []
  | c :: s' => if is_whitespace c then trim_start s' else s
  end.

Definition trim (s : jsstring) : jsstring :=
  rev (trim_start (rev (trim_start s))).

(** [s.split(sep)] for a separator of one code unit. *)
Fixpoint split (sep : code_unit) (s : jsstring) : list jsstring :=
  match s with
  | [] => [[]]
  | c :: s' =>
      if N.eqb c sep then [] :: split sep s'
      else match split sep s' with
           | piece :: pieces => (c :: piece) :: pieces
           | [] => [[c]]
           end
  end.

(** The object the fallback builds from one piece of
    [document.cookie]; [split] always returns a first piece. *)
Definition parse_cookie (hostname cookie : jsstring) : Cookie :=
  let (name, valueParts) :=
    match split 61%N (trim cookie) with
    | name :: valueParts => (name, valueParts)
    | [] => ([], [])
    end in
  {| name := name;
     value := Json.join (lit "=") valueParts;
     domain := hostname;
     path := lit "/";
     secure := false;
     httpOnly := false;
     sameSite := lax;
     expirationDate := None;
     hostOnly := true;
     session := true;
     storeId := lit "0" |}.

(** [document.cookie.split(';').map(...).filter(c => c.name)] *)
Definition document_cookies (hostname document_cookie : jsstring)
  : list Cookie :=
  filter (fun c => truthy_string (name c))
         (map (parse_cookie hostname) (split 59%N document_cookie)).

(** A [Set<string>]: its elements in insertion order, each once. *)
Definition StringSet := list jsstring.

Definition Set_has (s : StringSet) (k : jsstring) : bool := mem k s.

Definition Set_add (s : StringSet) (k : jsstring) : StringSet :=
  if mem k s then s else s ++ [k].

Definition Set_delete (s : StringSet) (k : jsstring) : StringSet :=
  filter (fun x => negb (str_eqb x k)) s.

(** [new Set(iterable)] *)
Definition Set_of (xs : list jsstring) : StringSet := unique xs.

Definition Set_size (s : StringSet) : nat := List.length s.

(** The state of the component: the variables of the filter effect,
    [loading], [selectedCookies], and what was written with
    [console.error]. *)
Record Component := {
  view : State;
  loading : bool;
  selectedCookies : StringSet;
  console_error : list (jsstring * JsError)
}.

Definition set_loading (l : bool) (c : Component) : Component :=
  {| view := view c; loading := l;
     selectedCookies := selectedCookies c;
     console_error := console_error c |}.

Definition set_cookies (cs : list Cookie) (c : Component) : Component :=
  {| view := {| cookies := cs;
                filteredCookies := filteredCookies (view c);
                searchTerm := searchTerm (view c);
                selectedDomain := selectedDomain (view c);
                showExpiredOnly := showExpiredOnly (view c);
                sortField := sortField (view c);
                sortDirection := sortDirection (view c) |};
     loading := loading c;
     selectedCookies := selectedCookies c;
     console_error := console_error c |}.

Definition set_selectedCookies (s : StringSet) (c : Component) : Component :=
  {| view := view c; loading := loading c;
     selectedCookies := s;
     console_error := console_error c |}.

Definition log_error (label : jsstring) (e : JsError) (c : Component)
  : Component :=
  {| view := view c; loading := loading c;
     selectedCookies := selectedCookies c;
     console_error := console_error c ++ [(label, e)] |}.

(** [`${cookie.domain}-${cookie.name}`] *)
Definition selection_key (cookie : Cookie) : jsstring :=
  domain cookie ++ lit "-" ++ name cookie.

Definition toggleCookieSelection (cookie : Cookie) (c : Component)
  : Component :=
  let key := selection_key cookie in
  let selected :=
    if Set_has (selectedCookies c) key
    then Set_delete (selectedCookies c) key
    else Set_add (selectedCookies c) key in
  set_selectedCookies (Set_of selected) c.

Definition toggleAllSelection (c : Component) : Component :=
  if Nat.eqb (Set_size (selectedCookies c))
             (List.length (filteredCookies (view c)))
  then set_selectedCookies [] c
  else set_selectedCookies
         (Set_of (map selection_key (filteredCookies (view c)))) c.

(** Argument of [chrome.cookies.remove] as the dashboard gives it. *)
Record RemoveDetails := {
  remove_url : jsstring;
  remove_name : jsstring;
  remove_storeId : jsstring
}.

(** [chrome.cookies] as the dashboard uses it, over the browser state
    [W]. *)
Class ChromeCookies (W : Type) : Type := {
  cookies_getAll : GetAllDetails -> Async W (list Cookie);
  cookies_remove : RemoveDetails -> Async W unit
}.

(** Where the component runs: [chrome.cookies] if it is there
    ([typeof chrome !== 'undefined' && chrome.cookies]),
    [document.cookie] and [window.location.hostname]. *)
Record Host (W : Type) := {
  chrome_cookies : option (ChromeCookies W);
  document_cookie : jsstring;
  location_hostname : jsstring
}.

Arguments chrome_cookies {W} _.
Arguments document_cookie {W} _.
Arguments location_hostname {W} _.

(** [`http${cookie.secure ? 's' : ''}://${cookie.domain}${cookie.path}`] *)
Definition cookie_url (cookie : Cookie) : jsstring :=
  lit "http" ++ (if secure cookie then lit "s" else [])
  ++ lit "://" ++ domain cookie ++ path cookie.

Section Actions.
Context {W : Type} (host : Host W).
Local Open Scope async_scope.

(** A call of the browser API leaves the component as it is. *)
Definition call {A} (c : Async W A) : Async (W * Component) A :=
  fun ws =>
    let (o, w') := c (fst ws) in (o, (w', snd ws)).

(** An assignment to the component's variables. *)
Definition update (f : Component -> Component) : Async (W * Component) unit :=
  fun ws => (Resolved tt, (fst ws, f (snd ws))).

(** [try { c } finally { f }], for an [f] that completes normally or
    throws. *)
Definition try_finally {A} (c : Async (W * Component) A)
  (f : Async (W * Component) unit) : Async (W * Component) A :=
  fun ws =>
    let (o, ws') := c ws in
    match f ws' with
    | (Resolved _, ws'') => (o, ws'')
    | (Rejected e, ws'') => (Rejected e, ws'')
    end.

Definition fetchCookies : Async (W * Component) unit :=
  update (set_loading true) ;;;
  try_finally
    (try_catch
       (match chrome_cookies host with
        | Some api =>
            allCookies <- call (cookies_getAll {| getAll_domain := None |}) ;;
            update (set_cookies allCookies)
        | None =>
            let documentCookies :=
              document_cookies (location_hostname host)
                               (document_cookie host) in
            update (set_cookies documentCookies)
        end)
       (fun error => update (log_error (lit "Failed to fetch cookies:") error)))
    (update (set_loading false)).

Definition deleteCookie (cookie : Cookie) : Async (W * Component) unit :=
  match chrome_cookies host with
  | Some api =>
      try_catch
        (call (cookies_remove {| remove_url := cookie_url cookie;
                                 remove_name := name cookie;
                                 remove_storeId := storeId cookie |}) ;;;
         fetchCookies)
        (fun error => update (log_error (lit "Failed to delete cookie:") error))
  | None => ret tt
  end.

End Actions.

(** The string [document.cookie] returns for cookies with the given
    names and values: [name=value] pairs separated by "; ". *)
Definition cookie_string (pairs : list (jsstring * jsstring)) : jsstring :=
  Json.join (lit "; ") (map (fun p => fst p ++ lit "=" ++ snd p) pairs).

(** The string neither begins nor ends with white space. *)
Definition starts_clean (s : jsstring) : bool :=
  match s with
  | [] => true
  | c :: _ => negb (is_whitespace c)
  end.

Definition ends_clean (s : jsstring) : bool := starts_clean (rev s).

(** A name and a value [document.cookie] shows unchanged: a name that is
    not empty, neither holding [;] nor [=]; a value without [;]. *)
Definition plain_pair (p : jsstring * jsstring) : Prop :=
  fst p <> []
  /\ ~ In 59%N (fst p) /\ ~ In 61%N (fst p) /\ ~ In 59%N (snd p)
  /\ starts_clean (fst p) = true /\ ends_clean (snd p) = true.

End DashboardActions.
(* ================================================================= *)
(** * Properties *)

Import CookieAdapter Json StorageService Dashboard Fixtures Described
  JsonText Invariants.

(** ** Strings *)

Lemma str_eqb_eq (a b : jsstring) : str_eqb a b = true <-> a = b.
Proof.
  revert b; induction a as [|x a IH]; intros [|y b]; simpl;
    try (split; [discriminate | intros [=]]); try tauto.
  rewrite andb_true_iff, N.eqb_eq, IH.
  split; [intros [-> ->]; reflexivity | intros [= -> ->]; auto].
Qed.

Lemma str_eqb_refl (a : jsstring) : str_eqb a a = true.
Proof. apply str_eqb_eq; reflexivity. Qed.

Lemma str_eqb_neq (a b : jsstring) : str_eqb a b = false <-> a <> b.
Proof.
  rewrite <- str_eqb_eq. destruct (str_eqb a b); split; congruence.
Qed.

Lemma str_compare_refl (a : jsstring) : str_compare a a = Eq.
Proof.
  induction a as [|x a IH]; simpl; [reflexivity|].
  now rewrite N.compare_refl.
Qed.

Lemma str_compare_eq (a b : jsstring) : str_compare a b = Eq <-> a = b.
Proof.
  split; [|intros ->; apply str_compare_refl].
  revert b; induction a as [|x a IH]; intros [|y b]; simpl;
    try discriminate; auto.
  destruct (N.compare_spec x y) as [->| |]; try discriminate.
  intros H; f_equal; auto.
Qed.

Lemma str_compare_antisym (a b : jsstring) :
  str_compare b a = CompOpp (str_compare a b).
Proof.
  revert b; induction a as [|x a IH]; intros [|y b]; simpl; auto.
  rewrite (N.compare_antisym x y).
  destruct (N.compare x y); simpl; auto.
Qed.

Lemma str_compare_lt_trans (a b c : jsstring) :
  str_compare a b = Lt -> str_compare b c = Lt -> str_compare a c = Lt.
Proof.
  revert b c; induction a as [|x a IH]; intros [|y b] [|z c]; simpl;
    try discriminate; auto.
  destruct (N.compare_spec x y) as [->|Hxy|Hxy]; try discriminate.
  - destruct (N.compare_spec y z) as [->|Hyz|Hyz]; try discriminate; eauto.
  - intros _.
    destruct (N.compare_spec y z) as [->|Hyz|Hyz]; try discriminate; intros _.
    + now apply N.compare_lt_iff in Hxy as ->.
    + assert (H : (x < z)%N) by lia. now apply N.compare_lt_iff in H as ->.
Qed.

(** ** Promise plumbing *)

Lemma bind_rejected {W A B} (c : Async W A) (k : A -> Async W B) w e w' :
  c w = (Rejected e, w') -> bind c k w = (Rejected e, w').
Proof. unfold bind; now intros ->. Qed.

Lemma bind_resolved {W A B} (c : Async W A) (k : A -> Async W B) w a w' :
  c w = (Resolved a, w') -> bind c k w = k a w'.
Proof. unfold bind; now intros ->. Qed.

Lemma for_of_app_rejected {W A} (body : A -> Async W unit)
  (pre post : list A) (x : A) w w1 w2 e :
  for_of pre body w = (Resolved tt, w1) ->
  body x w1 = (Rejected e, w2) ->
  for_of (pre ++ x :: post) body w = (Rejected e, w2).
Proof.
  revert w; induction pre as [|y pre IH]; simpl; intros w Hpre Hx.
  - injection Hpre as <-. now apply bind_rejected.
  - unfold bind in *. destruct (body y w) as [[[]|e'] w0]; [|discriminate].
    now apply IH.
Qed.

(** ** C1: no active tab *)

(** C1. When the tab query yields no usable tab ([tabs[0]?.id] is
    missing), [getAllEntries] resolves with the empty list, whereas
    [setEntry], [deleteEntry] and [clearAll] reject with the error
    "No active tab found"; the only browser call made is the query. *)
Theorem no_active_tab_outcomes {P : Platform} (t : StorageType)
  (k v : jsstring) (b : Browser) :
  first_tab_id (active_tabs b) = None ->
  getAllEntries t b = (Resolved [], record_call tabs_query b)
  /\ setEntry t k v b
     = (Rejected (Error (lit "No active tab found")), record_call tabs_query b)
  /\ deleteEntry t k b
     = (Rejected (Error (lit "No active tab found")), record_call tabs_query b)
  /\ clearAll t b
     = (Rejected (Error (lit "No active tab found")), record_call tabs_query b).
Proof.
  intros H.
  unfold getAllEntries, setEntry, deleteEntry, clearAll, query_tabs.
  rewrite H. repeat split.
Qed.

Lemma no_active_tab_outcomes_witness :
  let b := {| active_tabs := []; pages := []; calls := [] |} in
  fst (getAllEntries (P := binary_platform) session b) = Resolved []
  /\ fst (setEntry session (lit "k") (lit "v") b)
     = Rejected (Error (lit "No active tab found")).
Proof.
  intros b.
  destruct (@no_active_tab_outcomes binary_platform session (lit "k") (lit "v")
              b eq_refl) as (H1 & H2 & _).
  rewrite H1, H2. split; reflexivity.
Defined.

(** ** C2: malformed import text *)

(** C2. If the text is not valid JSON, [importEntries] rejects with the
    error "Invalid JSON format" and leaves the browser exactly as it was:
    no call is made, hence no [setEntry], and no storage changes. *)
Theorem import_invalid_json {P : Platform} (t : StorageType)
  (text : jsstring) (b : Browser) :
  JSON_parse text = None ->
  importEntries t text b = (Rejected (Error (lit "Invalid JSON format")), b).
Proof.
  intros H. unfold importEntries, try_catch. now rewrite H.
Qed.

Lemma import_invalid_json_witness :
  let b := {| active_tabs := [{| tab_id := Some 1%Z |}];
              pages := [(1%Z, {| localStorage := [(lit "a", lit "1")];
                                 sessionStorage := [] |})];
              calls := [] |} in
  importEntries (P := binary_platform) local (qlit "{not json") b
  = (Rejected (Error (lit "Invalid JSON format")), b).
Proof.
  intros b. apply (@import_invalid_json binary_platform local). reflexivity.
Defined.

(** ** C3: the inferred URL *)

Lemma strip_leading_dot_spec (d : jsstring) :
  strips_one_dot d (strip_leading_dot d).
Proof.
  destruct d as [|c rest]; simpl.
  - apply strips_nothing; discriminate.
  - destruct (N.eqb_spec c 46) as [->|Hc].
    + apply strips_dot.
    + apply strips_nothing. intros host [= ? _]. contradiction.
Qed.

Lemma inferUrl_described (o : InferOpts) :
  described_url (io_secure o) (io_domain o) (io_path o) (inferUrl o).
Proof.
  exists (if truthy_opt_bool (io_secure o) then lit "https" else lit "http"),
         (strip_leading_dot (io_domain o)),
         (match io_path o with Some q => q | None => lit "/" end).
  repeat split.
  - now destruct (io_secure o) as [[|]|].
  - apply strip_leading_dot_spec.
Qed.

(** C3. Without an explicit [url], [set] sends the cookie API a URL whose
    scheme is https when [secure] is set and http otherwise, whose host
    is the domain less one leading dot, and whose path is the given one
    or "/"; [delete] sends such a URL too, built without a secure flag
    (hence http) and with "/" when no path is passed. *)
Theorem set_delete_infer_url {W : Type} {api : CookiesApi W}
  (name value : jsstring) (options : BrowserCookieOptions)
  (domain : jsstring) (path : option jsstring) :
  opt_url options = None ->
  (exists url,
      described_url (opt_secure options) (opt_domain options)
                    (opt_path options) url
      /\ set name value options
         = api_set {| set_name := name;
                      set_value := value;
                      set_url := url;
                      set_path := opt_path options;
                      set_domain := opt_domain options;
                      set_secure := opt_secure options;
                      set_httpOnly := opt_httpOnly options;
                      set_sameSite := opt_sameSite options;
                      set_expirationDate := opt_expirationDate options;
                      set_storeId := opt_storeId options |})
  /\ (exists url,
         described_url None domain path url
         /\ delete name domain path
            = api_remove {| remove_name := name; remove_url := url |}).
Proof.
  intros Hurl. split.
  - eexists. split; [|unfold set; rewrite Hurl; reflexivity].
    apply (inferUrl_described
             {| io_domain := opt_domain options;
                io_path := opt_path options;
                io_secure := opt_secure options |}).
  - eexists. split; [|unfold delete; reflexivity].
    destruct (inferUrl_described
                {| io_domain := domain;
                   io_path := Some (match path with
                                    | Some q => q
                                    | None => lit "/"
                                    end);
                   io_secure := None |})
      as (scheme & host & p & Hu & Hs & Hh & Hp).
    exists scheme, host, p. repeat split; auto.
Qed.

Lemma strips_one_dot_fun (d host : jsstring) :
  strips_one_dot d host -> host = strip_leading_dot d.
Proof.
  intros [h|d' Hd]; simpl.
  - reflexivity.
  - destruct d' as [|c rest]; simpl; auto.
    destruct (N.eqb_spec c 46) as [->|]; auto.
    now destruct (Hd rest).
Qed.

Lemma described_url_fun (secure : option bool) (domain : jsstring)
  (path : option jsstring) (url : jsstring) :
  described_url secure domain path url ->
  url = inferUrl {| io_domain := domain; io_path := path;
                    io_secure := secure |}.
Proof.
  intros (scheme & host & p & -> & -> & Hh & ->).
  apply strips_one_dot_fun in Hh as ->.
  unfold inferUrl; simpl. now destruct secure as [[|]|].
Qed.

Lemma set_delete_infer_url_witness :
  let options := {| opt_url := None; opt_path := None;
                    opt_domain := lit ".example.com";
                    opt_secure := Some true; opt_httpOnly := None;
                    opt_expirationDate := None; opt_sameSite := None;
                    opt_storeId := None |} in
  let j := {| listing := []; fault := None; requests := [] |} in
  (exists d, requests (snd (set (lit "sid") (lit "1") options j)) = [req_set d]
             /\ set_url d = lit "https://example.com/")
  /\ requests (snd (delete (lit "sid") (lit ".example.com") None j))
     = [req_remove {| remove_name := lit "sid";
                      remove_url := lit "http://example.com/" |}].
Proof.
  intros options j.
  destruct (@set_delete_infer_url Jar scripted_api (lit "sid") (lit "1")
              options (lit ".example.com") None eq_refl)
    as [(u & Hu & Hset) (u' & Hu' & Hdel)].
  apply described_url_fun in Hu, Hu'. subst u u'.
  rewrite Hset, Hdel. split; [eexists; split|]; reflexivity.
Defined.

(** ** C10: [has] on a cookie with an empty value *)

Lemma get_resolved {W : Type} {api : CookiesApi W} (n d : jsstring)
  (w w' : W) (cookies : list Cookie) :
  api_getAll {| getAll_domain := Some d |} w = (Resolved cookies, w') ->
  get n d w
  = (Resolved (option_map CookieAdapter.value
                 (List.find (fun c => str_eqb (name c) n) cookies)), w').
Proof. intros H. unfold get. now rewrite (bind_resolved _ H). Qed.

(** C10 (as amended). If the first cookie called [n] in the browser's
    listing for the domain has the empty string as its value, then
    [has n d] resolves with [false], although the cookie is present. *)
Theorem has_false_on_empty_value {W : Type} {api : CookiesApi W}
  (n d : jsstring) (w w' : W) (cookies : list Cookie) (c : Cookie) :
  api_getAll {| getAll_domain := Some d |} w = (Resolved cookies, w') ->
  List.find (fun c => str_eqb (name c) n) cookies = Some c ->
  CookieAdapter.value c = [] ->
  has n d w = (Resolved false, w').
Proof.
  intros Hall Hfind Hval. unfold has.
  rewrite (bind_resolved _ (get_resolved n Hall)), Hfind. simpl.
  now rewrite Hval.
Qed.

Lemma has_false_on_empty_value_witness :
  let j := {| listing := [cookie "theme" EmptyString "example.com" "/"];
              fault := None; requests := [] |} in
  fst (has (lit "theme") (lit "example.com") j) = Resolved false.
Proof.
  intros j.
  rewrite (@has_false_on_empty_value Jar scripted_api (lit "theme")
             (lit "example.com") j _ _
             (cookie "theme" EmptyString "example.com" "/")
             eq_refl eq_refl eq_refl).
  reflexivity.
Defined.

(** Stated for any cookie of that name, C10 fails: when another cookie
    of the same name is listed before the empty one, [get] takes that
    one and [has] resolves with [true]. *)
Lemma has_true_beside_empty_cookie :
  ~ (forall (W : Type) (api : CookiesApi W) (n d : jsstring) (w w' : W)
            (cookies : list Cookie) (c : Cookie),
        api_getAll {| getAll_domain := Some d |} w = (Resolved cookies, w') ->
        In c cookies -> name c = n -> CookieAdapter.value c = [] ->
        has n d w = (Resolved false, w')).
Proof.
  intros H.
  pose (j := {| listing := [cookie "theme" "dark" "example.com" "/app";
                            cookie "theme" EmptyString "example.com" "/"];
                fault := None; requests := [] |}).
  specialize (H Jar scripted_api (lit "theme") (lit "example.com") j _ _
                (cookie "theme" EmptyString "example.com" "/") eq_refl).
  simpl in H.
  specialize (H (or_intror (or_introl eq_refl)) eq_refl eq_refl).
  discriminate H.
Qed.

(** ** C9: what happens to a failure of the browser API *)

Section Propagation.
Context {W : Type} {api : CookiesApi W}.

Lemma set_is_api_set (n v : jsstring) (o : BrowserCookieOptions) :
  exists d, set n v o = api_set d.
Proof. unfold set. eexists; reflexivity. Qed.

Lemma delete_is_api_remove (n d : jsstring) (p : option jsstring) :
  exists r, delete n d p = api_remove r.
Proof. unfold delete. eexists; reflexivity. Qed.

Lemma clear_rejected_by_remove (w w0 w1 w2 : W) (pre post : list Cookie)
  (c : Cookie) (e : JsError) :
  api_getAll {| getAll_domain := None |} w
  = (Resolved (pre ++ c :: post), w0) ->
  for_of pre remove_cookie w0 = (Resolved tt, w1) ->
  remove_cookie c w1 = (Rejected e, w2) ->
  clear w = (Rejected e, w2).
Proof.
  intros Hall Hpre Hc. unfold clear.
  rewrite (bind_resolved _ Hall).
  exact (for_of_app_rejected post Hpre Hc).
Qed.

Lemma remove_cookie_is_api_remove (c : Cookie) :
  exists r, remove_cookie c = api_remove r.
Proof. unfold remove_cookie. eexists; reflexivity. Qed.

End Propagation.

(** Once the tab is known, the callback of [executeScript] resolves. *)
Ltac resolves_with_tab H :=
  unfold setEntry, deleteEntry, clearAll, query_tabs; rewrite H;
  destruct executeScript as [? ?]; eexists; reflexivity.

Lemma setEntry_resolves (t : StorageType) (k v : jsstring) (b : Browser)
  (i : Z) :
  first_tab_id (active_tabs b) = Some i ->
  exists b', setEntry t k v b = (Resolved tt, b').
Proof. intros H. resolves_with_tab H. Qed.

Lemma deleteEntry_resolves (t : StorageType) (k : jsstring) (b : Browser)
  (i : Z) :
  first_tab_id (active_tabs b) = Some i ->
  exists b', deleteEntry t k b = (Resolved tt, b').
Proof. intros H. resolves_with_tab H. Qed.

Lemma clearAll_resolves (t : StorageType) (b : Browser) (i : Z) :
  first_tab_id (active_tabs b) = Some i ->
  exists b', clearAll t b = (Resolved tt, b').
Proof. intros H. resolves_with_tab H. Qed.

Lemma getAllEntries_resolves {P : Platform} (t : StorageType) (b : Browser) :
  exists es b', getAllEntries t b = (Resolved es, b').
Proof.
  unfold getAllEntries, query_tabs.
  destruct first_tab_id; [destruct executeScript as [r b2]|];
    do 2 eexists; reflexivity.
Qed.

Lemma executeScript_unreachable {R} (i : Z) (f : Page -> R * Page)
  (b : Browser) :
  page_of (pages b) i = None ->
  executeScript i f b = (None, record_call (scripting_executeScript i) b).
Proof. intros H. unfold executeScript. simpl. now rewrite H. Qed.

(** ** [Array.prototype.sort] *)

Section SortFacts.
Context {A : Type} (cmp : A -> A -> Z).

Lemma sort_insert_perm (x : A) (l : list A) :
  Permutation (sort_insert cmp x l) (x :: l).
Proof.
  induction l as [|y l IH]; simpl; [reflexivity|].
  destruct (cmp x y <=? 0)%Z; [reflexivity|].
  rewrite IH. apply perm_swap.
Qed.

Lemma sort_perm (l : list A) : Permutation (sort cmp l) l.
Proof.
  induction l as [|x l IH]; simpl; [reflexivity|].
  now rewrite sort_insert_perm, IH.
Qed.

Lemma sort_In (l : list A) (x : A) : In x (sort cmp l) <-> In x l.
Proof.
  split; apply Permutation_in; [|symmetry]; apply sort_perm.
Qed.

Lemma sort_In_inv (l : list A) (x : A) : In x (sort cmp l) -> In x l.
Proof. apply sort_In. Qed.

Lemma sort_insert_sorted (x : A) (l : list A) :
  (forall y, In y l -> (0 < cmp x y)%Z -> precedes cmp y x) ->
  (forall y z, In y l -> In z l ->
               precedes cmp x y -> precedes cmp y z -> precedes cmp x z) ->
  StronglySorted (precedes cmp) l ->
  StronglySorted (precedes cmp) (sort_insert cmp x l).
Proof.
  intros Htot Htrans Hs.
  induction Hs as [|y l Hs IH Hy]; simpl.
  - repeat constructor.
  - destruct (Z.leb_spec (cmp x y) 0) as [Hle|Hgt].
    + constructor; [now constructor|].
      constructor; [exact Hle|].
      rewrite Forall_forall in Hy |- *. intros z Hz.
      apply (Htrans y z); simpl; auto.
    + constructor.
      * apply IH; intros; [apply Htot|apply (Htrans y0 z)]; simpl; auto.
      * rewrite Forall_forall in Hy |- *. intros z Hz.
        apply (Permutation_in _ (sort_insert_perm x l)) in Hz.
        destruct Hz as [<-|Hz]; [apply Htot; simpl; auto|auto].
Qed.

Lemma sort_sorted (l : list A) :
  (forall x y, In x l -> In y l -> (0 < cmp x y)%Z -> precedes cmp y x) ->
  (forall x y z, In x l -> In y l -> In z l ->
                 precedes cmp x y -> precedes cmp y z -> precedes cmp x z) ->
  StronglySorted (precedes cmp) (sort cmp l).
Proof.
  induction l as [|a l IH]; intros Htot Htrans; [constructor|].
  change (sort cmp (a :: l)) with (sort_insert cmp a (sort cmp l)).
  apply sort_insert_sorted.
  - intros y Hy Hgt. apply -> sort_In in Hy. apply Htot; simpl; auto.
  - intros y z Hy Hz Hxy Hyz. apply -> sort_In in Hy. apply -> sort_In in Hz.
    apply (Htrans a y z); simpl; auto.
  - apply IH; intros; [apply Htot|apply (Htrans x y z)]; simpl; auto.
Qed.

End SortFacts.

Lemma StronglySorted_weaken {A} (R S : A -> A -> Prop) (l : list A) :
  (forall a b, In a l -> In b l -> a <> b -> R a b -> S a b) ->
  NoDup l -> StronglySorted R l -> StronglySorted S l.
Proof.
  intros H Hnd Hs. induction Hs as [|a l Hs IH Ha]; constructor.
  - apply IH; [|now inversion Hnd]. intros; apply H; simpl; auto.
  - inversion_clear Hnd as [|? ? Hnotin _].
    rewrite Forall_forall in Ha |- *. intros b Hb.
    apply H; simpl; auto. intros ->. contradiction.
Qed.

Lemma StronglySorted_rev {A} (R : A -> A -> Prop) (l : list A) :
  StronglySorted R l -> StronglySorted (fun a b => R b a) (rev l).
Proof.
  induction 1 as [|a l Hs IH Ha]; simpl; [constructor|].
  revert IH. generalize (rev_involutive l).
  assert (Hin : Forall (fun b => R a b) (rev l))
    by (rewrite Forall_forall in Ha |- *; intros b Hb;
        apply Ha; now apply in_rev).
  clear Ha Hs. intros _.
  induction (rev l) as [|b m IHm]; simpl; intros Hm.
  - repeat constructor.
  - inversion_clear Hm as [|? ? Hm' Hb]. inversion_clear Hin as [|? ? Hab Hin'].
    constructor; [auto|].
    apply Forall_app; split; [exact Hb|]. repeat constructor. exact Hab.
Qed.

Lemma sorted_perm_eq {A} (R : A -> A -> Prop) (l1 l2 : list A) :
  (forall a b, R a b -> R b a -> False) ->
  StronglySorted R l1 -> StronglySorted R l2 -> Permutation l1 l2 ->
  l1 = l2.
Proof.
  intros Hasym H1. revert l2.
  induction H1 as [|a l1 H1 IH Ha]; intros l2 H2 Hp.
  - now apply Permutation_nil in Hp.
  - destruct H2 as [|b l2 H2 Hb].
    + symmetry in Hp. now apply Permutation_nil in Hp.
    + assert (Hab : a = b).
      { assert (Hin1 : In a (b :: l2))
          by (apply (Permutation_in _ Hp); simpl; auto).
        assert (Hin2 : In b (a :: l1))
          by (apply (Permutation_in _ (Permutation_sym Hp)); simpl; auto).
        destruct Hin1 as [|Hin1]; [congruence|].
        destruct Hin2 as [|Hin2]; [congruence|].
        rewrite Forall_forall in Ha, Hb.
        destruct (Hasym a b); auto. }
      subst b. f_equal. apply IH; [exact H2|].
      now apply Permutation_cons_inv in Hp.
Qed.

(** ** C8: the options of the domain filter *)

Lemma mem_In (x : jsstring) (l : list jsstring) : mem x l = true <-> In x l.
Proof.
  induction l as [|y l IH]; simpl; [split; [discriminate|tauto]|].
  rewrite orb_true_iff, str_eqb_eq, IH. split; intros [H|H]; auto.
Qed.

Lemma unique_from_In (seen xs : list jsstring) (d : jsstring) :
  In d (unique_from seen xs) <-> In d xs /\ ~ In d seen.
Proof.
  revert seen; induction xs as [|x xs IH]; intros seen; simpl; [tauto|].
  destruct (mem x seen) eqn:Hm.
  - apply mem_In in Hm. rewrite IH. split; [tauto|].
    intros [[->|H] Hn]; [contradiction|auto].
  - assert (Hx : ~ In x seen) by (rewrite <- mem_In; congruence).
    simpl. rewrite IH. simpl. split.
    + intros [->|[H Hn]]; auto.
    + intros [[->|H] Hn]; auto.
      destruct (list_eq_dec N.eq_dec x d) as [->|Hne]; auto.
      right. split; auto. intros [?|?]; auto.
Qed.

Lemma unique_from_NoDup (seen xs : list jsstring) :
  NoDup (unique_from seen xs).
Proof.
  revert seen; induction xs as [|x xs IH]; intros seen; simpl;
    [constructor|].
  destruct (mem x seen); [apply IH|].
  constructor; [|apply IH].
  rewrite unique_from_In. simpl. tauto.
Qed.

Lemma unique_In (xs : list jsstring) (d : jsstring) :
  In d (unique xs) <-> In d xs.
Proof. unfold unique. rewrite unique_from_In. simpl. tauto. Qed.

Lemma default_compare_total (a b : jsstring) :
  (0 < default_compare a b)%Z -> precedes default_compare b a.
Proof.
  unfold precedes, default_compare. rewrite (str_compare_antisym a b).
  destruct (str_compare a b); simpl; lia.
Qed.

Lemma default_compare_precedes (a b : jsstring) :
  precedes default_compare a b <-> str_compare a b = Lt \/ a = b.
Proof.
  unfold precedes, default_compare. rewrite <- str_compare_eq.
  destruct (str_compare a b); split; try lia; auto;
    intros [H|H]; discriminate.
Qed.

Lemma default_compare_trans (a b c : jsstring) :
  precedes default_compare a b -> precedes default_compare b c ->
  precedes default_compare a c.
Proof.
  rewrite !default_compare_precedes.
  intros [H1| ->] [H2| ->]; auto.
  left. eapply str_compare_lt_trans; eauto.
Qed.

Lemma default_sort_strict (l : list jsstring) :
  NoDup l ->
  StronglySorted (fun a b => str_compare a b = Lt) (sort default_compare l).
Proof.
  intros Hnd.
  apply (@StronglySorted_weaken _ (precedes default_compare)).
  - intros a b _ _ Hne H. apply default_compare_precedes in H.
    destruct H; [assumption|contradiction].
  - apply (Permutation_NoDup (Permutation_sym (sort_perm _ l)) Hnd).
  - apply sort_sorted; intros.
    + now apply default_compare_total.
    + eapply default_compare_trans; eauto.
Qed.

(** What the function held by [domains] returns when it is called:
    "all" followed by the distinct cookie domains in strictly ascending
    order of their code units. *)
Lemma domains_called (cs : list Cookie) :
  exists ds,
    Function_call (domains cs) tt = lit "all" :: ds
    /\ StronglySorted (fun a b => str_compare a b = Lt) ds
    /\ (forall d, In d ds <-> exists c, In c cs /\ domain c = d).
Proof.
  exists (sort default_compare (unique (map domain cs))).
  split; [reflexivity|]. split.
  - apply default_sort_strict, unique_from_NoDup.
  - intros d. rewrite sort_In, unique_In, in_map_iff.
    split; intros (c & H1 & H2); exists c; auto.
Qed.

(** C8. The domain filter has no option, whatever the cookies are:
    [domains] holds the arrow function, which nothing calls, and the
    [each] block reads a function without parameters as an empty array.
    For a cookie of [example.com] the options the specification
    describes are "all" and "example.com"; the function would return
    them if it were called. *)
Theorem domain_options_empty :
  (forall cs, domain_options cs = [])
  /\ let cs := [cookie "sid" "1" "example.com" "/"] in
     described_domain_options cs = [lit "all"; lit "example.com"]
     /\ Function_call (domains cs) tt = [lit "all"; lit "example.com"].
Proof. repeat split. Qed.

(** ** C4: the expired-only filter *)

Lemma Qltb_lt (x y : Q) : Qltb x y = true <-> x < y.
Proof.
  unfold Qltb. rewrite negb_true_iff, <- not_true_iff_false, Qle_bool_iff.
  split; [apply Qnot_le_lt|apply Qlt_not_le].
Qed.

Lemma is_expired_spec {P : Platform} (now : Q) (c : Cookie) :
  is_expired now c = true <-> expired_nonzero now c.
Proof.
  unfold is_expired, expired_nonzero.
  destruct (expirationDate c) as [e|].
  - rewrite andb_true_iff, negb_true_iff, Qltb_lt.
    rewrite <- not_true_iff_false, Qeq_bool_iff.
    split; [intros [H1 H2]; eauto|intros (e' & [= <-] & H1 & H2); auto].
  - split; [discriminate|intros (e & [=] & _)].
Qed.

Lemma filter_stage_In (on : bool) (keep : Cookie -> bool)
  (cur : list Cookie * bool) (c : Cookie) :
  In c (fst (filter_stage on keep cur))
  <-> In c (fst cur) /\ (on = true -> keep c = true).
Proof.
  unfold filter_stage. destruct on; simpl.
  - rewrite filter_In. tauto.
  - split; [intros H; split; [exact H|discriminate]|tauto].
Qed.

Lemma apply_filters_In {P : Platform} (now : Q) (st : State) (c : Cookie) :
  In c (filteredCookies (apply_filters now st))
  <-> In c (cookies st)
      /\ (truthy_string (searchTerm st) = true ->
          matches_search (searchTerm st) c = true)
      /\ (selectedDomain st <> lit "all" -> domain c = selectedDomain st)
      /\ (showExpiredOnly st = true -> is_expired now c = true).
Proof.
  unfold apply_filters.
  destruct (run_filters now st) as [filtered aliased] eqn:Hrun. simpl.
  rewrite sort_In.
  change filtered with (fst (filtered, aliased)). rewrite <- Hrun.
  unfold run_filters. rewrite !filter_stage_In. simpl.
  rewrite negb_true_iff, str_eqb_neq, str_eqb_eq. tauto.
Qed.

(** C4 (as amended). With the expired-only toggle on, the filtered list
    holds exactly the cookies that pass the search and domain stages and
    whose [expirationDate] is present, is not zero, and is strictly less
    than the current time in seconds. *)
Theorem expired_only_filter {P : Platform} (now : Q) (st : State) (c : Cookie) :
  showExpiredOnly st = true ->
  (In c (filteredCookies (apply_filters now st))
   <-> In c (cookies st)
       /\ (truthy_string (searchTerm st) = true ->
           matches_search (searchTerm st) c = true)
       /\ (selectedDomain st <> lit "all" -> domain c = selectedDomain st)
       /\ expired_nonzero now c).
Proof.
  intros Hon. rewrite apply_filters_In, <- is_expired_spec. tauto.
Qed.

Lemma expired_only_filter_witness :
  let a := expiring "a" "x.com" 900 in
  let b := cookie "b" "v" "y.com" "/" in
  let st := {| cookies := [a; b]; filteredCookies := [];
               searchTerm := []; selectedDomain := lit "all";
               showExpiredOnly := true;
               sortField := f_name; sortDirection := asc |} in
  In a (filteredCookies (apply_filters (P := binary_platform) 1000 st))
  /\ ~ In b (filteredCookies (apply_filters (P := binary_platform) 1000 st)).
Proof.
  intros a b st.
  split.
  - apply (@expired_only_filter binary_platform 1000 st a eq_refl).
    repeat split; simpl; auto; try discriminate; try congruence.
    exists 900. repeat split; discriminate.
  - intros H.
    apply (@expired_only_filter binary_platform 1000 st b eq_refl) in H.
    destruct H as (_ & _ & _ & e & He & _). discriminate He.
Defined.

(** As the specification words it, C4 fails for a cookie that expired at
    the epoch: its timestamp 0 is below the current time, yet it is
    dropped. *)
Lemma expired_at_epoch_dropped :
  let a := expiring "a" "x.com" 0 in
  let st := {| cookies := [a]; filteredCookies := [];
               searchTerm := []; selectedDomain := lit "all";
               showExpiredOnly := true;
               sortField := f_name; sortDirection := asc |} in
  expired 1000 a
  /\ filteredCookies (apply_filters (P := binary_platform) 1000 st) = []
  /\ ~ (forall c, In c (filteredCookies
                          (apply_filters (P := binary_platform) 1000 st))
                  <-> In c (cookies st) /\ expired 1000 c).
Proof.
  intros a st.
  assert (He : expired 1000 a) by (exists 0; split; reflexivity).
  repeat split; auto.
  intros H. destruct (proj2 (H a)); simpl; auto.
Qed.

(** ** C6: ascending and descending order *)

Lemma str_ltb_irrefl (a : jsstring) : str_ltb a a = false.
Proof. unfold str_ltb. now rewrite str_compare_refl. Qed.

Lemma str_ltb_asym (a b : jsstring) :
  str_ltb a b = true -> str_ltb b a = false.
Proof.
  unfold str_ltb. rewrite (str_compare_antisym a b).
  now destruct (str_compare a b).
Qed.

Lemma str_ltb_trans (a b c : jsstring) :
  str_ltb a b = true -> str_ltb b c = true -> str_ltb a c = true.
Proof.
  unfold str_ltb.
  destruct (str_compare a b) eqn:H1; try discriminate.
  destruct (str_compare b c) eqn:H2; try discriminate.
  now rewrite (str_compare_lt_trans H1 H2).
Qed.

Lemma Qltb_irrefl (x : Q) : Qltb x x = false.
Proof.
  apply not_true_iff_false. rewrite Qltb_lt. apply Qlt_irrefl.
Qed.

Lemma Qltb_asym (x y : Q) : Qltb x y = true -> Qltb y x = false.
Proof.
  rewrite Qltb_lt. intros H. apply not_true_iff_false. rewrite Qltb_lt.
  intros H'. exact (Qlt_irrefl x (Qlt_trans _ _ _ H H')).
Qed.

Lemma Qltb_trans (x y z : Q) :
  Qltb x y = true -> Qltb y z = true -> Qltb x z = true.
Proof. rewrite !Qltb_lt. apply Qlt_trans. Qed.

Lemma field_lt_irrefl (f : CookieField) (a : Cookie) : field_lt f a a = false.
Proof.
  destruct f; simpl; auto using str_ltb_irrefl;
    try (now destruct (_ a : bool)).
  destruct (expirationDate a); auto using Qltb_irrefl.
Qed.

Lemma field_lt_asym (f : CookieField) (a b : Cookie) :
  field_lt f a b = true -> field_lt f b a = false.
Proof.
  destruct f; simpl; auto using str_ltb_asym;
    try (unfold bool_ltb; now destruct (_ a : bool), (_ b : bool)).
  destruct (expirationDate a), (expirationDate b); auto using Qltb_asym.
Qed.

Lemma field_lt_trans (f : CookieField) (a b c : Cookie) :
  field_lt f a b = true -> field_lt f b c = true -> field_lt f a c = true.
Proof.
  destruct f; simpl; eauto using str_ltb_trans;
    try (unfold bool_ltb;
         now destruct (_ a : bool), (_ b : bool), (_ c : bool)).
  destruct (expirationDate a), (expirationDate b), (expirationDate c);
    try discriminate; eauto using Qltb_trans.
Qed.

Lemma compare_asc_precedes (f : CookieField) (a b : Cookie) :
  precedes (compare_cookies f asc) a b <-> field_lt f b a = false.
Proof.
  unfold precedes, compare_cookies.
  destruct (field_lt f b a); destruct (field_lt f a b); split;
    try lia; auto; discriminate.
Qed.

Lemma compare_desc_precedes (f : CookieField) (a b : Cookie) :
  precedes (compare_cookies f desc) a b <-> field_lt f a b = false.
Proof.
  unfold precedes, compare_cookies.
  destruct (field_lt f b a) eqn:Hba.
  - rewrite (field_lt_asym Hba). split; [auto|lia].
  - destruct (field_lt f a b); split; try lia; auto; discriminate.
Qed.

Lemma compare_asc_tie (f : CookieField) (a b : Cookie) :
  compare_cookies f asc a b <> 0%Z <->
  field_lt f a b = true \/ field_lt f b a = true.
Proof.
  unfold compare_cookies.
  destruct (field_lt f b a); destruct (field_lt f a b); split;
    try lia; auto; intros [H|H]; discriminate.
Qed.

(** Sorting with a comparator that follows a strict order [lt], on a
    list whose elements [lt] tells apart. *)
Section StrictOrderSort.
Context {A : Type} (lt : A -> A -> bool) (cmp : A -> A -> Z).
Hypothesis cmp_precedes : forall a b, precedes cmp a b <-> lt b a = false.
Hypothesis lt_asym : forall a b, lt a b = true -> lt b a = false.
Hypothesis lt_trans :
  forall a b c, lt a b = true -> lt b c = true -> lt a c = true.

Lemma told_apart_perm (l l' : list A) :
  Permutation l' l -> told_apart lt l -> told_apart lt l'.
Proof.
  intros Hp [Hnd H]. split.
  - exact (Permutation_NoDup (Permutation_sym Hp) Hnd).
  - intros x y Hx Hy. apply H; eapply Permutation_in; eauto.
Qed.

Lemma strict_sort_sorted (l : list A) :
  told_apart lt l -> StronglySorted (fun a b => lt a b = true) (sort cmp l).
Proof.
  intros [Hnd Hta].
  assert (Hrefl : forall x, In x l -> lt x x = false).
  { intros x Hx. destruct (lt x x) eqn:E; auto.
    now rewrite (lt_asym E) in E. }
  apply (@StronglySorted_weaken _ (precedes cmp)).
  - intros a b Ha Hb Hne Hp.
    apply -> (sort_In cmp) in Ha. apply -> (sort_In cmp) in Hb.
    apply cmp_precedes in Hp.
    destruct (Hta a b Ha Hb) as [?|[?|?]]; congruence.
  - exact (Permutation_NoDup (Permutation_sym (sort_perm cmp l)) Hnd).
  - apply sort_sorted.
    + intros x y Hx Hy Hgt. apply cmp_precedes.
      destruct (lt x y) eqn:E; auto.
      assert (Hp : precedes cmp x y)
        by (apply cmp_precedes; now apply lt_asym).
      unfold precedes in Hp. lia.
    + intros x y z Hx Hy Hz Hxy Hyz.
      apply cmp_precedes in Hxy, Hyz. apply cmp_precedes.
      destruct (Hta x y Hx Hy) as [->|[Hlt|Hlt]]; [assumption| |congruence].
      destruct (Hta y z Hy Hz) as [<-|[Hlt'|Hlt']];
        [now apply lt_asym| |congruence].
      apply lt_asym. eapply lt_trans; eauto.
Qed.

End StrictOrderSort.

Lemma no_ties_told_apart (f : CookieField) (l : list Cookie) :
  no_ties f l -> told_apart (field_lt f) l.
Proof.
  intros H. split.
  - induction H as [|a l Ha _ IH]; constructor; auto.
    intros Hin. rewrite Forall_forall in Ha.
    apply (Ha a Hin). unfold compare_cookies.
    now rewrite field_lt_irrefl.
  - intros x y Hx Hy.
    destruct (ForallOrdPairs_In H x y Hx Hy) as [?|[Hr|Hr]]; auto;
      apply compare_asc_tie in Hr; tauto.
Qed.

Lemma told_apart_flip {A} (lt : A -> A -> bool) (l : list A) :
  told_apart lt l -> told_apart (fun a b => lt b a) l.
Proof.
  intros [Hnd H]. split; [exact Hnd|].
  intros x y Hx Hy. destruct (H x y Hx Hy) as [?|[?|?]]; auto.
Qed.

Lemma told_apart_filter {A} (lt : A -> A -> bool) (keep : A -> bool)
  (l : list A) :
  told_apart lt l -> told_apart lt (filter keep l).
Proof.
  intros [Hnd H]. split; [now apply NoDup_filter|].
  intros x y Hx Hy. apply filter_In in Hx, Hy. apply H; tauto.
Qed.

Lemma desc_is_rev_asc (f : CookieField) (l l1 l2 : list Cookie) :
  told_apart (field_lt f) l -> Permutation l1 l -> Permutation l2 l ->
  sort (compare_cookies f desc) l1 = rev (sort (compare_cookies f asc) l2).
Proof.
  intros Hl H1 H2.
  apply (@sorted_perm_eq _ (fun a b => field_lt f b a = true)).
  - intros a b Hba Hab. rewrite (field_lt_asym Hba) in Hab. discriminate.
  - apply (@strict_sort_sorted _ (fun a b => field_lt f b a)).
    + intros a b. apply compare_desc_precedes.
    + intros a b. apply field_lt_asym.
    + intros a b c Hab Hbc. exact (field_lt_trans Hbc Hab).
    + apply told_apart_flip. exact (told_apart_perm H1 Hl).
  - apply StronglySorted_rev.
    apply (@strict_sort_sorted _ (field_lt f)).
    + intros a b. apply compare_asc_precedes.
    + apply field_lt_asym.
    + apply field_lt_trans.
    + exact (told_apart_perm H2 Hl).
  - eapply Permutation_trans; [apply sort_perm|].
    eapply Permutation_trans; [exact H1|].
    eapply Permutation_trans; [exact (Permutation_sym H2)|].
    eapply Permutation_trans; [|apply Permutation_rev].
    apply Permutation_sym, sort_perm.
Qed.

Lemma filter_all {A} (l : list A) : filter (fun _ => true) l = l.
Proof. induction l; simpl; congruence. Qed.

Lemma filter_twice {A} (p q : A -> bool) (l : list A) :
  filter p (filter q l) = filter (fun x => q x && p x) l.
Proof.
  induction l as [|x l IH]; simpl; auto.
  destruct (q x); simpl; [destruct (p x)|]; now rewrite IH.
Qed.

Lemma filter_stage_shape (on : bool) (keep : Cookie -> bool) :
  exists K, forall l al,
    filter_stage on keep (l, al) = (filter K l, al && negb on)
    /\ (on = false -> filter K l = l).
Proof.
  destruct on.
  - exists keep. intros l al; split; [|discriminate].
    unfold filter_stage; simpl. now rewrite andb_false_r.
  - exists (fun _ => true). intros l al. rewrite filter_all.
    split; auto. unfold filter_stage; simpl. now rewrite andb_true_r.
Qed.

(** The stages are one filter that depends on the settings alone; when
    none is switched on, the list is the [cookies] array itself. *)
Lemma run_filters_shape {P : Platform} (now : Q) (st : State) :
  exists K aliased,
    (forall st',
        searchTerm st' = searchTerm st ->
        selectedDomain st' = selectedDomain st ->
        showExpiredOnly st' = showExpiredOnly st ->
        run_filters now st' = (filter K (cookies st'), aliased))
    /\ (aliased = true -> forall l, filter K l = l).
Proof.
  destruct (filter_stage_shape (truthy_string (searchTerm st))
              (matches_search (searchTerm st))) as [K1 H1].
  destruct (filter_stage_shape
              (negb (str_eqb (selectedDomain st) (lit "all")))
              (fun c => str_eqb (domain c) (selectedDomain st))) as [K2 H2].
  destruct (filter_stage_shape (showExpiredOnly st) (is_expired now))
    as [K3 H3].
  exists (fun c => K1 c && (K2 c && K3 c)).
  exists (negb (truthy_string (searchTerm st))
          && negb (negb (str_eqb (selectedDomain st) (lit "all")))
          && negb (showExpiredOnly st)).
  split.
  - intros st' E1 E2 E3. unfold run_filters. rewrite E1, E2, E3.
    rewrite (proj1 (H1 _ _)), (proj1 (H2 _ _)), (proj1 (H3 _ _)).
    now rewrite !filter_twice.
  - intros Hal l. rewrite !andb_true_iff, !negb_true_iff in Hal.
    destruct Hal as [[E1 E2] E3].
    rewrite <- (filter_twice (fun c => K2 c && K3 c) K1 l).
    rewrite <- (filter_twice K3 K2).
    now rewrite (proj2 (H1 l true) E1), (proj2 (H2 l true) E2),
                (proj2 (H3 l true) E3).
Qed.

(** If the comparator returns 0 for no two cookies of the list, sorting
    the list descending gives the reverse of sorting it ascending, also
    through the dashboard's effect. *)
Lemma reversed_without_ties {P : Platform} (now : Q) (st : State) :
  sortDirection st = asc ->
  no_ties (sortField st) (cookies st) ->
  sort (compare_cookies (sortField st) desc) (cookies st)
  = rev (sort (compare_cookies (sortField st) asc) (cookies st))
  /\ sortDirection (setSortField (sortField st) (apply_filters now st)) = desc
  /\ filteredCookies
       (apply_filters now
          (setSortField (sortField st) (apply_filters now st)))
     = rev (filteredCookies (apply_filters now st)).
Proof.
  intros Hasc Hties.
  pose proof (no_ties_told_apart Hties) as Hta.
  split; [now apply (desc_is_rev_asc Hta)|].
  destruct (run_filters_shape now st) as (K & aliased & Hrun & Hal).
  assert (Hf : forall g, field_eqb g g = true) by (now intros []).
  set (st1 := apply_filters now st).
  assert (E1 : sortField st1 = sortField st /\ sortDirection st1 = asc
               /\ searchTerm st1 = searchTerm st
               /\ selectedDomain st1 = selectedDomain st
               /\ showExpiredOnly st1 = showExpiredOnly st
               /\ filteredCookies st1
                  = sort (compare_cookies (sortField st) asc)
                         (filter K (cookies st))
               /\ Permutation (filter K (cookies st1)) (filter K (cookies st))).
  { unfold st1, apply_filters.
    rewrite (Hrun st eq_refl eq_refl eq_refl), Hasc.
    repeat split. cbn [cookies].
    destruct aliased; [|reflexivity].
    rewrite !(Hal eq_refl). apply sort_perm. }
  destruct E1 as (Ef & Ed & Es & Edom & Ex & Efc & Eperm).
  set (st2 := setSortField (sortField st) st1).
  assert (E2 : sortField st2 = sortField st /\ sortDirection st2 = desc
               /\ searchTerm st2 = searchTerm st
               /\ selectedDomain st2 = selectedDomain st
               /\ showExpiredOnly st2 = showExpiredOnly st
               /\ cookies st2 = cookies st1).
  { unfold st2, setSortField.
    cbn [sortField sortDirection searchTerm selectedDomain showExpiredOnly
         cookies].
    rewrite Ef, Hf, Ed. repeat split; assumption. }
  destruct E2 as (Ef2 & Ed2 & Es2 & Edom2 & Ex2 & Ec2).
  split; [exact Ed2|].
  unfold apply_filters at 1. rewrite (Hrun st2 Es2 Edom2 Ex2).
  cbn [filteredCookies]. rewrite Ef2, Ed2, Efc, Ec2.
  apply (@desc_is_rev_asc _ (filter K (cookies st)));
    [now apply told_apart_filter|exact Eperm|reflexivity].
Qed.

Lemma NoDup_map_ForallOrdPairs {A B} (p : A -> B) (R : A -> A -> Prop)
  (l : list A) :
  (forall a b, p a <> p b -> R a b) ->
  NoDup (map p l) -> ForallOrdPairs R l.
Proof.
  intros HR. induction l as [|a l IH]; simpl; intros Hnd; constructor.
  - inversion_clear Hnd as [|? ? Hnotin _].
    rewrite Forall_forall. intros b Hb. apply HR.
    intros E. apply Hnotin. rewrite E. now apply in_map.
  - apply IH. now inversion Hnd.
Qed.

Lemma str_ltb_total (a b : jsstring) :
  a <> b -> str_ltb a b = true \/ str_ltb b a = true.
Proof.
  intros Hne. unfold str_ltb. rewrite (str_compare_antisym a b).
  destruct (str_compare a b) eqn:E; simpl; auto.
  now apply str_compare_eq in E.
Qed.

(** On the two fields the dashboard lets the user sort by, cookies with
    different values never tie. *)
Lemma distinct_names_no_ties (l : list Cookie) :
  NoDup (map name l) -> no_ties f_name l.
Proof.
  apply NoDup_map_ForallOrdPairs. intros a b Hne.
  apply compare_asc_tie. now apply str_ltb_total.
Qed.

Lemma distinct_values_no_ties (l : list Cookie) :
  NoDup (map CookieAdapter.value l) -> no_ties f_value l.
Proof.
  apply NoDup_map_ForallOrdPairs. intros a b Hne.
  apply compare_asc_tie. now apply str_ltb_total.
Qed.

Lemma bool_ltb_total (a b : bool) :
  a <> b -> bool_ltb a b = true \/ bool_ltb b a = true.
Proof. destruct a, b; simpl; auto; congruence. Qed.

Lemma Qltb_total (x y : Q) :
  ~ x == y -> Qltb x y = true \/ Qltb y x = true.
Proof.
  intros Hne. rewrite !Qltb_lt.
  destruct (Q_dec x y) as [[H|H]|H]; auto. contradiction.
Qed.

(** On every field, two cookies that both have a value of the field and
    whose values differ do not tie. *)
Lemma different_values_no_tie (f : CookieField) (a b : Cookie) :
  has_field_value f a -> has_field_value f b ->
  ~ same_field_value f a b ->
  compare_cookies f asc a b <> 0%Z.
Proof.
  intros Ha Hb Hne. apply compare_asc_tie.
  destruct f; simpl in *;
    try (now apply str_ltb_total); try (now apply bool_ltb_total).
  - apply str_ltb_total. intros E. apply Hne.
    now destruct (sameSite a), (sameSite b).
  - destruct (expirationDate a), (expirationDate b); try tauto.
    now apply Qltb_total.
Qed.

Lemma different_values_no_ties (f : CookieField) (l : list Cookie) :
  Forall (has_field_value f) l ->
  ForallOrdPairs (fun a b => ~ same_field_value f a b) l ->
  no_ties f l.
Proof.
  intros Hall H. induction H as [|a l Ha _ IH]; constructor.
  - inversion_clear Hall as [|? ? Hva Hvl].
    rewrite Forall_forall in Ha, Hvl |- *. intros b Hb.
    apply different_values_no_tie; auto.
  - apply IH. now inversion Hall.
Qed.

(** A cookie without [expirationDate] ties with every other cookie on
    that field. *)
Lemma missing_expiration_ties (a b : Cookie) :
  expirationDate a = None ->
  compare_cookies f_expirationDate asc a b = 0%Z
  /\ compare_cookies f_expirationDate asc b a = 0%Z.
Proof.
  intros H. unfold compare_cookies; simpl. rewrite H.
  now destruct (expirationDate b).
Qed.

(** C6 (as amended). If every cookie of the list has a value of the
    sort field and no two cookies have an equal value of it, sorting the
    list by that field descending gives the reverse of sorting it
    ascending; and in the dashboard, switching an ascending view to
    descending shows the filtered cookies in exactly the reverse order. *)
Theorem sort_asc_desc_reversed {P : Platform} (now : Q) (st : State) :
  sortDirection st = asc ->
  Forall (has_field_value (sortField st)) (cookies st) ->
  distinct_field_values (sortField st) (cookies st) ->
  sort (compare_cookies (sortField st) desc) (cookies st)
  = rev (sort (compare_cookies (sortField st) asc) (cookies st))
  /\ sortDirection (setSortField (sortField st) (apply_filters now st)) = desc
  /\ filteredCookies
       (apply_filters now
          (setSortField (sortField st) (apply_filters now st)))
     = rev (filteredCookies (apply_filters now st)).
Proof.
  intros Hasc Hall Hdistinct.
  apply reversed_without_ties; [exact Hasc|].
  now apply different_values_no_ties.
Qed.

Lemma sort_asc_desc_reversed_witness :
  let a := expiring "a" "x.com" 30 in
  let b := expiring "b" "x.com" 10 in
  let c := expiring "c" "y.com" 20 in
  let st := {| cookies := [a; b; c]; filteredCookies := [];
               searchTerm := []; selectedDomain := lit "all";
               showExpiredOnly := false;
               sortField := f_expirationDate; sortDirection := asc |} in
  filteredCookies (apply_filters (P := binary_platform) 0 st) = [b; c; a]
  /\ filteredCookies
       (apply_filters (P := binary_platform) 0
          (setSortField f_expirationDate
             (apply_filters (P := binary_platform) 0 st)))
     = [a; c; b].
Proof.
  intros a b c st.
  assert (Hall : Forall (has_field_value (sortField st)) (cookies st))
    by (repeat constructor; discriminate).
  assert (Hdistinct : distinct_field_values (sortField st) (cookies st))
    by (repeat constructor; simpl; intros H; discriminate H).
  destruct (@sort_asc_desc_reversed binary_platform 0 st eq_refl Hall
              Hdistinct) as (_ & _ & H).
  split; [reflexivity|].
  etransitivity; [exact H|reflexivity].
Defined.

(** As the specification words it, C6 fails when a cookie lacks the sort
    field: a session cookie and a dated cookie have no equal value of
    [expirationDate], yet the comparator returns 0 for them either way,
    so both directions leave the two in the order they came in. *)
Lemma missing_date_not_reversed :
  let s := cookie "s" "1" "x.com" "/" in
  let d := expiring "d" "x.com" 10 in
  distinct_field_values f_expirationDate [s; d]
  /\ sort (compare_cookies f_expirationDate asc) [s; d] = [s; d]
  /\ sort (compare_cookies f_expirationDate desc) [s; d] = [s; d]
  /\ sort (compare_cookies f_expirationDate desc) [s; d]
     <> rev (sort (compare_cookies f_expirationDate asc) [s; d]).
Proof.
  intros s d. split; [|split; [|split]].
  - repeat constructor. simpl. tauto.
  - reflexivity.
  - reflexivity.
  - discriminate.
Qed.

(** ** C7: [getAllEntries] *)

Lemma binary_collation : Collation binary_platform.
Proof.
  split; simpl.
  - intros a b. unfold default_compare. rewrite (str_compare_antisym a b).
    destruct (str_compare a b); simpl; lia.
  - apply default_compare_trans.
Qed.

Lemma update_page_same (ps : list (Z * Page)) (i : Z) (p : Page) :
  page_of ps i = Some p -> update_page ps i p = ps.
Proof.
  induction ps as [|[j q] ps IH]; simpl; auto.
  destruct (Z.eqb j i); [now intros [= ->]|].
  intros H. now rewrite IH.
Qed.

Lemma executeScript_read {R} (i : Z) (f : Page -> R) (b : Browser)
  (page : Page) :
  page_of (pages b) i = Some page ->
  executeScript i (fun p => (f p, p)) b
  = (Some (f page), record_call (scripting_executeScript i) b).
Proof.
  intros H. unfold executeScript. simpl. rewrite H.
  now rewrite (update_page_same H).
Qed.

Lemma flat_map_indices {A B} (g : A -> list B) (s : list A) :
  flat_map (fun i => match nth_error s i with
                     | Some p => g p
                     | None => []
                     end) (seq 0 (List.length s))
  = flat_map g s.
Proof.
  induction s as [|a s IH]; simpl; auto.
  f_equal. rewrite <- seq_shift, flat_map_concat_map, map_map.
  rewrite <- flat_map_concat_map. exact IH.
Qed.

Lemma flat_map_singleton {A B} (f : A -> B) (l : list A) :
  flat_map (fun x => [f x]) l = map f l.
Proof. induction l; simpl; congruence. Qed.

Lemma getItem_In (s : Storage) (k v : jsstring) :
  NoDup (map fst s) -> In (k, v) s -> getItem s k = Some v.
Proof.
  induction s as [|[k' v'] s IH]; simpl; [tauto|].
  intros Hnd [[= -> ->]|Hin].
  - now rewrite str_eqb_refl.
  - inversion_clear Hnd as [|? ? Hnotin Hnd'].
    destruct (str_eqb k' k) eqn:E; [|auto].
    apply str_eqb_eq in E. subst k'.
    destruct Hnotin. change k with (fst (k, v)). now apply in_map.
Qed.

Lemma or_empty_some (v : jsstring) : or_empty (Some v) = v.
Proof. now destruct v. Qed.

Lemma read_entries_unsorted (s : Storage) :
  NoDup (map fst s) ->
  flat_map (fun i =>
              match Storage_key s i with
              | Some k => [{| key := k; value := or_empty (getItem s k) |}]
              | None => []
              end)
           (seq 0 (List.length s))
  = map entry_of s.
Proof.
  intros Hnd. unfold Storage_key.
  rewrite (flat_map_ext _
             (fun i => match nth_error s i with
                       | Some p => [{| key := fst p;
                                       value := or_empty (getItem s (fst p)) |}]
                       | None => []
                       end))
    by (intros i; now destruct (nth_error s i)).
  rewrite (flat_map_indices
             (fun p => [{| key := fst p;
                           value := or_empty (getItem s (fst p)) |}])).
  rewrite flat_map_singleton.
  apply map_ext_in. intros [k v] Hin. unfold entry_of; simpl.
  now rewrite (getItem_In Hnd Hin), or_empty_some.
Qed.

(** C7. On an active tab whose page can be scripted, [getAllEntries]
    resolves with the key/value entries of the chosen storage area,
    each once, in ascending order of their keys under the locale's
    collation, and changes no page; on [{b: "2", a: "1"}] the result
    is [a] then [b]. *)
Theorem getAllEntries_sorted {P : Platform} {C : Collation P}
  (t : StorageType) (b : Browser) (i : Z) (page : Page) :
  first_tab_id (active_tabs b) = Some i ->
  page_of (pages b) i = Some page ->
  NoDup (map fst (storage_of t page)) ->
  exists es b',
    getAllEntries t b = (Resolved es, b')
    /\ pages b' = pages b
    /\ Permutation es (map entry_of (storage_of t page))
    /\ StronglySorted
         (fun x y => (localeCompare (key x) (key y) <= 0)%Z) es
    /\ (storage_of t page = [(lit "b", lit "2"); (lit "a", lit "1")] ->
        (localeCompare (lit "a") (lit "b") < 0)%Z ->
        es = [{| key := lit "a"; value := lit "1" |};
              {| key := lit "b"; value := lit "2" |}]).
Proof.
  intros Htab Hpage Hnd.
  exists (read_entries (storage_of t page)),
         (record_call (scripting_executeScript i) (record_call tabs_query b)).
  split.
  { unfold getAllEntries, query_tabs. rewrite Htab.
    now rewrite (executeScript_read
                   (fun p => read_entries (storage_of t p))
                   (b := record_call tabs_query b) Hpage). }
  split; [reflexivity|].
  unfold read_entries. rewrite (read_entries_unsorted Hnd).
  split; [apply sort_perm|]. split.
  - apply (sort_sorted (cmp := fun a b => localeCompare (key a) (key b))).
    + intros x y _ _ Hgt. unfold precedes.
      apply localeCompare_antisym in Hgt. lia.
    + intros x y z _ _ _. unfold precedes. apply localeCompare_trans.
  - intros -> Hab. simpl.
    apply localeCompare_antisym in Hab.
    destruct (Z.leb_spec (localeCompare (lit "b") (lit "a")) 0); [lia|].
    reflexivity.
Qed.

Lemma getAllEntries_sorted_witness :
  let page := {| localStorage := [(lit "b", lit "2"); (lit "a", lit "1")];
                 sessionStorage := [] |} in
  let b := {| active_tabs := [{| tab_id := Some 1%Z |}];
              pages := [(1%Z, page)]; calls := [] |} in
  fst (getAllEntries (P := binary_platform) local b)
  = Resolved [{| key := lit "a"; value := lit "1" |};
              {| key := lit "b"; value := lit "2" |}].
Proof.
  intros page b.
  assert (Hnd : NoDup (map fst (storage_of local page)))
    by (repeat constructor; simpl; intuition discriminate).
  destruct (@getAllEntries_sorted binary_platform binary_collation local b
              1%Z page eq_refl eq_refl Hnd)
    as (es & b' & Hget & _ & _ & _ & Hex).
  rewrite Hget. simpl. f_equal. apply Hex; reflexivity.
Defined.

(** ** JSON: parsing what [JSON.stringify] wrote *)

Lemma hex_value_digit (d : N) :
  (d < 16)%N -> hex_value (hex_digit d) = Some d.
Proof.
  intros H.
  assert (Hd : (d = 0 \/ d = 1 \/ d = 2 \/ d = 3 \/ d = 4 \/ d = 5 \/ d = 6
                \/ d = 7 \/ d = 8 \/ d = 9 \/ d = 10 \/ d = 11 \/ d = 12
                \/ d = 13 \/ d = 14 \/ d = 15)%N) by lia.
  repeat (destruct Hd as [->|Hd]; [reflexivity|]). now subst d.
Qed.

Lemma hex4_digits (c : N) :
  (c < 65536)%N ->
  ((((c / 4096) mod 16 * 16 + (c / 256) mod 16) * 16 + (c / 16) mod 16) * 16
   + c mod 16 = c)%N.
Proof.
  intros H. zify. Z.to_euclidean_division_equations. lia.
Qed.

Lemma parse_chars_unicode_escape (c : code_unit) (s : jsstring) :
  (c < 65536)%N ->
  parse_chars (unicode_escape c ++ s) = cons_char c (parse_chars s).
Proof.
  intros H. unfold unicode_escape. cbn [app parse_chars].
  change (N.eqb 92 34) with false. change (N.eqb 92 92) with true.
  change (N.eqb 117 117) with true. cbv iota.
  unfold hex4.
  rewrite !hex_value_digit by (apply N.mod_lt; discriminate).
  now rewrite hex4_digits.
Qed.

Lemma parse_chars_literal (c : code_unit) (s : jsstring) :
  c <> 34%N -> c <> 92%N -> (32 <= c)%N ->
  parse_chars (c :: s) = cons_char c (parse_chars s).
Proof.
  intros H1 H2 H3. cbn [parse_chars].
  apply N.eqb_neq in H1, H2. rewrite H1, H2.
  apply N.ltb_ge in H3. now rewrite H3.
Qed.

Lemma parse_chars_quote_unit (c : code_unit) (s : jsstring) :
  (c < 55296 \/ 57343 < c)%N ->
  parse_chars (quote_unit c ++ s) = cons_char c (parse_chars s).
Proof.
  intros Hc. unfold quote_unit.
  repeat match goal with
         | |- context [N.eqb c ?k] =>
             destruct (N.eqb_spec c k) as [->|?]; [reflexivity|]
         end.
  destruct (N.ltb_spec c 32).
  - apply parse_chars_unicode_escape. lia.
  - now apply parse_chars_literal.
Qed.

Lemma surrogate_bounds (c : code_unit) :
  (is_high_surrogate c = true <-> (55296 <= c <= 56319)%N)
  /\ (is_low_surrogate c = true <-> (56320 <= c <= 57343)%N).
Proof.
  unfold is_high_surrogate, is_low_surrogate.
  rewrite !andb_true_iff, !N.leb_le. tauto.
Qed.

Lemma parse_chars_quote_chars (s rest : jsstring) :
  parse_chars (quote_chars s ++ dquote :: rest) = Some (s, rest).
Proof.
  remember (List.length s) as n eqn:Hn.
  assert (Hle : (List.length s <= n)%nat) by lia. clear Hn.
  revert s Hle. induction n as [|n IH]; intros [|c r] Hle;
    try reflexivity; simpl in Hle; try lia.
  cbn [quote_chars].
  destruct (surrogate_bounds c) as [Hhi Hlo].
  destruct (is_high_surrogate c) eqn:Eh.
  - assert (Hc : (55296 <= c <= 56319)%N) by now apply Hhi.
    destruct r as [|d r'].
    + rewrite parse_chars_unicode_escape by lia. reflexivity.
    + destruct (surrogate_bounds d) as [_ Hlo'].
      destruct (is_low_surrogate d) eqn:El.
      * assert (Hd : (56320 <= d <= 57343)%N) by now apply Hlo'.
        cbn [app]. rewrite !parse_chars_literal by lia.
        rewrite IH by (simpl in Hle; lia). reflexivity.
      * rewrite <- app_assoc, parse_chars_unicode_escape by lia.
        rewrite IH by lia. reflexivity.
  - destruct (is_low_surrogate c) eqn:El.
    + assert (Hc : (56320 <= c <= 57343)%N) by now apply Hlo.
      rewrite <- app_assoc, parse_chars_unicode_escape by lia.
      rewrite IH by lia. reflexivity.
    + rewrite <- app_assoc, parse_chars_quote_unit.
      * rewrite IH by lia. reflexivity.
      * destruct (N.lt_ge_cases c 55296) as [?|H1]; [lia|].
        destruct (N.lt_ge_cases 57343 c) as [?|H2]; [lia|].
        destruct (N.le_gt_cases c 56319) as [H3|H3].
        -- assert (false = true) by (apply Hhi; lia). discriminate.
        -- assert (false = true) by (apply Hlo; lia). discriminate.
Qed.

Lemma member_text (p : jsstring * jsstring) (tail : jsstring) :
  member p ++ tail
  = 32%N :: 32%N :: 34%N :: quote_chars (fst p)
    ++ 34%N :: 58%N :: 32%N :: 34%N :: quote_chars (snd p)
    ++ 34%N :: tail.
Proof.
  unfold member, quote, dquote. cbn [lit list_ascii_of_string map app].
  repeat (rewrite <- app_assoc; cbn [app]). reflexivity.
Qed.

Lemma parse_chars_quoted (s rest : jsstring) :
  parse_chars (quote_chars s ++ 34%N :: rest) = Some (s, rest).
Proof. apply parse_chars_quote_chars. Qed.

Lemma parse_value_reads_strings (fuel : nat) :
  reads_strings (parse_value (S fuel)).
Proof.
  intros s rest. cbn. now rewrite parse_chars_quoted.
Qed.

Lemma members_text_cons (q : jsstring * jsstring)
  (ps : list (jsstring * jsstring)) (tail : jsstring) :
  members_text (q :: ps) ++ tail
  = 44%N :: 10%N :: member q ++ members_text ps ++ tail.
Proof.
  unfold members_text. cbn [flat_map app].
  now rewrite <- !app_assoc.
Qed.

Lemma parse_members_text (pv : jsstring -> option (JsValue * jsstring))
  (ps : list (jsstring * jsstring)) :
  reads_strings pv ->
  forall (p : jsstring * jsstring) (acc : list (jsstring * JsValue))
         (n : nat) (rest : jsstring),
    (List.length ps < n)%nat ->
    parse_members pv n
      (10%N :: member p ++ members_text ps ++ 10%N :: 125%N :: rest) acc
    = Some (JObject (define_all acc (p :: ps)), rest).
Proof.
  intros Hpv. induction ps as [|q ps IH]; intros p acc n rest Hn;
    (destruct n as [|n]; [simpl in Hn; lia|]);
    rewrite member_text;
    remember (members_text _ ++ _) as tail eqn:Htail;
    cbn; rewrite parse_chars_quoted; cbn; rewrite Hpv; subst tail.
  - cbn. reflexivity.
  - rewrite members_text_cons.
    remember (member q ++ _) as tail eqn:Htail.
    cbn. subst tail.
    rewrite IH by (simpl in Hn; lia). reflexivity.
Qed.

Lemma parse_value_brace (f : nat) (r r' : jsstring) (c : code_unit) :
  skip_ws r = c :: r' -> c <> 125%N ->
  parse_value (S f) (123%N :: r)
  = parse_members (parse_value f) (List.length r) r [].
Proof.
  intros Hr Hc. cbn [parse_value].
  change (skip_ws (123%N :: r)) with (123%N :: r). cbv iota.
  change (N.eqb 123 123) with true. cbv iota.
  rewrite Hr. apply N.eqb_neq in Hc. now rewrite Hc.
Qed.

Lemma members_text_length (ps : list (jsstring * jsstring)) :
  (List.length ps <= List.length (members_text ps))%nat.
Proof.
  induction ps as [|q ps IH]; [simpl; lia|].
  change (members_text (q :: ps))
    with (([44%N; 10%N] ++ member q) ++ members_text ps).
  rewrite !length_app. cbn [List.length].
  unfold jsstring, code_unit in *. lia.
Qed.

(** [JSON.parse] reads back the text [JSON.stringify] writes for a
    record of strings: an object with the same properties, created in
    the order in which they were written. *)
Lemma JSON_parse_stringify (o : list (jsstring * jsstring)) :
  JSON_parse (JSON_stringify o)
  = Some (JObject (define_all [] (own_property_order o))).
Proof.
  unfold JSON_stringify.
  destruct (own_property_order o) as [|p ps]; [reflexivity|].
  fold (members_text ps).
  change (lit "{" ++ [10%N] ++ member p ++ members_text ps
          ++ [10%N] ++ lit "}")
    with (123%N :: 10%N :: member p ++ members_text ps
          ++ 10%N :: 125%N :: []).
  unfold JSON_parse.
  remember (10%N :: member p ++ members_text ps ++ 10%N :: 125%N :: [])
    as r eqn:Hr.
  cbn [List.length].
  assert (Hskip : exists r', skip_ws r = 34%N :: r').
  { subst r. rewrite member_text. eexists. reflexivity. }
  destruct Hskip as [r' Hskip].
  rewrite (parse_value_brace _ Hskip) by discriminate.
  assert (Hlen : (List.length ps < List.length r)%nat).
  { subst r. cbn [List.length]. rewrite !length_app.
    pose proof (members_text_length ps).
    unfold jsstring, code_unit in *. lia. }
  subst r.
  rewrite (parse_members_text (parse_value_reads_strings _) p [] [] Hlen).
  reflexivity.
Qed.

(** ** C5: export, then import *)

Lemma define_property_In {V} (o : list (jsstring * V)) (k k' : jsstring)
  (v x : V) :
  In (k', x) (define_property o k v) -> (k' = k /\ x = v) \/ In (k', x) o.
Proof.
  induction o as [|[k0 v0] o IH]; simpl.
  - intros [[= <- <-]|[]]; auto.
  - destruct (str_eqb k0 k) eqn:E; simpl.
    + apply str_eqb_eq in E. subst k0.
      intros [[= <- <-]|H]; auto.
    + intros [H|H]; auto. destruct (IH H); auto.
Qed.

Lemma define_all_In (ps : list (jsstring * jsstring))
  (acc : list (jsstring * JsValue)) (k : jsstring) (jv : JsValue) :
  In (k, jv) (define_all acc ps) ->
  In (k, jv) acc \/ exists v, jv = JString v /\ In (k, v) ps.
Proof.
  revert acc; induction ps as [|[k0 v0] ps IH]; simpl; intros acc H; auto.
  destruct (IH _ H) as [H'|(v & -> & Hin)]; [|right; eauto].
  destruct (define_property_In H') as [[-> ->]|]; auto.
  right; eauto.
Qed.

Lemma own_property_order_In {V} (o : list (jsstring * V))
  (x : jsstring * V) :
  In x (own_property_order o) <-> In x o.
Proof.
  unfold own_property_order. rewrite in_app_iff, in_map_iff, filter_In.
  split.
  - intros [([n y] & <- & H)|[H _]]; [|exact H].
    apply sort_In_inv in H. apply in_flat_map in H.
    destruct H as (p & Hp & H).
    destruct (array_index (fst p)); [|destruct H].
    destruct H as [[= _ <-]|[]]. exact Hp.
  - intros H. unfold is_index.
    destruct (array_index (fst x)) as [n|] eqn:E; [left|right; auto].
    exists (n, x). split; [reflexivity|].
    apply sort_In. apply in_flat_map. exists x. split; [exact H|].
    rewrite E. simpl; auto.
Qed.

Lemma to_record_In (es : list StorageEntry) (k v : jsstring) :
  In (k, v) (to_record es) ->
  exists e, In e es /\ key e = k /\ StorageService.value e = v.
Proof.
  unfold to_record.
  assert (H : forall acc,
             In (k, v)
                (fold_left (fun acc entry =>
                              assign acc (key entry)
                                     (StorageService.value entry)) es acc) ->
             In (k, v) acc
             \/ exists e, In e es /\ key e = k /\ StorageService.value e = v).
  { induction es as [|e es IH]; simpl; intros acc Hin; auto.
    destruct (IH _ Hin) as [H'|(e' & He' & Hk)]; [|right; eauto].
    unfold assign in H'. destruct (str_eqb (key e) proto_key); auto.
    destruct (define_property_In H') as [[-> ->]|]; auto.
    right; eauto. }
  intros Hin. destruct (H [] Hin) as [[]|]; auto.
Qed.

Lemma getItem_key (s : Storage) (k : jsstring) :
  In k (map fst s) -> exists v, getItem s k = Some v.
Proof.
  induction s as [|[k' v'] s IH]; simpl; [tauto|].
  destruct (str_eqb k' k) eqn:E; [eauto|].
  intros [->|H]; auto. now rewrite str_eqb_refl in E.
Qed.

Lemma read_entries_In {P : Platform} (s : Storage) (e : StorageEntry) :
  In e (read_entries s) -> getItem s (key e) = Some (StorageService.value e).
Proof.
  unfold read_entries. intros H. apply sort_In_inv in H.
  apply in_flat_map in H. destruct H as (i & _ & H).
  unfold Storage_key in H.
  destruct (nth_error s i) as [p|] eqn:E; simpl in H; [|destruct H].
  destruct H as [<-|[]]. simpl.
  destruct (@getItem_key s (fst p)) as [v Hv].
  { apply in_map. eapply nth_error_In; eauto. }
  now rewrite Hv, or_empty_some.
Qed.

Lemma setItem_same (s : Storage) (k v : jsstring) :
  getItem s k = Some v -> setItem s k v = s.
Proof.
  induction s as [|[k' v'] s IH]; simpl; [discriminate|].
  destruct (str_eqb k' k); [now intros [= ->]|].
  intros H. now rewrite IH.
Qed.

Lemma with_storage_same (t : StorageType) (page : Page) :
  with_storage t page (storage_of t page) = page.
Proof. now destruct t, page. Qed.

Lemma setEntry_same (t : StorageType) (k v : jsstring) (b : Browser)
  (i : Z) (page : Page) :
  first_tab_id (active_tabs b) = Some i ->
  page_of (pages b) i = Some page ->
  getItem (storage_of t page) k = Some v ->
  setEntry t k v b
  = (Resolved tt,
     record_call (scripting_executeScript i) (record_call tabs_query b)).
Proof.
  intros Htab Hpage Hget. unfold setEntry, query_tabs. rewrite Htab.
  unfold executeScript. cbn [pages record_call]. rewrite Hpage.
  cbv zeta. rewrite (setItem_same Hget), with_storage_same.
  now rewrite (update_page_same Hpage).
Qed.

(** Where [String] converts every value, the loop of [importEntries] is
    a loop of writes. *)
Lemma import_entries_strings {P : Platform} (t : StorageType)
  (es : list (jsstring * JsValue)) (b : Browser) :
  Forall (fun kv => converts (snd kv) = true) es ->
  for_of es (fun kv => match to_string (snd kv) with
                       | Some s => setEntry t (fst kv) s
                       | None => throw type_error
                       end) b
  = for_of es (fun kv => setEntry t (fst kv) (string_of (snd kv))) b.
Proof.
  intros Hall. revert b. induction Hall as [|kv es Hkv _ IH]; intros b.
  - reflexivity.
  - cbn [for_of]. unfold bind. unfold converts, string_of in *.
    destruct (to_string (snd kv)) as [s|]; [|discriminate].
    destruct (setEntry t (fst kv) s b) as [[[]|e] b1]; [apply IH|reflexivity].
Qed.

Lemma strings_convert {P : Platform} (ps : list (jsstring * jsstring)) :
  Forall (fun kv : jsstring * JsValue => converts (snd kv) = true)
         (own_property_order (define_all [] ps)).
Proof.
  apply Forall_forall. intros [k jv] Hin.
  apply (proj1 (own_property_order_In _ _)) in Hin.
  apply define_all_In in Hin. destruct Hin as [[]|(v & -> & _)].
  reflexivity.
Qed.

Lemma write_back_loop {P : Platform} (t : StorageType)
  (W : list (jsstring * JsValue)) (b : Browser) (i : Z) (page : Page) :
  first_tab_id (active_tabs b) = Some i ->
  page_of (pages b) i = Some page ->
  (forall kv, In kv W ->
              getItem (storage_of t page) (fst kv) = Some (string_of (snd kv))) ->
  exists b',
    for_of W (fun kv => setEntry t (fst kv) (string_of (snd kv))) b
    = (Resolved tt, b')
    /\ pages b' = pages b /\ active_tabs b' = active_tabs b.
Proof.
  revert b; induction W as [|kv W IH]; intros b Htab Hpage Hall.
  - exists b. repeat split.
  - cbn [for_of].
    rewrite (bind_resolved _
               (setEntry_same Htab Hpage (Hall kv (or_introl eq_refl)))).
    destruct (IH (record_call (scripting_executeScript i)
                    (record_call tabs_query b)))
      as (b' & Hrun & Hp & Ht); auto.
    { intros kv' Hin. apply Hall. now right. }
    exists b'. repeat split; assumption.
Qed.

(** What [getAllEntries] resolves with: the entries read from the page
    of the active tab, or nothing. *)
Lemma getAllEntries_cases {P : Platform} (t : StorageType) (b : Browser) :
  exists es b',
    getAllEntries t b = (Resolved es, b')
    /\ pages b' = pages b /\ active_tabs b' = active_tabs b
    /\ (es = []
        \/ exists i page,
             first_tab_id (active_tabs b) = Some i
             /\ page_of (pages b) i = Some page
             /\ es = read_entries (storage_of t page)).
Proof.
  unfold getAllEntries, query_tabs.
  destruct (first_tab_id (active_tabs b)) as [i|] eqn:Htab.
  - destruct (page_of (pages b) i) as [page|] eqn:Hpage.
    + rewrite (executeScript_read
                 (fun p => read_entries (storage_of t p))
                 (b := record_call tabs_query b) Hpage).
      do 2 eexists. repeat split. right. eauto.
    + rewrite executeScript_unreachable by exact Hpage.
      do 2 eexists. repeat split. now left.
  - do 2 eexists. repeat split. now left.
Qed.

(** Exporting a storage area and importing the text back into the same
    area, with nothing else touching the page in between, succeeds and
    leaves every page as it was. *)
Lemma export_import_same_area {P : Platform} (t : StorageType)
  (b : Browser) :
  exists json b1 b2,
    exportEntries t b = (Resolved json, b1)
    /\ importEntries t json b1 = (Resolved tt, b2)
    /\ pages b2 = pages b
    /\ active_tabs b2 = active_tabs b.
Proof.
  destruct (getAllEntries_cases t b) as (es & b1 & Hget & Hp1 & Ht1 & Hes).
  exists (JSON_stringify (to_record es)), b1.
  unfold exportEntries. rewrite (bind_resolved _ Hget).
  unfold importEntries, try_catch. rewrite JSON_parse_stringify.
  cbn [Object_entries]. rewrite import_entries_strings by apply strings_convert.
  set (W := own_property_order
              (define_all [] (own_property_order (to_record es)))).
  destruct Hes as [->|(i & page & Htab & Hpage & ->)].
  - exists b1. repeat split; auto.
  - destruct (@write_back_loop P t W b1 i page) as (b2 & Hrun & Hp2 & Ht2).
    + now rewrite Ht1.
    + now rewrite Hp1.
    + intros [k jv] Hin. unfold W in Hin.
      apply (proj1 (own_property_order_In _ _)) in Hin.
      apply define_all_In in Hin. destruct Hin as [[]|(v & -> & Hin)].
      apply (proj1 (own_property_order_In _ _)) in Hin.
      apply to_record_In in Hin. destruct Hin as (e & He & <- & <-).
      exact (read_entries_In He).
    + exists b2. rewrite Hrun. repeat split; congruence.
Qed.

Example export_import_on_a_page :
  let page := {| localStorage := [(lit "b", lit "2"); (lit "10", lit "x");
                                  (lit "a", qlit "say 'hi'")];
                 sessionStorage := [(lit "s", lit "1")] |} in
  let b := {| active_tabs := [{| tab_id := Some 1%Z |}];
              pages := [(1%Z, page)]; calls := [] |} in
  fst (exportEntries (P := binary_platform) local b)
  = Resolved (lit "{" ++ [10%N] ++ qlit "  '10': 'x'," ++ [10%N]
              ++ qlit "  'a': 'say \'hi\''," ++ [10%N]
              ++ qlit "  'b': '2'" ++ [10%N] ++ lit "}")
  /\ (forall json b1,
         exportEntries (P := binary_platform) local b = (Resolved json, b1) ->
         fst (importEntries (P := binary_platform) local json b1) = Resolved tt
         /\ pages (snd (importEntries (P := binary_platform) local json b1))
            = [(1%Z, page)]).
Proof.
  intros page b. split; [reflexivity|].
  intros json b1 [= <- <-]. split; reflexivity.
Qed.

(** ** Importing an export into another storage area *)

Lemma get_property_In {V} (o : list (jsstring * V)) (k : jsstring) (v : V) :
  NoDup (map fst o) -> (get_property o k = Some v <-> In (k, v) o).
Proof.
  induction o as [|[k' v'] o IH]; simpl; intros Hnd.
  - split; [discriminate|tauto].
  - inversion_clear Hnd as [|? ? Hnotin Hnd'].
    destruct (str_eqb k' k) eqn:E.
    + apply str_eqb_eq in E. subst k'. split.
      * intros [= ->]. now left.
      * intros [[= ->]|Hin]; [reflexivity|].
        destruct Hnotin. change k with (fst (k, v)). now apply in_map.
    + rewrite (IH Hnd'). split; [tauto|].
      intros [[= -> _]|Hin]; [|exact Hin].
      now rewrite str_eqb_refl in E.
Qed.

Lemma get_property_None {V} (o : list (jsstring * V)) (k : jsstring) :
  get_property o k = None <-> ~ In k (map fst o).
Proof.
  induction o as [|[k' v'] o IH]; simpl; [tauto|].
  destruct (str_eqb k' k) eqn:E.
  - apply str_eqb_eq in E. split; [discriminate|tauto].
  - apply str_eqb_neq in E. rewrite IH. tauto.
Qed.

Lemma get_property_perm {V} (o o' : list (jsstring * V)) (k : jsstring) :
  NoDup (map fst o) -> Permutation o o' ->
  get_property o' k = get_property o k.
Proof.
  intros Hnd Hp.
  assert (Hnd' : NoDup (map fst o'))
    by (eapply Permutation_NoDup; [apply Permutation_map; exact Hp|exact Hnd]).
  destruct (get_property o k) as [v|] eqn:E.
  - apply (get_property_In _ _ Hnd'). apply (Permutation_in _ Hp).
    now apply (get_property_In _ _ Hnd).
  - apply get_property_None. apply get_property_None in E.
    intros Hin. apply E.
    apply (Permutation_in _ (Permutation_sym (Permutation_map fst Hp)) Hin).
Qed.

Lemma filter_split_perm {A} (p : A -> bool) (l : list A) :
  Permutation (filter p l ++ filter (fun x => negb (p x)) l) l.
Proof.
  induction l as [|x l IH]; simpl; [constructor|].
  destruct (p x); simpl.
  - now constructor.
  - apply Permutation_sym, Permutation_cons_app, Permutation_sym, IH.
Qed.

Lemma own_property_order_perm {V} (o : list (jsstring * V)) :
  Permutation (own_property_order o) o.
Proof.
  unfold own_property_order.
  eapply Permutation_trans; [|apply (filter_split_perm is_index)].
  apply Permutation_app_tail.
  eapply Permutation_trans; [apply Permutation_map, sort_perm|].
  assert (H : map snd
                (flat_map (fun p : jsstring * V =>
                             match array_index (fst p) with
                             | Some n => [(n, p)]
                             | None => []
                             end) o)
              = filter is_index o).
  { induction o as [|x o IH]; simpl; auto. unfold is_index at 1.
    destruct (array_index (fst x)); simpl; now rewrite IH. }
  now rewrite H.
Qed.

Lemma str_eqb_sym (a b : jsstring) : str_eqb a b = str_eqb b a.
Proof.
  destruct (str_eqb a b) eqn:E; symmetry.
  - apply str_eqb_eq. symmetry. now apply str_eqb_eq.
  - apply str_eqb_neq. apply str_eqb_neq in E. congruence.
Qed.

Lemma define_property_keys {V} (o : list (jsstring * V)) (k : jsstring)
  (v : V) :
  map fst (define_property o k v)
  = if mem k (map fst o) then map fst o else map fst o ++ [k].
Proof.
  induction o as [|[k' v'] o IH]; simpl; auto.
  rewrite (str_eqb_sym k k').
  destruct (str_eqb k' k); simpl; auto.
  rewrite IH. now destruct (mem k (map fst o)).
Qed.

Lemma define_property_NoDup {V} (o : list (jsstring * V)) (k : jsstring)
  (v : V) :
  NoDup (map fst o) -> NoDup (map fst (define_property o k v)).
Proof.
  intros Hnd. rewrite define_property_keys.
  destruct (mem k (map fst o)) eqn:E; [exact Hnd|].
  apply NoDup_app; auto.
  - repeat constructor. simpl; tauto.
  - intros x Hx [<-|[]]. apply mem_In in Hx. congruence.
Qed.

Lemma get_property_define {V} (o : list (jsstring * V)) (k k' : jsstring)
  (v : V) :
  get_property (define_property o k v) k'
  = if str_eqb k k' then Some v else get_property o k'.
Proof.
  induction o as [|[k0 v0] o IH]; simpl; auto.
  destruct (str_eqb k0 k) eqn:E; simpl.
  - apply str_eqb_eq in E. subst k0. now destruct (str_eqb k k').
  - rewrite IH. destruct (str_eqb k0 k') eqn:E'; auto.
    apply str_eqb_eq in E'. subst k0. now rewrite (str_eqb_sym k k'), E.
Qed.

(** Writing the pairs of [ps], whose keys differ, one after the other
    with [write]: afterwards a key of [ps] has its value from [ps], any
    other key the one it had. *)
Lemma get_property_fold {V X} (write : list (jsstring * V) -> X -> list (jsstring * V))
  (kx : X -> jsstring) (vx : X -> V) (ps : list X) :
  (forall o x k, get_property (write o x) k
                 = if str_eqb (kx x) k then Some (vx x) else get_property o k) ->
  NoDup (map kx ps) ->
  forall acc k,
    get_property (fold_left write ps acc) k
    = match get_property (map (fun x => (kx x, vx x)) ps) k with
      | Some v => Some v
      | None => get_property acc k
      end.
Proof.
  intros Hw. induction ps as [|x ps IH]; simpl; intros Hnd acc k; auto.
  inversion_clear Hnd as [|? ? Hnotin Hnd'].
  rewrite (IH Hnd'), Hw.
  destruct (str_eqb (kx x) k) eqn:E; auto.
  apply str_eqb_eq in E. subst k.
  assert (Hnone : get_property (map (fun x => (kx x, vx x)) ps) (kx x) = None).
  { apply get_property_None. now rewrite map_map. }
  now rewrite Hnone.
Qed.

Lemma fold_write_NoDup {V X} (write : list (jsstring * V) -> X -> list (jsstring * V))
  (ps : list X) (acc : list (jsstring * V)) :
  (forall o x, NoDup (map fst o) -> NoDup (map fst (write o x))) ->
  NoDup (map fst acc) -> NoDup (map fst (fold_left write ps acc)).
Proof.
  intros Hw. revert acc; induction ps as [|x ps IH]; simpl; auto.
Qed.

Lemma define_all_NoDup (ps : list (jsstring * jsstring)) :
  NoDup (map fst (define_all [] ps)).
Proof.
  apply fold_write_NoDup; [|constructor].
  intros o x. apply define_property_NoDup.
Qed.

Lemma get_property_define_all (ps : list (jsstring * jsstring))
  (k : jsstring) :
  NoDup (map fst ps) ->
  get_property (define_all [] ps) k
  = option_map JString (get_property ps k).
Proof.
  intros Hnd. unfold define_all.
  rewrite (get_property_fold (kx := fst) (vx := fun q => JString (snd q)))
    by (auto using get_property_define).
  clear Hnd. induction ps as [|[k' v'] ps IH]; simpl; auto.
  destruct (str_eqb k' k); auto.
Qed.

Lemma to_record_NoDup (es : list StorageEntry) :
  NoDup (map fst (to_record es)).
Proof.
  apply fold_write_NoDup; [|constructor].
  intros o x Hnd. unfold assign.
  destruct (str_eqb (key x) proto_key); auto using define_property_NoDup.
Qed.

Lemma to_record_filter (es : list StorageEntry)
  (acc : list (jsstring * jsstring)) :
  fold_left (fun acc entry =>
               assign acc (key entry) (StorageService.value entry)) es acc
  = fold_left (fun acc entry =>
                 define_property acc (key entry) (StorageService.value entry))
              (filter (fun e => negb (str_eqb (key e) proto_key)) es) acc.
Proof.
  revert acc. induction es as [|e es IH]; simpl; auto.
  intros acc. unfold assign at 2.
  destruct (str_eqb (key e) proto_key); simpl; auto.
Qed.

Lemma get_property_without_proto (es : list StorageEntry) (k : jsstring) :
  get_property
    (map (fun e => (key e, StorageService.value e))
         (filter (fun e => negb (str_eqb (key e) proto_key)) es)) k
  = if str_eqb k proto_key then None
    else get_property (map (fun e => (key e, StorageService.value e)) es) k.
Proof.
  induction es as [|e es IH]; simpl; [now destruct str_eqb|].
  destruct (str_eqb (key e) proto_key) eqn:Ep; simpl; rewrite IH.
  - destruct (str_eqb (key e) k) eqn:E; auto.
    apply str_eqb_eq in E. subst k. now rewrite Ep.
  - destruct (str_eqb (key e) k) eqn:E; auto.
    apply str_eqb_eq in E. subst k. now rewrite Ep.
Qed.

Lemma get_property_to_record (es : list StorageEntry) (k : jsstring) :
  NoDup (map key es) ->
  get_property (to_record es) k
  = if str_eqb k proto_key then None
    else get_property (map (fun e => (key e, StorageService.value e)) es) k.
Proof.
  intros Hnd. unfold to_record. rewrite to_record_filter.
  rewrite (get_property_fold (kx := key) (vx := StorageService.value)).
  - rewrite get_property_without_proto.
    destruct (str_eqb k proto_key); [reflexivity|].
    now destruct get_property.
  - intros o x k'. apply get_property_define.
  - clear k. induction es as [|e es IH]; simpl; [constructor|].
    inversion_clear Hnd as [|? ? Hnotin Hnd'].
    destruct (str_eqb (key e) proto_key); simpl; auto.
    constructor; auto. intros Hin. apply Hnotin.
    apply in_map_iff in Hin. destruct Hin as (x & <- & Hx).
    apply filter_In in Hx. now apply in_map.
Qed.

Lemma getItem_get_property (s : Storage) (k : jsstring) :
  getItem s k = get_property s k.
Proof. induction s as [|[k' v'] s IH]; simpl; now rewrite ?IH. Qed.

Lemma read_entries_pairs {P : Platform} (s : Storage) :
  NoDup (map fst s) ->
  Permutation s
    (map (fun e => (key e, StorageService.value e)) (read_entries s)).
Proof.
  intros Hnd. unfold read_entries. rewrite (read_entries_unsorted Hnd).
  eapply Permutation_trans;
    [|apply Permutation_map, Permutation_sym, sort_perm].
  rewrite map_map. unfold entry_of; simpl.
  rewrite (map_ext _ (fun p => p)) by (now intros []).
  now rewrite map_id.
Qed.

(** The record [exportEntries] serialises holds each key of the storage
    area with its value, except [__proto__]. *)
Lemma exported_record {P : Platform} (s : Storage) (k : jsstring) :
  NoDup (map fst s) ->
  get_property (to_record (read_entries s)) k
  = if str_eqb k proto_key then None else getItem s k.
Proof.
  intros Hnd. pose proof (read_entries_pairs Hnd) as Hp.
  rewrite get_property_to_record.
  - now rewrite (get_property_perm k Hnd Hp), getItem_get_property.
  - apply (Permutation_NoDup (Permutation_map fst Hp)) in Hnd.
    now rewrite map_map in Hnd.
Qed.

(** What [importEntries] writes for an exported record. *)
Lemma written_entries (o : list (jsstring * jsstring)) (k : jsstring) :
  NoDup (map fst o) ->
  NoDup (map fst (own_property_order
                    (define_all [] (own_property_order o))))
  /\ get_property
       (own_property_order (define_all [] (own_property_order o))) k
     = option_map JString (get_property o k).
Proof.
  intros Hnd.
  pose proof (own_property_order_perm o) as Hp1.
  pose proof (own_property_order_perm
                (define_all [] (own_property_order o))) as Hp2.
  assert (Hnd1 : NoDup (map fst (own_property_order o)))
    by (apply (Permutation_NoDup
                 (Permutation_map fst (Permutation_sym Hp1)) Hnd)).
  pose proof (define_all_NoDup (own_property_order o)) as Hnd2.
  split.
  - apply (Permutation_NoDup
             (Permutation_map fst (Permutation_sym Hp2)) Hnd2).
  - rewrite (get_property_perm k Hnd2 (Permutation_sym Hp2)).
    rewrite (get_property_define_all k Hnd1).
    now rewrite (get_property_perm k Hnd (Permutation_sym Hp1)).
Qed.

Lemma page_of_update (ps : list (Z * Page)) (i : Z) (p q : Page) :
  page_of ps i = Some q -> page_of (update_page ps i p) i = Some p.
Proof.
  induction ps as [|[j r] ps IH]; simpl; [discriminate|].
  destruct (Z.eqb j i) eqn:E; simpl; rewrite E; auto.
Qed.

Lemma storage_of_with_storage (t : StorageType) (page : Page) (s : Storage) :
  storage_of t (with_storage t page s) = s.
Proof. now destruct t. Qed.

Lemma with_storage_twice (t : StorageType) (page : Page) (s s' : Storage) :
  with_storage t (with_storage t page s) s' = with_storage t page s'.
Proof. now destruct t. Qed.

Lemma setEntry_writes (t : StorageType) (k v : jsstring) (b : Browser)
  (i : Z) (page : Page) :
  first_tab_id (active_tabs b) = Some i ->
  page_of (pages b) i = Some page ->
  exists b',
    setEntry t k v b = (Resolved tt, b')
    /\ active_tabs b' = active_tabs b
    /\ page_of (pages b') i
       = Some (with_storage t page (setItem (storage_of t page) k v)).
Proof.
  intros Htab Hpage. unfold setEntry, query_tabs. rewrite Htab.
  unfold executeScript. cbn [pages record_call]. rewrite Hpage.
  eexists. split; [reflexivity|]. split; [reflexivity|].
  cbn [pages]. exact (page_of_update _ Hpage).
Qed.

Lemma import_loop {P : Platform} (t : StorageType)
  (W : list (jsstring * JsValue)) (b : Browser) (i : Z) (page : Page) :
  first_tab_id (active_tabs b) = Some i ->
  page_of (pages b) i = Some page ->
  exists b',
    for_of W (fun kv => setEntry t (fst kv) (string_of (snd kv))) b
    = (Resolved tt, b')
    /\ active_tabs b' = active_tabs b
    /\ page_of (pages b') i
       = Some (with_storage t page
                 (fold_left (fun s kv => setItem s (fst kv) (string_of (snd kv)))
                            W (storage_of t page))).
Proof.
  revert b page; induction W as [|kv W IH]; intros b page Htab Hpage.
  - exists b. now rewrite with_storage_same.
  - cbn [for_of fold_left].
    destruct (setEntry_writes t (fst kv) (string_of (snd kv)) Htab Hpage)
      as (b1 & Hset & Ht1 & Hp1).
    rewrite (bind_resolved _ Hset).
    destruct (IH b1 _ (eq_trans (f_equal first_tab_id Ht1) Htab) Hp1)
      as (b' & Hrun & Ht & Hp).
    exists b'. split; [exact Hrun|]. split; [congruence|].
    now rewrite Hp, with_storage_twice, storage_of_with_storage.
Qed.

Lemma setItem_define (s : Storage) (k v : jsstring) :
  setItem s k v = define_property s k v.
Proof. induction s as [|[k' v'] s IH]; simpl; now rewrite ?IH. Qed.

Lemma get_property_map {V U} (f : V -> U) (o : list (jsstring * V))
  (k : jsstring) :
  get_property (map (fun x => (fst x, f (snd x))) o) k
  = option_map f (get_property o k).
Proof.
  induction o as [|[k' v'] o IH]; simpl; auto. now destruct str_eqb.
Qed.

(** Importing the text exported from one storage area into another
    resolves and leaves there every exported key with its original
    value, and every other key as the target had it.  All keys are
    exported but [__proto__], which a plain object does not take as a
    property. *)
Lemma export_then_import_elsewhere {P : Platform} (t : StorageType)
  (b b0 : Browser) (i i0 : Z) (page page0 : Page) :
  first_tab_id (active_tabs b) = Some i ->
  page_of (pages b) i = Some page ->
  NoDup (map fst (storage_of t page)) ->
  first_tab_id (active_tabs b0) = Some i0 ->
  page_of (pages b0) i0 = Some page0 ->
  exists json b1 b2 page2,
    exportEntries t b = (Resolved json, b1)
    /\ importEntries t json b0 = (Resolved tt, b2)
    /\ page_of (pages b2) i0 = Some page2
    /\ forall k,
         getItem (storage_of t page2) k
         = if str_eqb k proto_key then getItem (storage_of t page0) k
           else match getItem (storage_of t page) k with
                | Some v => Some v
                | None => getItem (storage_of t page0) k
                end.
Proof.
  intros Htab Hpage Hnd Htab0 Hpage0.
  set (s := storage_of t page) in *.
  set (o := to_record (read_entries s)).
  set (W := own_property_order (define_all [] (own_property_order o))).
  destruct (import_loop t W Htab0 Hpage0) as (b2 & Hrun & _ & Hp2).
  exists (JSON_stringify o),
         (record_call (scripting_executeScript i) (record_call tabs_query b)),
         b2.
  eexists. split; [|split; [|split; [exact Hp2|]]].
  - unfold exportEntries, getAllEntries, query_tabs, bind. rewrite Htab.
    now rewrite (executeScript_read
                   (fun p => read_entries (storage_of t p))
                   (b := record_call tabs_query b) Hpage).
  - unfold importEntries, try_catch. rewrite JSON_parse_stringify.
    cbn [Object_entries].
    rewrite import_entries_strings by apply strings_convert.
    fold W. now rewrite Hrun.
  - intros k. rewrite storage_of_with_storage.
    destruct (written_entries k (to_record_NoDup (read_entries s)))
      as [HndW HW].
    fold o in HW. fold W in HndW, HW.
    rewrite getItem_get_property.
    rewrite (get_property_fold
               (kx := fst) (vx := fun kv : jsstring * JsValue => string_of (snd kv)));
      [|intros; rewrite setItem_define; apply get_property_define|exact HndW].
    rewrite (get_property_map string_of), HW.
    unfold o. rewrite (exported_record k Hnd).
    rewrite <- !getItem_get_property.
    destruct (str_eqb k proto_key); [reflexivity|].
    now destruct (getItem s k).
Qed.

(** A storage area that holds the key [__proto__] is exported without
    it. *)
Lemma export_drops_proto :
  let page := {| localStorage := [(lit "__proto__", lit "x");
                                  (lit "b", lit "2")];
                 sessionStorage := [] |} in
  let b := {| active_tabs := [{| tab_id := Some 1%Z |}];
              pages := [(1%Z, page)]; calls := [] |} in
  fst (exportEntries (P := binary_platform) local b)
  = Resolved (lit "{" ++ [10%N] ++ qlit "  'b': '2'" ++ [10%N] ++ lit "}").
Proof. reflexivity. Qed.

(** Export and import are a round trip for every key but one named
    [__proto__].  With an active tab whose page can be scripted, the text [exportEntries] resolves with is a JSON object
    that holds each key of the storage area with its value, except
    [__proto__], and no page has changed.  Importing the text into the
    same area leaves every page as it was; importing it into an area of
    the same type on another page gives each exported key its value there
    and leaves the other keys of that area as they were, so that an empty
    area receives the original mapping without [__proto__]. *)
Theorem export_import_round_trip {P : Platform} (t : StorageType)
  (b b0 : Browser) (i i0 : Z) (page page0 : Page) :
  first_tab_id (active_tabs b) = Some i ->
  page_of (pages b) i = Some page ->
  distinct_keys (storage_of t page) ->
  first_tab_id (active_tabs b0) = Some i0 ->
  page_of (pages b0) i0 = Some page0 ->
  exists json b1 props,
    exportEntries t b = (Resolved json, b1)
    /\ pages b1 = pages b
    /\ JSON_parse json = Some (JObject props)
    /\ (forall k,
          get_property props k
          = if str_eqb k proto_key then None
            else option_map JString (getItem (storage_of t page) k))
    /\ (exists b2,
          importEntries t json b1 = (Resolved tt, b2)
          /\ pages b2 = pages b)
    /\ (exists b2 page2,
          importEntries t json b0 = (Resolved tt, b2)
          /\ page_of (pages b2) i0 = Some page2
          /\ (forall k,
                getItem (storage_of t page2) k
                = if str_eqb k proto_key then getItem (storage_of t page0) k
                  else match getItem (storage_of t page) k with
                       | Some v => Some v
                       | None => getItem (storage_of t page0) k
                       end)
          /\ (storage_of t page0 = [] ->
              forall k,
                getItem (storage_of t page2) k
                = if str_eqb k proto_key then None
                  else getItem (storage_of t page) k)).
Proof.
  intros Htab Hpage Hnd Htab0 Hpage0.
  set (o := to_record (read_entries (storage_of t page))).
  assert (Hexp : exportEntries t b
                 = (Resolved (JSON_stringify o),
                    record_call (scripting_executeScript i)
                      (record_call tabs_query b))).
  { unfold exportEntries, getAllEntries, query_tabs, bind. rewrite Htab.
    now rewrite (executeScript_read
                   (fun p => read_entries (storage_of t p))
                   (b := record_call tabs_query b) Hpage). }
  exists (JSON_stringify o),
         (record_call (scripting_executeScript i) (record_call tabs_query b)),
         (define_all [] (own_property_order o)).
  split; [exact Hexp|]. split; [reflexivity|].
  split; [apply JSON_parse_stringify|]. split; [|split].
  - intros k.
    pose proof (to_record_NoDup (read_entries (storage_of t page))) as Hno.
    fold o in Hno.
    pose proof (own_property_order_perm o) as Hperm.
    rewrite get_property_define_all
      by (apply (Permutation_NoDup
                   (Permutation_map fst (Permutation_sym Hperm)) Hno)).
    rewrite (get_property_perm k Hno (Permutation_sym Hperm)).
    unfold o. rewrite (exported_record k Hnd).
    now destruct (str_eqb k proto_key).
  - destruct (export_import_same_area t b)
      as (json & b1 & b2 & Hexp' & Himp & Hp & _).
    rewrite Hexp in Hexp'. injection Hexp' as <- <-.
    exists b2. split; assumption.
  - destruct (@export_then_import_elsewhere P t b b0 i i0 page page0
                Htab Hpage Hnd Htab0 Hpage0)
      as (json & b1 & b2 & page2 & Hexp' & Himp & Hp & Hitems).
    rewrite Hexp in Hexp'. injection Hexp' as <- <-.
    exists b2, page2. split; [exact Himp|]. split; [exact Hp|].
    split; [exact Hitems|].
    intros Hempty k. rewrite Hitems, Hempty. simpl.
    destruct (str_eqb k proto_key); [reflexivity|].
    now destruct (getItem (storage_of t page) k).
Qed.

Lemma export_import_round_trip_witness :
  let page := {| localStorage := [(lit "b", lit "2"); (lit "a", lit "1")];
                 sessionStorage := [] |} in
  let empty := {| localStorage := []; sessionStorage := [] |} in
  let b := {| active_tabs := [{| tab_id := Some 1%Z |}];
              pages := [(1%Z, page)]; calls := [] |} in
  let b0 := {| active_tabs := [{| tab_id := Some 7%Z |}];
               pages := [(7%Z, empty)]; calls := [] |} in
  exists json b1 b2,
    exportEntries (P := binary_platform) local b = (Resolved json, b1)
    /\ importEntries (P := binary_platform) local json b0 = (Resolved tt, b2)
    /\ pages b2
       = [(7%Z, {| localStorage := [(lit "a", lit "1"); (lit "b", lit "2")];
                   sessionStorage := [] |})].
Proof.
  intros page empty b b0.
  assert (Hnd : distinct_keys (storage_of local page))
    by (repeat constructor; simpl; intuition discriminate).
  destruct (@export_import_round_trip binary_platform local b b0 1%Z 7%Z
              page empty eq_refl eq_refl Hnd eq_refl eq_refl)
    as (json & b1 & props & Hexp & _ & _ & _ & _ & b2 & page2 & Himp & _).
  exists json, b1, b2. split; [exact Hexp|]. split; [exact Himp|].
  injection Hexp as <- <-.
  apply (f_equal snd) in Himp. simpl in Himp. now subst b2.
Defined.

(** C5. The round trip loses a key named [__proto__]: [exportEntries]
    collects the entries in a plain object, where an assignment to
    [__proto__] creates no property, so the exported text lacks the key
    and importing it into an empty area of the same type gives the
    mapping without it. *)
Lemma round_trip_loses_proto :
  let page := {| localStorage := [(lit "__proto__", lit "x");
                                  (lit "b", lit "2")];
                 sessionStorage := [] |} in
  let empty := {| localStorage := []; sessionStorage := [] |} in
  let b := {| active_tabs := [{| tab_id := Some 1%Z |}];
              pages := [(1%Z, page)]; calls := [] |} in
  let b0 := {| active_tabs := [{| tab_id := Some 7%Z |}];
               pages := [(7%Z, empty)]; calls := [] |} in
  exists json b1 b2 page2,
    exportEntries (P := binary_platform) local b = (Resolved json, b1)
    /\ importEntries (P := binary_platform) local json b0 = (Resolved tt, b2)
    /\ page_of (pages b2) 7%Z = Some page2
    /\ getItem (localStorage page) (lit "__proto__") = Some (lit "x")
    /\ getItem (localStorage page2) (lit "__proto__") = None
    /\ localStorage page2 = [(lit "b", lit "2")].
Proof.
  intros page empty b b0. do 4 eexists. repeat split.
Qed.

(** ** C9: failures of the browser API *)

Lemma unreachable_writes {P : Platform} (t : StorageType)
  (es : list (jsstring * JsValue)) (b : Browser) (i : Z) :
  first_tab_id (active_tabs b) = Some i ->
  page_of (pages b) i = None ->
  forallb (fun kv => converts (snd kv)) es = true ->
  exists b',
    for_of es (fun kv => match to_string (snd kv) with
                         | Some s => setEntry t (fst kv) s
                         | None => throw type_error
                         end) b
    = (Resolved tt, b')
    /\ pages b' = pages b.
Proof.
  revert b. induction es as [|kv es IH]; intros b Htab Hpage Hconv.
  - exists b. split; reflexivity.
  - cbn [for_of forallb] in *. apply andb_true_iff in Hconv.
    destruct Hconv as [Hkv Hconv]. unfold converts in Hkv.
    destruct (to_string (snd kv)) as [s|]; [|discriminate].
    unfold bind. unfold setEntry at 1, query_tabs. rewrite Htab.
    rewrite executeScript_unreachable by exact Hpage.
    destruct (IH (record_call (scripting_executeScript i)
                    (record_call tabs_query b)) Htab Hpage Hconv)
      as (b' & Hrun & Hp).
    exists b'. split; [exact Hrun|exact Hp].
Qed.

(** C9 (as amended). Every operation of the cookie adapter hands a
    rejection of its cookie-API call to its caller unchanged, and stops
    there: [set] and [delete] are one API call and nothing else; [get],
    [has], [all], [entries], [keys], [find], [filter] and [clear] reject
    with the very error, in the very state, of the call that failed, and
    [clear] does so at the first removal that fails.  The storage service
    does not report a script that could not be injected: once an active
    tab is found, [setEntry], [deleteEntry] and [clearAll] resolve
    whatever became of the script; [getAllEntries] always resolves, with
    the empty list when the script could not run, and [exportEntries]
    then resolves with the text of the empty object; [importEntries]
    resolves as if every write had been made, and no page has
    changed. *)
Theorem api_failure_handling {W : Type} {api : CookiesApi W}
  {realm : ByDomain.Realm W} {P : Platform} :
  (forall n v o, exists d, set n v o = api_set d)
  /\ (forall n d w e w',
         api_getAll {| getAll_domain := Some d |} w = (Rejected e, w') ->
         get n d w = (Rejected e, w') /\ has n d w = (Rejected e, w'))
  /\ (forall n d p, exists r, delete n d p = api_remove r)
  /\ (forall pred w e w',
         api_getAll {| getAll_domain := None |} w = (Rejected e, w') ->
         entries w = (Rejected e, w') /\ keys w = (Rejected e, w')
         /\ CookieAdapter.find pred w = (Rejected e, w')
         /\ clear w = (Rejected e, w')
         /\ ByDomain.all w = (Rejected e, w')
         /\ ByDomain.filter pred w = (Rejected e, w'))
  /\ (forall c, exists r, remove_cookie c = api_remove r)
  /\ (forall w w0 w1 w2 pre c post e,
         api_getAll {| getAll_domain := None |} w
         = (Resolved (pre ++ c :: post), w0) ->
         for_of pre remove_cookie w0 = (Resolved tt, w1) ->
         remove_cookie c w1 = (Rejected e, w2) ->
         clear w = (Rejected e, w2))
  /\ (forall t k v b i,
         first_tab_id (active_tabs b) = Some i ->
         (exists b', setEntry t k v b = (Resolved tt, b'))
         /\ (exists b', deleteEntry t k b = (Resolved tt, b'))
         /\ (exists b', clearAll t b = (Resolved tt, b')))
  /\ (forall t k v b i,
         first_tab_id (active_tabs b) = Some i ->
         page_of (pages b) i = None ->
         fst (setEntry t k v b) = Resolved tt
         /\ pages (snd (setEntry t k v b)) = pages b
         /\ fst (getAllEntries t b) = Resolved []
         /\ fst (exportEntries t b) = Resolved (lit "{}"))
  /\ (forall t b, exists es b', getAllEntries t b = (Resolved es, b'))
  /\ (forall t b, exists json b', exportEntries t b = (Resolved json, b'))
  /\ (forall t text data es b i,
         first_tab_id (active_tabs b) = Some i ->
         page_of (pages b) i = None ->
         JSON_parse text = Some data ->
         Object_entries data = Some es ->
         forallb (fun kv => converts (snd kv)) es = true ->
         exists b',
           importEntries t text b = (Resolved tt, b')
           /\ pages b' = pages b).
Proof.
  repeat apply conj.
  - apply set_is_api_set.
  - intros n d w e w' H.
    assert (Hget : get n d w = (Rejected e, w'))
      by (unfold get; now rewrite (bind_rejected _ H)).
    split; [exact Hget|]. unfold has. now rewrite (bind_rejected _ Hget).
  - apply delete_is_api_remove.
  - intros pred w e w' H.
    unfold entries, keys, CookieAdapter.find, clear, ByDomain.all,
      ByDomain.filter.
    rewrite !(bind_rejected _ H). repeat split.
  - apply remove_cookie_is_api_remove.
  - intros w w0 w1 w2 pre c post e. apply clear_rejected_by_remove.
  - intros t k v b i H.
    repeat split;
      eauto using setEntry_resolves, deleteEntry_resolves, clearAll_resolves.
  - intros t k v b i Htab Hpage.
    unfold exportEntries, bind, setEntry, getAllEntries, query_tabs.
    rewrite Htab.
    rewrite !executeScript_unreachable by exact Hpage. repeat split.
  - intros t b. apply getAllEntries_resolves.
  - intros t b. destruct (getAllEntries_resolves t b) as (es & b' & Hget).
    unfold exportEntries. rewrite (bind_resolved _ Hget).
    do 2 eexists. reflexivity.
  - intros t text data es b i Htab Hpage Hparse Hes Hconv.
    destruct (@unreachable_writes P t es b i Htab Hpage Hconv)
      as (b' & Hrun & Hp).
    exists b'. unfold importEntries, try_catch.
    rewrite Hparse, Hes, Hrun. split; [reflexivity|exact Hp].
Qed.

Lemma api_failure_handling_witness :
  let e := Error (lit "Failed to parse or set cookie") in
  let j := {| listing := []; fault := Some e; requests := [] |} in
  let o := {| opt_url := Some (lit "https://example.com/"); opt_path := None;
              opt_domain := lit "example.com"; opt_secure := None;
              opt_httpOnly := None; opt_expirationDate := None;
              opt_sameSite := None; opt_storeId := None |} in
  let unreachable := {| active_tabs := [{| tab_id := Some 7%Z |}];
                        pages := []; calls := [] |} in
  fst (set (lit "sid") (lit "1") o j) = Rejected e
  /\ List.length (requests (snd (set (lit "sid") (lit "1") o j))) = 1%nat
  /\ fst (ByDomain.all j) = Rejected e
  /\ fst (importEntries (P := binary_platform) local (qlit "{'a':'1'}")
            unreachable) = Resolved tt.
Proof.
  intros e j o unreachable.
  destruct (@api_failure_handling Jar scripted_api inert_realm
              binary_platform)
    as (Hset & _ & _ & Hall & _ & _ & _ & _ & _ & _ & Himp).
  destruct (Hset (lit "sid") (lit "1") o) as [d Hd].
  assert (Hfail : forall d', api_set d' j = (Rejected e, received (req_set d') j))
    by reflexivity.
  rewrite Hd, (Hfail d). split; [reflexivity|]. split; [reflexivity|].
  split.
  - destruct (Hall (fun _ _ _ => true) j e
                (received (req_getAll {| getAll_domain := None |}) j)
                eq_refl) as (_ & _ & _ & _ & Ha & _).
    now rewrite Ha.
  - destruct (Himp local (qlit "{'a':'1'}") _ _ unreachable 7%Z
                eq_refl eq_refl eq_refl eq_refl eq_refl) as (b' & Hi & _).
    now rewrite Hi.
Defined.

(** As the specification words it, C9 fails in the storage service: a
    script that cannot be injected leaves [setEntry] resolved, and
    [importEntries] replaces the error of a failed write by its own. *)
Lemma storage_failures_not_propagated :
  let unreachable := {| active_tabs := [{| tab_id := Some 7%Z |}];
                        pages := []; calls := [] |} in
  let no_tab := {| active_tabs := []; pages := []; calls := [] |} in
  (fst (executeScript 7 (fun p : Page => (true, p)) unreachable) = None
   /\ fst (setEntry local (lit "a") (lit "1") unreachable) = Resolved tt)
  /\ (fst (setEntry local (lit "a") (lit "1") no_tab)
      = Rejected (Error (lit "No active tab found"))
      /\ fst (importEntries (P := binary_platform) local (qlit "{'a':'1'}")
                no_tab)
         = Rejected (Error (lit "Invalid JSON format"))).
Proof. repeat split. Qed.

(* ================================================================= *)
(** * Further properties of the storage service *)

Lemma page_of_update_other (ps : list (Z * Page)) (i j : Z) (p : Page) :
  j <> i -> page_of (update_page ps i p) j = page_of ps j.
Proof.
  intros Hne. induction ps as [|[i0 q] ps IH]; simpl; auto.
  destruct (Z.eqb_spec i0 i) as [->|Hi]; simpl.
  - destruct (Z.eqb_spec i j); [congruence|reflexivity].
  - now rewrite IH.
Qed.

Lemma storage_of_with_storage_other (t t' : StorageType) (page : Page)
  (s : Storage) :
  t' <> t -> storage_of t' (with_storage t page s) = storage_of t' page.
Proof. destruct t, t'; simpl; congruence. Qed.

Lemma getItem_setItem (s : Storage) (k k' v : jsstring) :
  getItem (setItem s k v) k'
  = if str_eqb k k' then Some v else getItem s k'.
Proof.
  now rewrite setItem_define, !getItem_get_property, get_property_define.
Qed.

Lemma getItem_absent (s : Storage) (k : jsstring) :
  getItem s k = None <-> ~ In k (map fst s).
Proof. rewrite getItem_get_property. apply get_property_None. Qed.

Lemma removeItem_absent (s : Storage) (k : jsstring) :
  getItem s k = None -> removeItem s k = s.
Proof.
  induction s as [|[k' v'] s IH]; simpl; auto.
  destruct (str_eqb k' k); [discriminate|]. intros H. now rewrite IH.
Qed.

Lemma removeItem_keys (s : Storage) (k x : jsstring) :
  In x (map fst (removeItem s k)) -> In x (map fst s).
Proof.
  induction s as [|[k' v'] s IH]; simpl; auto.
  destruct (str_eqb k' k); simpl; intuition.
Qed.

Lemma removeItem_distinct (s : Storage) (k : jsstring) :
  distinct_keys s -> distinct_keys (removeItem s k).
Proof.
  unfold distinct_keys. induction s as [|[k' v'] s IH]; simpl; auto.
  intros Hnd. inversion_clear Hnd as [|? ? Hnotin Hnd'].
  destruct (str_eqb k' k); simpl; auto.
  constructor; auto. intros Hin. apply Hnotin.
  exact (removeItem_keys Hin).
Qed.

Lemma getItem_removeItem (s : Storage) (k k' : jsstring) :
  distinct_keys s ->
  getItem (removeItem s k) k'
  = if str_eqb k k' then None else getItem s k'.
Proof.
  unfold distinct_keys. induction s as [|[k0 v0] s IH]; simpl; intros Hnd.
  - now destruct str_eqb.
  - inversion_clear Hnd as [|? ? Hnotin Hnd'].
    destruct (str_eqb k0 k) eqn:E.
    + apply str_eqb_eq in E. subst k0.
      destruct (str_eqb k k') eqn:E'; [|reflexivity].
      apply str_eqb_eq in E'. subst k'. now apply getItem_absent.
    + simpl. rewrite (IH Hnd').
      destruct (str_eqb k0 k') eqn:E0; [|reflexivity].
      apply str_eqb_eq in E0. subst k0.
      now rewrite (str_eqb_sym k k'), E.
Qed.

Lemma setItem_distinct (s : Storage) (k v : jsstring) :
  distinct_keys s -> distinct_keys (setItem s k v).
Proof.
  unfold distinct_keys. rewrite setItem_define.
  apply define_property_NoDup.
Qed.

(** What a script that rewrites one storage area leaves behind. *)
Lemma executeScript_rewrites {R} (t : StorageType) (r : R)
  (f : Storage -> Storage) (b : Browser) (i : Z) (page : Page) :
  page_of (pages b) i = Some page ->
  exists b',
    executeScript i
      (fun p => (r, with_storage t p (f (storage_of t p)))) b = (Some r, b')
    /\ active_tabs b' = active_tabs b
    /\ calls b' = calls b ++ [scripting_executeScript i]
    /\ pages b' = update_page (pages b) i
                    (with_storage t page (f (storage_of t page)))
    /\ page_of (pages b') i
       = Some (with_storage t page (f (storage_of t page)))
    /\ (forall j, j <> i -> page_of (pages b') j = page_of (pages b) j).
Proof.
  intros Hpage. unfold executeScript. cbn [pages record_call].
  rewrite Hpage. eexists. split; [reflexivity|]. cbn [pages active_tabs calls].
  repeat split.
  - exact (page_of_update _ Hpage).
  - intros j Hj. now apply page_of_update_other.
Qed.

(** X1. After [setEntry] on an active tab whose page can be scripted, the
    chosen storage area of that page maps the key to the new value and
    every other key to what it had; the other storage area of the page is
    untouched. *)
Theorem setEntry_read_back (t : StorageType) (k v : jsstring) (b : Browser)
  (i : Z) (page : Page) :
  first_tab_id (active_tabs b) = Some i ->
  page_of (pages b) i = Some page ->
  exists b' page',
    setEntry t k v b = (Resolved tt, b')
    /\ page_of (pages b') i = Some page'
    /\ (forall k', getItem (storage_of t page') k'
                   = if str_eqb k k' then Some v
                     else getItem (storage_of t page) k')
    /\ (forall t', t' <> t -> storage_of t' page' = storage_of t' page).
Proof.
  intros Htab Hpage.
  destruct (executeScript_rewrites t true (fun s => setItem s k v)
              (b := record_call tabs_query b) Hpage)
    as (b' & Hrun & _ & _ & _ & Hp & _).
  exists b', (with_storage t page (setItem (storage_of t page) k v)).
  unfold setEntry, query_tabs. rewrite Htab.
  cbv zeta. rewrite Hrun. repeat split; auto.
  - intros k'. now rewrite storage_of_with_storage, getItem_setItem.
  - intros t' Ht. now apply storage_of_with_storage_other.
Qed.

Lemma setEntry_read_back_witness :
  let page := {| localStorage := [(lit "a", lit "1"); (lit "b", lit "2")];
                 sessionStorage := [(lit "a", lit "s")] |} in
  let b := {| active_tabs := [{| tab_id := Some 4%Z |}];
              pages := [(4%Z, page)]; calls := [] |} in
  exists b',
    setEntry local (lit "a") (lit "9") b = (Resolved tt, b')
    /\ pages b'
       = [(4%Z, {| localStorage := [(lit "a", lit "9"); (lit "b", lit "2")];
                   sessionStorage := [(lit "a", lit "s")] |})].
Proof.
  intros page b.
  destruct (@setEntry_read_back local (lit "a") (lit "9") b 4%Z page
              eq_refl eq_refl) as (b' & page' & Hset & _).
  exists b'. split; [exact Hset|].
  apply (f_equal snd) in Hset. simpl in Hset. now subst b'.
Defined.

(** X2. After [deleteEntry] on an active tab whose page can be scripted
    (its storage holding each key once), the key is gone from the chosen
    storage area of that page and every other key keeps its value; the
    other area of the page is untouched, and deleting a key that is not
    there leaves the page as it was. *)
Theorem deleteEntry_read_back (t : StorageType) (k : jsstring) (b : Browser)
  (i : Z) (page : Page) :
  first_tab_id (active_tabs b) = Some i ->
  page_of (pages b) i = Some page ->
  distinct_keys (storage_of t page) ->
  exists b' page',
    deleteEntry t k b = (Resolved tt, b')
    /\ page_of (pages b') i = Some page'
    /\ (forall k', getItem (storage_of t page') k'
                   = if str_eqb k k' then None
                     else getItem (storage_of t page) k')
    /\ (forall t', t' <> t -> storage_of t' page' = storage_of t' page)
    /\ (getItem (storage_of t page) k = None -> page' = page).
Proof.
  intros Htab Hpage Hnd.
  destruct (executeScript_rewrites t true (fun s => removeItem s k)
              (b := record_call tabs_query b) Hpage)
    as (b' & Hrun & _ & _ & _ & Hp & _).
  exists b', (with_storage t page (removeItem (storage_of t page) k)).
  unfold deleteEntry, query_tabs. rewrite Htab.
  cbv zeta. rewrite Hrun. repeat split; auto.
  - intros k'. now rewrite storage_of_with_storage, getItem_removeItem.
  - intros t' Ht. now apply storage_of_with_storage_other.
  - intros Habs. rewrite (removeItem_absent Habs). apply with_storage_same.
Qed.

Lemma deleteEntry_read_back_witness :
  let page := {| localStorage := [(lit "a", lit "1"); (lit "b", lit "2")];
                 sessionStorage := [(lit "a", lit "s")] |} in
  let b := {| active_tabs := [{| tab_id := Some 4%Z |}];
              pages := [(4%Z, page)]; calls := [] |} in
  exists b',
    deleteEntry local (lit "a") b = (Resolved tt, b')
    /\ pages b'
       = [(4%Z, {| localStorage := [(lit "b", lit "2")];
                   sessionStorage := [(lit "a", lit "s")] |})].
Proof.
  intros page b.
  assert (Hnd : distinct_keys (storage_of local page))
    by (repeat constructor; simpl; intuition discriminate).
  destruct (@deleteEntry_read_back local (lit "a") b 4%Z page
              eq_refl eq_refl Hnd) as (b' & page' & Hdel & _).
  exists b'. split; [exact Hdel|].
  apply (f_equal snd) in Hdel. simpl in Hdel. now subst b'.
Defined.

Lemma getAllEntries_on_page {P : Platform} (t : StorageType) (b : Browser)
  (i : Z) (page : Page) :
  first_tab_id (active_tabs b) = Some i ->
  page_of (pages b) i = Some page ->
  getAllEntries t b
  = (Resolved (read_entries (storage_of t page)),
     record_call (scripting_executeScript i) (record_call tabs_query b)).
Proof.
  intros Htab Hpage. unfold getAllEntries, query_tabs. rewrite Htab.
  now rewrite (executeScript_read
                 (fun p => read_entries (storage_of t p))
                 (b := record_call tabs_query b) Hpage).
Qed.

Lemma read_entries_In_iff {P : Platform} (s : Storage) (e : StorageEntry) :
  distinct_keys s ->
  (In e (read_entries s)
   <-> getItem s (key e) = Some (StorageService.value e)).
Proof.
  intros Hnd. split; [apply read_entries_In|].
  intros Hget. unfold read_entries. rewrite (read_entries_unsorted Hnd).
  apply sort_In. rewrite getItem_get_property in Hget.
  apply (get_property_In _ _ Hnd) in Hget.
  apply in_map_iff. exists (key e, StorageService.value e).
  split; [now destruct e|exact Hget].
Qed.

(** X3. After [clearAll] on an active tab whose page can be scripted, the
    chosen storage area is empty and [getAllEntries] for it resolves with
    the empty list, while the other storage area of the page keeps its
    content. *)
Theorem clearAll_then_getAllEntries {P : Platform} (t : StorageType)
  (b : Browser) (i : Z) (page : Page) :
  first_tab_id (active_tabs b) = Some i ->
  page_of (pages b) i = Some page ->
  exists b' page',
    clearAll t b = (Resolved tt, b')
    /\ page_of (pages b') i = Some page'
    /\ storage_of t page' = []
    /\ (forall t', t' <> t -> storage_of t' page' = storage_of t' page)
    /\ fst (getAllEntries t b') = Resolved [].
Proof.
  intros Htab Hpage.
  destruct (executeScript_rewrites t true (fun _ => [])
              (b := record_call tabs_query b) Hpage)
    as (b' & Hrun & Ht & _ & _ & Hp & _).
  exists b', (with_storage t page []).
  unfold clearAll, query_tabs. rewrite Htab.
  cbv zeta. rewrite Hrun. repeat split; auto.
  - apply storage_of_with_storage.
  - intros t' Hne. now apply storage_of_with_storage_other.
  - rewrite (getAllEntries_on_page t (b := b') (i := i)
               (page := with_storage t page [])); auto.
    + now rewrite storage_of_with_storage.
    + now rewrite Ht.
Qed.

Lemma clearAll_then_getAllEntries_witness :
  let page := {| localStorage := [(lit "a", lit "1"); (lit "b", lit "2")];
                 sessionStorage := [(lit "a", lit "s")] |} in
  let b := {| active_tabs := [{| tab_id := Some 4%Z |}];
              pages := [(4%Z, page)]; calls := [] |} in
  exists b',
    clearAll session b = (Resolved tt, b')
    /\ pages b'
       = [(4%Z, {| localStorage := [(lit "a", lit "1"); (lit "b", lit "2")];
                   sessionStorage := [] |})]
    /\ fst (getAllEntries (P := binary_platform) session b') = Resolved [].
Proof.
  intros page b.
  destruct (@clearAll_then_getAllEntries binary_platform session b 4%Z page
              eq_refl eq_refl) as (b' & page' & Hclear & _ & _ & _ & Hget).
  exists b'. split; [exact Hclear|]. split; [|exact Hget].
  apply (f_equal snd) in Hclear. simpl in Hclear. now subst b'.
Defined.

(** X4. Reading after writing: once [setEntry] has run on an active tab
    whose page can be scripted (its storage holding each key once),
    [getAllEntries] lists the written key with the written value, next
    to the entries the area had under other keys, and nothing else. *)
Theorem setEntry_then_getAllEntries {P : Platform} (t : StorageType)
  (k v : jsstring) (b : Browser) (i : Z) (page : Page) :
  first_tab_id (active_tabs b) = Some i ->
  page_of (pages b) i = Some page ->
  distinct_keys (storage_of t page) ->
  exists b' es b'',
    setEntry t k v b = (Resolved tt, b')
    /\ getAllEntries t b' = (Resolved es, b'')
    /\ forall e,
         In e es
         <-> e = {| key := k; value := v |}
             \/ (key e <> k
                 /\ getItem (storage_of t page) (key e)
                    = Some (StorageService.value e)).
Proof.
  intros Htab Hpage Hnd.
  destruct (setEntry_writes t k v Htab Hpage) as (b' & Hset & Ht & Hp).
  exists b'. do 2 eexists. split; [exact Hset|].
  split.
  { apply (getAllEntries_on_page t (b := b') (i := i)
             (page := with_storage t page (setItem (storage_of t page) k v)));
      [now rewrite Ht|exact Hp]. }
  intros e. rewrite storage_of_with_storage.
  rewrite (read_entries_In_iff e (setItem_distinct k v Hnd)).
  rewrite getItem_setItem.
  destruct (str_eqb k (key e)) eqn:E.
  - apply str_eqb_eq in E. split.
    + intros [= Hv]. left. destruct e; simpl in *. congruence.
    + intros [->|[Hne _]]; [reflexivity|congruence].
  - apply str_eqb_neq in E. split.
    + intros H. right. split; [congruence|exact H].
    + intros [->|[_ H]]; [now destruct E|exact H].
Qed.

Lemma setEntry_then_getAllEntries_witness :
  let page := {| localStorage := [(lit "b", lit "2")];
                 sessionStorage := [] |} in
  let b := {| active_tabs := [{| tab_id := Some 4%Z |}];
              pages := [(4%Z, page)]; calls := [] |} in
  exists b' es b'',
    setEntry local (lit "a") [] b = (Resolved tt, b')
    /\ getAllEntries (P := binary_platform) local b' = (Resolved es, b'')
    /\ In {| key := lit "a"; value := [] |} es
    /\ In {| key := lit "b"; value := lit "2" |} es.
Proof.
  intros page b.
  assert (Hnd : distinct_keys (storage_of local page))
    by (repeat constructor; simpl; intuition discriminate).
  destruct (@setEntry_then_getAllEntries binary_platform local (lit "a") []
              b 4%Z page eq_refl eq_refl Hnd)
    as (b' & es & b'' & Hset & Hget & Hin).
  exists b', es, b''. repeat split; auto; apply Hin.
  - now left.
  - right. split; [discriminate|reflexivity].
Defined.

Lemma page_of_In (ps : list (Z * Page)) (i : Z) (p : Page) :
  page_of ps i = Some p -> In (i, p) ps.
Proof.
  induction ps as [|[j q] ps IH]; simpl; [discriminate|].
  destruct (Z.eqb_spec j i) as [->|]; [intros [= ->]; now left|auto].
Qed.

Lemma update_page_In (ps : list (Z * Page)) (i j : Z) (p q : Page) :
  In (j, q) (update_page ps i p) -> In (j, q) ps \/ q = p.
Proof.
  induction ps as [|[i0 q0] ps IH]; simpl; auto.
  destruct (Z.eqb i0 i); simpl.
  - intros [[= _ <-]|H]; auto.
  - intros [H|H]; auto. destruct (IH H); auto.
Qed.

Lemma record_call_well_formed (c : ChromeCall) (b : Browser) :
  well_formed b -> well_formed (record_call c b).
Proof. intros H i page. apply H. Qed.

Lemma executeScript_well_formed {R} (i : Z) (f : Page -> R * Page)
  (b : Browser) :
  (forall page,
      distinct_keys (localStorage page) /\ distinct_keys (sessionStorage page) ->
      distinct_keys (localStorage (snd (f page)))
      /\ distinct_keys (sessionStorage (snd (f page)))) ->
  well_formed b -> well_formed (snd (executeScript i f b)).
Proof.
  intros Hf Hb. unfold executeScript. cbn [pages record_call].
  destruct (page_of (pages b) i) as [page|] eqn:Hpage.
  - destruct (f page) as [r page'] eqn:Hfp. cbn [snd].
    intros j q Hin. cbn [pages] in Hin.
    destruct (update_page_In Hin) as [Hold| ->]; [now apply (Hb j)|].
    specialize (Hf page (Hb i page (page_of_In Hpage))).
    now rewrite Hfp in Hf.
  - now apply record_call_well_formed.
Qed.

Lemma with_storage_distinct (t : StorageType) (page : Page) (s : Storage) :
  distinct_keys s ->
  distinct_keys (localStorage page) /\ distinct_keys (sessionStorage page) ->
  distinct_keys (localStorage (with_storage t page s))
  /\ distinct_keys (sessionStorage (with_storage t page s)).
Proof. destruct t; simpl; tauto. Qed.

Lemma storage_of_distinct (t : StorageType) (page : Page) :
  distinct_keys (localStorage page) /\ distinct_keys (sessionStorage page) ->
  distinct_keys (storage_of t page).
Proof. destruct t; simpl; tauto. Qed.

Lemma setEntry_well_formed (t : StorageType) (k v : jsstring) (b : Browser) :
  well_formed b -> well_formed (snd (setEntry t k v b)).
Proof.
  intros Hb. unfold setEntry, query_tabs.
  destruct (first_tab_id (active_tabs b));
    [|now apply record_call_well_formed].
  match goal with
  | |- context [executeScript ?i ?f ?b0] =>
      pose proof (@executeScript_well_formed _ i f b0) as H;
      destruct (executeScript i f b0) as [r b2]
  end.
  apply H; [|now apply record_call_well_formed].
  intros page Hp. apply with_storage_distinct; [|exact Hp].
  apply setItem_distinct. now apply storage_of_distinct.
Qed.

Lemma for_of_invariant {W A} (Inv : W -> Prop) (body : A -> Async W unit)
  (xs : list A) :
  (forall x w, Inv w -> Inv (snd (body x w))) ->
  forall w, Inv w -> Inv (snd (for_of xs body w)).
Proof.
  intros Hbody. induction xs as [|x xs IH]; intros w Hw; simpl; auto.
  unfold bind. specialize (Hbody x w Hw).
  destruct (body x w) as [[[]|e] w']; simpl in *; auto.
Qed.

(** X5. The storage service keeps the pages well formed: if every storage
    area of every page holds each key once, it still does after
    [getAllEntries], [setEntry], [deleteEntry], [clearAll],
    [exportEntries] and [importEntries], whatever their arguments and
    whether they resolve or reject. *)
Theorem service_keeps_keys_distinct {P : Platform} (t : StorageType)
  (k v text : jsstring) (b : Browser) :
  well_formed b ->
  well_formed (snd (getAllEntries t b))
  /\ well_formed (snd (setEntry t k v b))
  /\ well_formed (snd (deleteEntry t k b))
  /\ well_formed (snd (clearAll t b))
  /\ well_formed (snd (exportEntries t b))
  /\ well_formed (snd (importEntries t text b)).
Proof.
  intros Hb.
  assert (Hget : well_formed (snd (getAllEntries t b))).
  { destruct (getAllEntries_cases t b) as (es & b' & -> & Hp & _).
    intros i page Hin. cbn [snd] in Hin. rewrite Hp in Hin. now apply (Hb i). }
  split; [exact Hget|]. split; [now apply setEntry_well_formed|].
  split; [|split; [|split]].
  - unfold deleteEntry, query_tabs.
    destruct (first_tab_id (active_tabs b));
      [|now apply record_call_well_formed].
    match goal with
    | |- context [executeScript ?i ?f ?b0] =>
        pose proof (@executeScript_well_formed _ i f b0) as H;
        destruct (executeScript i f b0) as [r b2]
    end.
    apply H; [|now apply record_call_well_formed].
    intros page Hp. apply with_storage_distinct; [|exact Hp].
    apply removeItem_distinct. now apply storage_of_distinct.
  - unfold clearAll, query_tabs.
    destruct (first_tab_id (active_tabs b));
      [|now apply record_call_well_formed].
    match goal with
    | |- context [executeScript ?i ?f ?b0] =>
        pose proof (@executeScript_well_formed _ i f b0) as H;
        destruct (executeScript i f b0) as [r b2]
    end.
    apply H; [|now apply record_call_well_formed].
    intros page Hp. apply with_storage_distinct; [constructor|exact Hp].
  - unfold exportEntries, bind.
    destruct (getAllEntries t b) as [[es|e] b']; exact Hget.
  - unfold importEntries, try_catch.
    destruct (JSON_parse text) as [data|]; [|exact Hb].
    destruct (Object_entries data) as [es|]; [|exact Hb].
    assert (Hinv : well_formed
                     (snd (for_of es
                             (fun kv : jsstring * JsValue =>
                                match to_string (snd kv) with
                                | Some s => setEntry t (fst kv) s
                                | None => throw type_error
                                end) b))).
    { apply for_of_invariant; [|exact Hb]. intros x w Hw.
      destruct (to_string (snd x)); [now apply setEntry_well_formed|exact Hw]. }
    destruct (for_of es _ b) as [[[]|e] b']; exact Hinv.
Qed.

Lemma service_keeps_keys_distinct_witness :
  let page := {| localStorage := [(lit "a", lit "1"); (lit "b", lit "2")];
                 sessionStorage := [] |} in
  let b := {| active_tabs := [{| tab_id := Some 4%Z |}];
              pages := [(4%Z, page)]; calls := [] |} in
  well_formed
    (snd (importEntries (P := binary_platform) local
            (qlit "{'b':'3','c':4,'b':'5'}") b)).
Proof.
  intros page b.
  assert (Hb : well_formed b).
  { intros i p [[= <- <-]|[]]. split; repeat constructor; simpl;
      intuition discriminate. }
  exact (proj2 (proj2 (proj2 (proj2 (proj2
           (@service_keeps_keys_distinct binary_platform local [] []
              (qlit "{'b':'3','c':4,'b':'5'}") b Hb)))))).
Defined.

(** [JSON.parse] never returns an object with a key twice. *)
Lemma parse_members_distinct (pv : jsstring -> option (JsValue * jsstring))
  (n : nat) :
  forall s acc v r,
    NoDup (map fst acc) ->
    parse_members pv n s acc = Some (v, r) ->
    exists o, v = JObject o /\ NoDup (map fst o).
Proof.
  induction n as [|n IH]; intros s acc v r Hnd H; [discriminate|].
  cbn [parse_members] in H.
  destruct (skip_ws s) as [|q r0]; [discriminate|].
  destruct (negb (N.eqb q 34)); [discriminate|].
  destruct (parse_chars r0) as [[k r1]|]; [|discriminate].
  destruct (skip_ws r1) as [|colon r2]; [discriminate|].
  destruct (negb (N.eqb colon 58)); [discriminate|].
  destruct (pv r2) as [[v0 r3]|]; [|discriminate].
  destruct (skip_ws r3) as [|c r4]; [discriminate|].
  destruct (N.eqb c 44).
  - apply IH in H; auto using define_property_NoDup.
  - destruct (N.eqb c 125); [|discriminate].
    injection H as <- <-. eauto using define_property_NoDup.
Qed.

Lemma parse_elements_array (pv : jsstring -> option (JsValue * jsstring))
  (n : nat) :
  forall s acc v r,
    parse_elements pv n s acc = Some (v, r) -> exists l, v = JArray l.
Proof.
  induction n as [|n IH]; intros s acc v r H; [discriminate|].
  cbn [parse_elements] in H.
  destruct (pv s) as [[v0 r0]|]; [|discriminate].
  destruct (skip_ws r0) as [|c r1]; [discriminate|].
  destruct (N.eqb c 44); [eauto|].
  destruct (N.eqb c 93); [|discriminate].
  injection H as <- <-. eauto.
Qed.

Lemma parse_value_distinct (fuel : nat) (s r : jsstring)
  (o : list (jsstring * JsValue)) :
  parse_value fuel s = Some (JObject o, r) -> NoDup (map fst o).
Proof.
  destruct fuel as [|f]; [discriminate|]. cbn [parse_value].
  destruct (skip_ws s) as [|c r0]; [discriminate|].
  destruct (N.eqb c 123).
  { destruct (skip_ws r0) as [|c' r']; [discriminate|].
    destruct (N.eqb c' 125).
    - intros [= <- _]. constructor.
    - intros H. apply parse_members_distinct in H; [|constructor].
      destruct H as (o' & [= ->] & Hnd). exact Hnd. }
  destruct (N.eqb c 91).
  { destruct (skip_ws r0) as [|c' r']; [discriminate|].
    destruct (N.eqb c' 93); [discriminate|].
    intros H. apply parse_elements_array in H.
    destruct H as (l & [=]). }
  destruct (N.eqb c 34).
  { destruct (parse_chars r0) as [[str r']|]; discriminate. }
  unfold parse_keyword.
  repeat match goal with
         | |- context [if ?x then _ else _] => destruct x
         | |- context [strip_prefix ?a ?b] => destruct (strip_prefix a b)
         end; try discriminate.
  destruct (lex_number (c :: r0)) as [[l r']|]; discriminate.
Qed.

Lemma JSON_parse_distinct (text : jsstring) (o : list (jsstring * JsValue)) :
  JSON_parse text = Some (JObject o) -> NoDup (map fst o).
Proof.
  unfold JSON_parse.
  destruct (parse_value (S (List.length text)) text) as [[v r]|] eqn:E;
    [|discriminate].
  destruct (skip_ws r); [|discriminate].
  intros [= ->]. exact (parse_value_distinct E).
Qed.

(** X6. Importing a JSON object merges it into the storage area: with an
    active tab whose page can be scripted and an object all of whose
    values [String] converts (none is, or holds in an array, an object
    with a key [toString] of its own), [importEntries] resolves, each key
    of the object ends up with [String] of its value (the last one, if
    the text repeats the key), and every key the object does not name
    keeps the value it had, as does the other storage area.  Nothing is
    ever removed by an import. *)
Theorem importEntries_merges {P : Platform} (t : StorageType)
  (text : jsstring) (props : list (jsstring * JsValue)) (b : Browser)
  (i : Z) (page : Page) :
  first_tab_id (active_tabs b) = Some i ->
  page_of (pages b) i = Some page ->
  JSON_parse text = Some (JObject props) ->
  Forall (fun kv => converts (snd kv) = true) props ->
  exists b' page',
    importEntries t text b = (Resolved tt, b')
    /\ page_of (pages b') i = Some page'
    /\ (forall k,
           getItem (storage_of t page') k
           = match get_property props k with
             | Some jv => to_string jv
             | None => getItem (storage_of t page) k
             end)
    /\ (forall t', t' <> t -> storage_of t' page' = storage_of t' page).
Proof.
  intros Htab Hpage Hparse Hconv.
  pose proof (JSON_parse_distinct Hparse) as Hnd.
  pose proof (own_property_order_perm props) as Hperm.
  set (W := own_property_order props) in *.
  assert (HndW : NoDup (map fst W))
    by (apply (Permutation_NoDup
                 (Permutation_map fst (Permutation_sym Hperm)) Hnd)).
  assert (HconvW : Forall (fun kv => converts (snd kv) = true) W).
  { rewrite Forall_forall in Hconv |- *. intros kv Hin. apply Hconv.
    apply (Permutation_in _ Hperm Hin). }
  destruct (import_loop t W Htab Hpage) as (b' & Hrun & _ & Hp).
  exists b'. eexists. split; [|split; [exact Hp|split]].
  - unfold importEntries, try_catch. rewrite Hparse.
    cbn [Object_entries]. fold W.
    rewrite (import_entries_strings t b HconvW). now rewrite Hrun.
  - intros k. rewrite storage_of_with_storage, getItem_get_property.
    rewrite (get_property_fold
               (kx := fst)
               (vx := fun kv : jsstring * JsValue => string_of (snd kv)));
      [|intros; rewrite setItem_define; apply get_property_define
       |exact HndW].
    rewrite (get_property_map string_of).
    rewrite (get_property_perm k Hnd (Permutation_sym Hperm)).
    rewrite <- getItem_get_property.
    destruct (get_property props k) as [jv|] eqn:E; [|reflexivity].
    apply (get_property_In _ _ Hnd) in E.
    rewrite Forall_forall in Hconv. specialize (Hconv _ E).
    cbn [snd option_map] in *. unfold converts, string_of in *.
    now destruct (to_string jv).
  - intros t' Hne. now apply storage_of_with_storage_other.
Qed.

Lemma importEntries_merges_witness :
  let page := {| localStorage := [(lit "a", lit "1"); (lit "b", lit "2")];
                 sessionStorage := [(lit "s", lit "0")] |} in
  let b := {| active_tabs := [{| tab_id := Some 4%Z |}];
              pages := [(4%Z, page)]; calls := [] |} in
  exists b',
    importEntries (P := binary_platform) local
      (qlit "{'b':'x','n':null,'l':[1,[2],null],'b':true}") b
    = (Resolved tt, b')
    /\ pages b'
       = [(4%Z, {| localStorage :=
                     [(lit "a", lit "1"); (lit "b", lit "true");
                      (lit "n", lit "null"); (lit "l", lit "1,2,")];
                   sessionStorage := [(lit "s", lit "0")] |})].
Proof.
  intros page b.
  destruct (@importEntries_merges binary_platform local
              (qlit "{'b':'x','n':null,'l':[1,[2],null],'b':true}")
              _ b 4%Z page eq_refl eq_refl eq_refl
              ltac:(repeat constructor))
    as (b' & page' & Himp & _).
  exists b'. split; [exact Himp|].
  apply (f_equal snd) in Himp. simpl in Himp. now subst b'.
Defined.

(** X7. With no active tab, [importEntries] of a valid JSON text that has
    at least one entry rejects with "Invalid JSON format": after a single
    tab query when [String] converts the first value, the error of the
    failed write being replaced, and without any browser call when
    [String] throws for it.  A valid text without entries (an empty
    object or array, a number, a boolean) resolves without any browser
    call. *)
Theorem importEntries_without_tab {P : Platform} (t : StorageType)
  (text : jsstring) (data : JsValue) (es : list (jsstring * JsValue))
  (b : Browser) :
  first_tab_id (active_tabs b) = None ->
  JSON_parse text = Some data ->
  Object_entries data = Some es ->
  importEntries t text b
  = match es with
    | [] => (Resolved tt, b)
    | kv :: _ =>
        (Rejected (Error (lit "Invalid JSON format")),
         if converts (snd kv) then record_call tabs_query b else b)
    end.
Proof.
  intros Htab Hparse Hes. unfold importEntries, try_catch.
  rewrite Hparse, Hes. destruct es as [|kv es]; [reflexivity|].
  cbn [for_of]. unfold bind, converts.
  destruct (to_string (snd kv)); [|reflexivity].
  unfold setEntry, query_tabs. now rewrite Htab.
Qed.

Lemma importEntries_without_tab_witness :
  let b := {| active_tabs := [{| tab_id := None |}];
              pages := [(4%Z, {| localStorage := []; sessionStorage := [] |})];
              calls := [] |} in
  importEntries (P := binary_platform) local (qlit "{'a':'1','b':'2'}") b
  = (Rejected (Error (lit "Invalid JSON format")), record_call tabs_query b)
  /\ importEntries (P := binary_platform) local
       (qlit "{'a':{'toString':1}}") b
     = (Rejected (Error (lit "Invalid JSON format")), b)
  /\ importEntries (P := binary_platform) local (qlit "[ ]") b
     = (Resolved tt, b).
Proof.
  intros b. split; [|split].
  - exact (@importEntries_without_tab binary_platform local
             (qlit "{'a':'1','b':'2'}") _ _ b eq_refl eq_refl eq_refl).
  - exact (@importEntries_without_tab binary_platform local
             (qlit "{'a':{'toString':1}}") _ _ b eq_refl eq_refl eq_refl).
  - exact (@importEntries_without_tab binary_platform local
             (qlit "[ ]") _ _ b eq_refl eq_refl eq_refl).
Defined.

(** X8. Backup and restore: exporting a storage area of the active tab's
    page, clearing the area and importing the exported text gives every
    key its value back, except a key named [__proto__], which is lost;
    the other storage area of the page is as before. *)
Theorem export_clear_import_restores {P : Platform} (t : StorageType)
  (b : Browser) (i : Z) (page : Page) :
  first_tab_id (active_tabs b) = Some i ->
  page_of (pages b) i = Some page ->
  distinct_keys (storage_of t page) ->
  exists json b1 b2 b3 page',
    exportEntries t b = (Resolved json, b1)
    /\ clearAll t b1 = (Resolved tt, b2)
    /\ importEntries t json b2 = (Resolved tt, b3)
    /\ page_of (pages b3) i = Some page'
    /\ (forall k,
          getItem (storage_of t page') k
          = if str_eqb k proto_key then None
            else getItem (storage_of t page) k)
    /\ (forall t', t' <> t -> storage_of t' page' = storage_of t' page).
Proof.
  intros Htab Hpage Hnd.
  pose proof (getAllEntries_on_page t Htab Hpage) as Hget.
  set (b1 := record_call (scripting_executeScript i)
               (record_call tabs_query b)) in *.
  assert (Hpage1 : page_of (pages (record_call tabs_query b1)) i = Some page)
    by exact Hpage.
  destruct (executeScript_rewrites t true (fun _ => []) Hpage1)
    as (b2 & Hrun & Ht2 & _ & _ & Hp2 & _).
  assert (Htab2 : first_tab_id (active_tabs b2) = Some i)
    by (rewrite Ht2; exact Htab).
  destruct (@export_then_import_elsewhere P t b b2 i i page _ Htab Hpage Hnd
              Htab2 Hp2)
    as (json & b1' & b3 & page' & Hexp & Himp & Hp3 & Hitems).
  assert (Hexp' : exportEntries t b
                  = (Resolved (JSON_stringify
                                 (to_record (read_entries (storage_of t page)))),
                     b1))
    by (unfold exportEntries; now rewrite (bind_resolved _ Hget)).
  rewrite Hexp' in Hexp. injection Hexp as <- <-.
  destruct (import_loop t
              (own_property_order
                 (define_all []
                    (own_property_order
                       (to_record (read_entries (storage_of t page))))))
              Htab2 Hp2) as (b3' & Hrun3 & _ & Hp3').
  assert (Himp' : importEntries t
                    (JSON_stringify
                       (to_record (read_entries (storage_of t page)))) b2
                  = (Resolved tt, b3')).
  { unfold importEntries, try_catch. rewrite JSON_parse_stringify.
    cbn [Object_entries].
    rewrite import_entries_strings by apply strings_convert.
    now rewrite Hrun3. }
  rewrite Himp' in Himp. injection Himp as ->.
  rewrite Hp3' in Hp3. injection Hp3 as <-.
  exists (JSON_stringify (to_record (read_entries (storage_of t page)))),
         b1, b2, b3.
  eexists.
  split; [exact Hexp'|]. split.
  { unfold clearAll, query_tabs. cbn [active_tabs record_call b1].
    rewrite Htab. cbv zeta. now rewrite Hrun. }
  split; [exact Himp'|]. split; [exact Hp3'|]. split.
  - intros k. rewrite Hitems, storage_of_with_storage. simpl.
    destruct (str_eqb k proto_key); [reflexivity|].
    now destruct (getItem (storage_of t page) k).
  - intros t' Hne.
    now rewrite !storage_of_with_storage_other by exact Hne.
Qed.

Lemma export_clear_import_restores_witness :
  let page := {| localStorage := [(lit "b", lit "2"); (lit "a", lit "1");
                                  (lit "__proto__", lit "p")];
                 sessionStorage := [(lit "s", lit "1")] |} in
  let b := {| active_tabs := [{| tab_id := Some 1%Z |}];
              pages := [(1%Z, page)]; calls := [] |} in
  exists json b1 b2 b3,
    exportEntries (P := binary_platform) local b = (Resolved json, b1)
    /\ clearAll local b1 = (Resolved tt, b2)
    /\ importEntries (P := binary_platform) local json b2 = (Resolved tt, b3)
    /\ pages b3
       = [(1%Z, {| localStorage := [(lit "a", lit "1"); (lit "b", lit "2")];
                   sessionStorage := [(lit "s", lit "1")] |})].
Proof.
  intros page b.
  assert (Hnd : distinct_keys (storage_of local page))
    by (repeat constructor; simpl; intuition discriminate).
  destruct (@export_clear_import_restores binary_platform local b 1%Z page
              eq_refl eq_refl Hnd)
    as (json & b1 & b2 & b3 & page' & Hexp & Hclear & Himp & _).
  exists json, b1, b2, b3.
  split; [exact Hexp|]. split; [exact Hclear|]. split; [exact Himp|].
  injection Hexp as <- <-. injection Hclear as <-.
  apply (f_equal snd) in Himp. simpl in Himp. now subst b3.
Defined.

(** X9. [exportEntries] never rejects and never changes a page, and the
    text it resolves with is always valid JSON: [JSON.parse] reads it as
    an object whose values are all strings. *)
Theorem exportEntries_valid_json {P : Platform} (t : StorageType)
  (b : Browser) :
  exists json b' props,
    exportEntries t b = (Resolved json, b')
    /\ pages b' = pages b
    /\ active_tabs b' = active_tabs b
    /\ JSON_parse json = Some (JObject props)
    /\ forall k jv, In (k, jv) props -> exists v, jv = JString v.
Proof.
  destruct (getAllEntries_cases t b) as (es & b' & Hget & Hp & Ht & _).
  exists (JSON_stringify (to_record es)), b'. eexists.
  unfold exportEntries. rewrite (bind_resolved _ Hget).
  split; [reflexivity|]. split; [exact Hp|]. split; [exact Ht|].
  split; [apply JSON_parse_stringify|].
  intros k jv Hin. apply define_all_In in Hin.
  destruct Hin as [[]|(v & -> & _)]. eauto.
Qed.

(* ================================================================= *)
(** * Further properties of the cookie adapter *)

(** X10. [has] never reports a cookie that is not listed: if it resolves
    with [true], a cookie of that name with a non-empty value is listed
    for the domain; and for a name that no listed cookie bears, [get]
    resolves with [undefined] and [has] with [false]. *)
Theorem has_reports_listed_cookies {W : Type} {api : CookiesApi W}
  (n d : jsstring) (w w' : W) (cookies : list Cookie) :
  api_getAll {| getAll_domain := Some d |} w = (Resolved cookies, w') ->
  exists r,
    has n d w = (Resolved r, w')
    /\ (r = true ->
        exists c, In c cookies /\ name c = n /\ CookieAdapter.value c <> [])
    /\ ((forall c, In c cookies -> name c <> n) ->
        r = false /\ get n d w = (Resolved None, w')).
Proof.
  intros Hall. pose proof (get_resolved n Hall) as Hget.
  unfold has. rewrite (bind_resolved _ Hget). eexists.
  split; [reflexivity|]. split.
  - destruct (List.find _ cookies) as [c|] eqn:E; simpl; [|discriminate].
    apply find_some in E. destruct E as [Hin Hname].
    apply str_eqb_eq in Hname. intros Hv. exists c. repeat split; auto.
    intros Hnil. now rewrite Hnil in Hv.
  - intros Hnone.
    assert (E : List.find (fun c => str_eqb (name c) n) cookies = None).
    { destruct (List.find _ cookies) as [c|] eqn:E; auto.
      apply find_some in E. destruct E as [Hin Hname].
      apply str_eqb_eq in Hname. now destruct (Hnone c Hin). }
    rewrite Hget, E. split; reflexivity.
Qed.

Lemma has_reports_listed_cookies_witness :
  let j := {| listing := [cookie "sid" "abc" "example.com" "/"];
              fault := None; requests := [] |} in
  fst (has (lit "sid") (lit "example.com") j) = Resolved true
  /\ fst (has (lit "lang") (lit "example.com") j) = Resolved false.
Proof.
  intros j.
  destruct (@has_reports_listed_cookies Jar scripted_api (lit "lang")
              (lit "example.com") j _ _ eq_refl) as (r & Hhas & _ & Hnone).
  split; [reflexivity|]. rewrite Hhas. simpl. f_equal.
  apply Hnone. intros c [<-|[]]. discriminate.
Defined.

(** X11. [find] resolves with the first listed cookie that satisfies the
    predicate, as the triple of its name, value and domain, and with
    [undefined] exactly when no listed cookie satisfies it. *)
Theorem find_first_match {W : Type} {api : CookiesApi W}
  (pred : jsstring -> jsstring -> jsstring -> bool) (w w' : W)
  (cookies : list Cookie) :
  api_getAll {| getAll_domain := None |} w = (Resolved cookies, w') ->
  exists r,
    CookieAdapter.find pred w = (Resolved r, w')
    /\ match r with
       | Some (n, v, d) =>
           pred n v d = true
           /\ exists before c after,
                cookies = before ++ c :: after
                /\ (name c, CookieAdapter.value c, domain c) = (n, v, d)
                /\ forall x, In x before ->
                     pred (name x) (CookieAdapter.value x) (domain x) = false
       | None =>
           forall c, In c cookies ->
             pred (name c) (CookieAdapter.value c) (domain c) = false
       end.
Proof.
  intros Hall. unfold CookieAdapter.find.
  rewrite (bind_resolved _ Hall). eexists. split; [reflexivity|].
  clear Hall.
  induction cookies as [|c cookies IH]; simpl; [tauto|].
  destruct (pred (name c) (CookieAdapter.value c) (domain c)) eqn:E; simpl.
  - split; [exact E|]. exists [], c, cookies. repeat split. intros x [].
  - destruct (List.find _ cookies) as [c'|] eqn:Ef; simpl in *.
    + destruct IH as (Hp & before & c0 & after & -> & Heq & Hbefore).
      split; [exact Hp|]. exists (c :: before), c0, after.
      repeat split; auto. intros x [<-|Hx]; auto.
    + intros x [<-|Hx]; auto.
Qed.

Lemma find_first_match_witness :
  let j := {| listing := [cookie "a" "1" "x.com" "/";
                          cookie "b" "2" "y.com" "/";
                          cookie "c" "3" "y.com" "/"];
              fault := None; requests := [] |} in
  fst (CookieAdapter.find (fun n v d => str_eqb d (lit "y.com")) j)
  = Resolved (Some (lit "b", lit "2", lit "y.com")).
Proof.
  intros j.
  destruct (@find_first_match Jar scripted_api
              (fun n v d => str_eqb d (lit "y.com")) j _ _ eq_refl)
    as (r & Hfind & _).
  rewrite Hfind. apply (f_equal fst) in Hfind. simpl in Hfind.
  now injection Hfind as <-.
Defined.

(** X12. One leading dot of the domain makes no difference to the
    requests: for a domain that does not itself begin with a dot,
    [delete] and the removal step of [clear] send the cookie API the same
    request for [.domain] as for [domain], and [set] without a URL infers
    the same URL. *)
Theorem leading_dot_same_request {W : Type} {api : CookiesApi W}
  (n d : jsstring) (p : option jsstring) (s : option bool) :
  (forall h, d <> 46%N :: h) ->
  inferUrl {| io_domain := 46%N :: d; io_path := p; io_secure := s |}
  = inferUrl {| io_domain := d; io_path := p; io_secure := s |}
  /\ delete n (46%N :: d) p = delete n d p
  /\ forall c c',
       domain c = 46%N :: d -> domain c' = d ->
       name c = name c' -> path c = path c' -> secure c = secure c' ->
       remove_cookie c = remove_cookie c'.
Proof.
  intros Hd.
  assert (Hstrip : strip_leading_dot d = d).
  { destruct d as [|x d']; simpl; auto.
    destruct (N.eqb_spec x 46) as [->|]; auto. now destruct (Hd d'). }
  assert (Hurl : forall p s,
             inferUrl {| io_domain := 46%N :: d; io_path := p;
                         io_secure := s |}
             = inferUrl {| io_domain := d; io_path := p; io_secure := s |}).
  { intros p0 s0. unfold inferUrl. cbn [io_domain strip_leading_dot].
    change (N.eqb 46 46) with true. cbv iota. now rewrite Hstrip. }
  split; [apply Hurl|]. split.
  - unfold delete. now rewrite Hurl.
  - intros c c' Hc Hc' Hn Hp Hs. unfold remove_cookie.
    now rewrite Hc, Hc', Hn, Hp, Hs, Hurl.
Qed.

Lemma leading_dot_same_request_witness :
  inferUrl {| io_domain := lit ".example.com"; io_path := None;
              io_secure := Some true |}
  = lit "https://example.com/"
  /\ inferUrl {| io_domain := lit "example.com"; io_path := None;
                 io_secure := Some true |}
     = lit "https://example.com/".
Proof.
  assert (Hd : forall h, lit "example.com" <> 46%N :: h) by discriminate.
  destruct (@leading_dot_same_request Jar scripted_api (lit "sid")
              (lit "example.com") None (Some true) Hd) as [Hurl _].
  change (lit ".example.com") with (46%N :: lit "example.com").
  rewrite Hurl. split; reflexivity.
Defined.

Lemma for_of_remove_requests (cs : list Cookie) (j : Jar) :
  fault j = None ->
  for_of cs remove_cookie j
  = (Resolved tt,
     {| listing := listing j; fault := None;
        requests :=
          requests j
          ++ map (fun c =>
                    req_remove
                      {| remove_name := name c;
                         remove_url :=
                           inferUrl {| io_domain := domain c;
                                       io_path := Some (path c);
                                       io_secure := Some (secure c) |} |})
                 cs |}).
Proof.
  revert j. induction cs as [|c cs IH]; intros j Hf.
  - destruct j as [l f r]. simpl in *. subst f. unfold ret.
    now rewrite app_nil_r.
  - cbn [for_of]. unfold bind at 1.
    unfold remove_cookie at 1. cbn [api_remove scripted_api]. unfold answer.
    rewrite Hf. rewrite IH by exact Hf.
    cbn [received listing fault requests map].
    now rewrite <- app_assoc.
Qed.

(** X13. Against a cookie API that accepts every call, [clear] resolves
    after one [getAll({})] and exactly one [remove] per listed cookie, in
    the order of the listing, each with the cookie's own name and the URL
    inferred from its own domain, path and secure flag. *)
Theorem clear_requests (j : Jar) :
  fault j = None ->
  clear j
  = (Resolved tt,
     {| listing := listing j; fault := None;
        requests :=
          requests j
          ++ req_getAll {| getAll_domain := None |}
          :: map (fun c =>
                    req_remove
                      {| remove_name := name c;
                         remove_url :=
                           inferUrl {| io_domain := domain c;
                                       io_path := Some (path c);
                                       io_secure := Some (secure c) |} |})
                 (listing j) |}).
Proof.
  intros Hf. unfold clear, bind.
  cbn [api_getAll scripted_api]. unfold answer. rewrite Hf.
  rewrite for_of_remove_requests by exact Hf.
  cbn [received listing fault requests].
  rewrite <- app_assoc. cbn [app].
  replace (filter (in_domain {| getAll_domain := None |}) (listing j))
    with (listing j); [reflexivity|].
  symmetry. apply filter_all.
Qed.

Lemma clear_requests_witness :
  requests
    (snd (clear {| listing := [cookie "sid" "abc" ".example.com" "/app";
                               cookie "lang" "en" "example.org" "/"];
                   fault := None; requests := [] |}))
  = [req_getAll {| getAll_domain := None |};
     req_remove {| remove_name := lit "sid";
                   remove_url := lit "http://example.com/app" |};
     req_remove {| remove_name := lit "lang";
                   remove_url := lit "http://example.org/" |}].
Proof.
  rewrite (@clear_requests
             {| listing := [cookie "sid" "abc" ".example.com" "/app";
                            cookie "lang" "en" "example.org" "/"];
                fault := None; requests := [] |} eq_refl).
  reflexivity.
Defined.

(* ================================================================= *)
(** * Further properties of the dashboard's filter effect *)

Lemma StronglySorted_impl {A} (R S : A -> A -> Prop) (l : list A) :
  (forall a b, In a l -> In b l -> R a b -> S a b) ->
  StronglySorted R l -> StronglySorted S l.
Proof.
  intros Himp Hs. induction Hs as [|a l Hs IH Hall]; constructor.
  - apply IH. intros x y Hx Hy. apply Himp; now right.
  - rewrite Forall_forall in *. intros x Hx.
    apply Himp; [now left | now right | now apply Hall].
Qed.

Lemma str_ltb_neg_trans (a b c : jsstring) :
  str_ltb b a = false -> str_ltb c b = false -> str_ltb c a = false.
Proof.
  intros Hba Hcb. destruct (str_ltb c a) eqn:Hca; [|reflexivity].
  destruct (list_eq_dec N.eq_dec c b) as [->|Hne]; [congruence|].
  destruct (@str_ltb_total c b Hne) as [H|H]; [congruence|].
  pose proof (@str_ltb_trans _ _ _ H Hca). congruence.
Qed.

Lemma Qltb_neg_trans (x y z : Q) :
  Qltb y x = false -> Qltb z y = false -> Qltb z x = false.
Proof.
  intros Hyx Hzy. destruct (Qltb z x) eqn:Hzx; [|reflexivity].
  apply Qltb_lt in Hzx.
  assert (Hxy : x <= y).
  { apply Qnot_lt_le. intros H. apply Qltb_lt in H. congruence. }
  assert (Hyz : y <= z).
  { apply Qnot_lt_le. intros H. apply Qltb_lt in H. congruence. }
  exfalso. apply (Qlt_irrefl z).
  apply Qlt_le_trans with x; [exact Hzx|].
  now apply Qle_trans with y.
Qed.

Lemma bool_ltb_neg_trans (x y z : bool) :
  bool_ltb y x = false -> bool_ltb z y = false -> bool_ltb z x = false.
Proof. now destruct x, y, z. Qed.

Lemma field_lt_neg_trans (f : CookieField) (a b c : Cookie) :
  has_field_value f a -> has_field_value f b -> has_field_value f c ->
  field_lt f b a = false -> field_lt f c b = false -> field_lt f c a = false.
Proof.
  destruct f; simpl; intros Ha Hb Hc;
    try apply str_ltb_neg_trans; try apply bool_ltb_neg_trans.
  destruct (expirationDate a), (expirationDate b), (expirationDate c);
    try congruence. apply Qltb_neg_trans.
Qed.

Lemma run_filters_In {P : Platform} (now : Q) (st : State) (c : Cookie) :
  In c (fst (run_filters now st)) -> In c (cookies st).
Proof.
  unfold run_filters. intros H.
  repeat (apply filter_stage_In in H; destruct H as [H _]). exact H.
Qed.

Lemma sort_cookies_sorted (f : CookieField) (d : SortDirection)
  (l : list Cookie) :
  Forall (has_field_value f) l ->
  StronglySorted (precedes (compare_cookies f d))
                 (sort (compare_cookies f d) l).
Proof.
  intros Hall. rewrite Forall_forall in Hall. apply sort_sorted.
  - intros x y _ _ Hpos. destruct d.
    + apply compare_asc_precedes.
      unfold compare_cookies in Hpos.
      destruct (field_lt f y x) eqn:Hyx.
      * now apply field_lt_asym.
      * destruct (field_lt f x y); lia.
    + apply compare_desc_precedes.
      unfold compare_cookies in Hpos.
      destruct (field_lt f y x) eqn:Hyx; [|reflexivity].
      destruct (field_lt f x y); lia.
  - intros x y z Hx Hy Hz. destruct d.
    + rewrite !compare_asc_precedes. intros Hxy Hyz.
      apply (@field_lt_neg_trans f x y z); auto.
    + rewrite !compare_desc_precedes. intros Hxy Hyz.
      apply (@field_lt_neg_trans f z y x); auto.
Qed.


(** X14. When every cookie has a value of the sort field (always, but for
    [expirationDate], which session cookies lack), the effect leaves
    [filteredCookies] in order: ascending, no cookie is followed anywhere
    by one of a strictly smaller field value; descending, by none of a
    strictly greater one. *)
Theorem filteredCookies_sorted {P : Platform} (now : Q) (st : State) :
  Forall (has_field_value (sortField st)) (cookies st) ->
  StronglySorted
    (fun a b =>
       match sortDirection st with
       | asc => field_lt (sortField st) b a = false
       | desc => field_lt (sortField st) a b = false
       end)
    (filteredCookies (apply_filters now st)).
Proof.
  intros Hall. rewrite Forall_forall in Hall.
  unfold apply_filters.
  pose proof (fun c => @run_filters_In P now st c) as Hsub.
  destruct (run_filters now st) as [filtered aliased].
  cbn [filteredCookies]. cbn [fst] in Hsub.
  apply StronglySorted_impl
    with (R := precedes (compare_cookies (sortField st) (sortDirection st))).
  - intros a b _ _ Hp. destruct (sortDirection st).
    + now apply compare_asc_precedes.
    + now apply compare_desc_precedes.
  - apply sort_cookies_sorted. apply Forall_forall. auto.
Qed.

Lemma filteredCookies_sorted_witness :
  let st := {| cookies := [expiring "b" "x.com" 30; expiring "a" "y.com" 10;
                           expiring "c" "x.com" 30; expiring "d" "x.com" 20];
               filteredCookies := [];
               searchTerm := []; selectedDomain := lit "x.com";
               showExpiredOnly := false;
               sortField := f_expirationDate; sortDirection := desc |} in
  StronglySorted
    (fun a b => field_lt f_expirationDate a b = false)
    [expiring "b" "x.com" 30; expiring "c" "x.com" 30;
     expiring "d" "x.com" 20].
Proof.
  intros st.
  assert (Hall : Forall (has_field_value (sortField st)) (cookies st))
    by (repeat constructor; discriminate).
  exact (@filteredCookies_sorted binary_platform 0 st Hall).
Defined.

(** X17. Clicking a column header: [setSortField] always leaves the
    clicked field as the sort field and changes nothing but field and
    direction (the cookies, the filtered cookies, the search term, the
    selected domain and the expired-only flag stay); a first click on
    another column sorts ascending, and every further click on the same
    column flips the direction, so two more clicks give the same state
    again. *)
Theorem setSortField_cycle (f : CookieField) (st : State) :
  sortField (setSortField f st) = f
  /\ (sortField st <> f -> sortDirection (setSortField f st) = asc)
  /\ (sortField st = f ->
      sortDirection (setSortField f st)
      = match sortDirection st with asc => desc | desc => asc end)
  /\ sortDirection (setSortField f (setSortField f st))
     <> sortDirection (setSortField f st)
  /\ setSortField f (setSortField f (setSortField f st)) = setSortField f st
  /\ cookies (setSortField f st) = cookies st
  /\ filteredCookies (setSortField f st) = filteredCookies st
  /\ searchTerm (setSortField f st) = searchTerm st
  /\ selectedDomain (setSortField f st) = selectedDomain st
  /\ showExpiredOnly (setSortField f st) = showExpiredOnly st.
Proof.
  assert (Hrefl : forall g, field_eqb g g = true) by (now intros []).
  assert (Heq : forall g h, field_eqb g h = true -> g = h)
    by (intros [] []; simpl; congruence).
  unfold setSortField. cbn [sortField sortDirection cookies filteredCookies
                            searchTerm selectedDomain showExpiredOnly].
  destruct (field_eqb (sortField st) f) eqn:E.
  - apply Heq in E. subst f. rewrite !Hrefl.
    repeat split; try congruence; destruct (sortDirection st); congruence.
  - rewrite !Hrefl.
    assert (Hne : sortField st <> f)
      by (intros Hf; rewrite Hf, Hrefl in E; discriminate).
    repeat split; congruence.
Qed.

Lemma setSortField_cycle_witness :
  let st := {| cookies := []; filteredCookies := [];
               searchTerm := []; selectedDomain := lit "all";
               showExpiredOnly := false;
               sortField := f_name; sortDirection := desc |} in
  sortDirection (setSortField f_domain st) = asc
  /\ sortDirection (setSortField f_domain (setSortField f_domain st)) = desc.
Proof.
  intros st.
  destruct (@setSortField_cycle f_domain st) as (_ & Hasc & _).
  split; [apply Hasc; discriminate | reflexivity].
Defined.



(* ================================================================= *)
(** * The content script *)

Import ContentScript.

Lemma fold_left_mapped {A B C} (f : B -> C -> B) (g : A -> C) (l : list A)
  (acc : B) :
  fold_left f (map g l) acc = fold_left (fun b x => f b (g x)) l acc.
Proof. revert acc. induction l; simpl; auto. Qed.

Lemma fold_left_same {A B} (f g : B -> A -> B) (l : list A) (acc : B) :
  (forall b x, f b x = g b x) -> fold_left f l acc = fold_left g l acc.
Proof.
  intros H. revert acc. induction l; simpl; auto.
  intros acc. now rewrite H.
Qed.

Lemma fold_left_indices {A B} (g : B -> A -> B) (s : list A) (acc : B) :
  fold_left (fun b i => match nth_error s i with
                        | Some p => g b p
                        | None => b
                        end) (seq 0 (List.length s)) acc
  = fold_left g s acc.
Proof.
  revert acc. induction s as [|a s IH]; intros acc; simpl; auto.
  rewrite <- seq_shift, fold_left_mapped. simpl. apply IH.
Qed.

Lemma collect_keys (s : Storage) :
  collect s
  = fold_left (fun data p => assign data (fst p) (or_default (getItem s (fst p))))
              s [].
Proof.
  unfold collect, Storage_key.
  rewrite <- (fold_left_indices
                (fun data p =>
                   assign data (fst p) (or_default (getItem s (fst p)))) s []).
  apply fold_left_same. intros data i. now destruct (nth_error s i).
Qed.

Lemma get_property_assign {V} (o : list (jsstring * V)) (a k : jsstring)
  (v : V) :
  get_property (assign o a v) k
  = if str_eqb a proto_key then get_property o k
    else if str_eqb a k then Some v else get_property o k.
Proof.
  unfold assign. destruct (str_eqb a proto_key); [reflexivity|].
  apply get_property_define.
Qed.

Lemma get_property_assign_fold {V X} (kx : X -> jsstring) (f : jsstring -> V)
  (ps : list X) (acc : list (jsstring * V)) (k : jsstring) :
  get_property (fold_left (fun d p => assign d (kx p) (f (kx p))) ps acc) k
  = if negb (str_eqb k proto_key) && mem k (map kx ps) then Some (f k)
    else get_property acc k.
Proof.
  revert acc. induction ps as [|p ps IH]; intros acc; cbn [fold_left map mem].
  - now rewrite andb_false_r.
  - rewrite IH, get_property_assign.
    destruct (str_eqb k proto_key) eqn:Ek; cbn [negb andb].
    + destruct (str_eqb (kx p) proto_key) eqn:Ea; [reflexivity|].
      destruct (str_eqb (kx p) k) eqn:E; [|reflexivity].
      apply str_eqb_eq in E. congruence.
    + destruct (mem k (map kx ps)); [now rewrite orb_true_r|].
      rewrite orb_false_r, (str_eqb_sym k (kx p)).
      destruct (str_eqb (kx p) k) eqn:E.
      * apply str_eqb_eq in E. subst k. now rewrite Ek.
      * now destruct (str_eqb (kx p) proto_key).
Qed.

Lemma collect_property (s : Storage) (k : jsstring) :
  get_property (collect s) k
  = if str_eqb k proto_key then None else getItem s k.
Proof.
  rewrite collect_keys.
  rewrite (get_property_assign_fold fst (fun k => or_default (getItem s k))).
  destruct (str_eqb k proto_key); cbn [negb andb get_property];
    [reflexivity|].
  destruct (mem k (map fst s)) eqn:E.
  - apply mem_In in E. destruct (getItem s k) as [v|] eqn:G; [reflexivity|].
    now apply getItem_absent in G.
  - symmetry. apply getItem_absent. intros Hin. apply mem_In in Hin.
    congruence.
Qed.

Lemma collect_NoDup (s : Storage) : NoDup (map fst (collect s)).
Proof.
  unfold collect. apply fold_write_NoDup; [|constructor].
  intros o i Hnd. destruct (Storage_key s i); [|exact Hnd].
  unfold assign. destruct (str_eqb j proto_key);
    auto using define_property_NoDup.
Qed.

(** X18. The content script answers a message only if it is an object
    whose [type] is the string [GET_LOCALSTORAGE], and the answer is a
    snapshot of the page's [localStorage]: each key once with the value
    stored for it, but for a key named [__proto__], which the snapshot
    lacks. *)
Theorem onMessage_snapshot (message : JsValue) (storage : Storage)
  (data : list (jsstring * jsstring)) :
  onMessage message storage = responded data ->
  (exists props,
      message = JObject props
      /\ get_property props (lit "type")
         = Some (JString (lit "GET_LOCALSTORAGE")))
  /\ NoDup (map fst data)
  /\ forall k,
       get_property data k
       = if str_eqb k proto_key then None else getItem storage k.
Proof.
  unfold onMessage, is_request. intros H. split.
  - destruct message as [| | | | |props]; try discriminate.
    exists props. split; [reflexivity|].
    destruct (get_property props (lit "type")) as [[| | |s| |]|];
      try discriminate.
    destruct (str_eqb s (lit "GET_LOCALSTORAGE")) eqn:E; [|discriminate].
    apply str_eqb_eq in E. now subst s.
  - assert (Hd : data = collect storage).
    { destruct message as [| | | | |props]; try discriminate.
      destruct (get_property props (lit "type")) as [[| | |s| |]|];
        try discriminate.
      destruct (str_eqb s (lit "GET_LOCALSTORAGE")); congruence. }
    subst data. split; [apply collect_NoDup|apply collect_property].
Qed.

Lemma onMessage_snapshot_witness :
  let storage := [(lit "theme", lit "dark"); (lit "__proto__", lit "x");
                  (lit "empty", [])] in
  let message := JObject [(lit "type", JString (lit "GET_LOCALSTORAGE"))] in
  onMessage message storage
  = responded [(lit "theme", lit "dark"); (lit "empty", [])]
  /\ get_property [(lit "theme", lit "dark"); (lit "empty", [])] (lit "empty")
     = Some [].
Proof.
  intros storage message. split; [reflexivity|].
  destruct (@onMessage_snapshot message storage
              [(lit "theme", lit "dark"); (lit "empty", [])] eq_refl)
    as (_ & _ & Hk).
  rewrite Hk. reflexivity.
Defined.

(* ================================================================= *)
(** * The dashboard: selecting, loading and deleting cookies *)

Import DashboardActions.

Lemma mem_eq (k : jsstring) (l l' : list jsstring) :
  (In k l <-> In k l') -> mem k l = mem k l'.
Proof.
  intros H. destruct (mem k l) eqn:E, (mem k l') eqn:E'; auto.
  - apply mem_In in E. apply H in E. apply mem_In in E. congruence.
  - apply mem_In in E'. apply H in E'. apply mem_In in E'. congruence.
Qed.

Lemma mem_unique (k : jsstring) (l : list jsstring) :
  mem k (unique l) = mem k l.
Proof. apply mem_eq. apply unique_In. Qed.

Lemma mem_app (k : jsstring) (l l' : list jsstring) :
  mem k (l ++ l') = mem k l || mem k l'.
Proof. induction l; simpl; auto. now rewrite IHl, orb_assoc. Qed.

Lemma mem_delete (k key : jsstring) (l : list jsstring) :
  mem k (Set_delete l key) = mem k l && negb (str_eqb k key).
Proof.
  unfold Set_delete. induction l as [|x l IH]; simpl; auto.
  destruct (str_eqb x key) eqn:E; simpl; rewrite IH.
  - apply str_eqb_eq in E. subst x.
    destruct (str_eqb k key); simpl; auto. now rewrite andb_false_r.
  - destruct (str_eqb k x) eqn:E'; simpl; auto.
    apply str_eqb_eq in E'. subst x. now rewrite E.
Qed.

Lemma unique_from_id (seen xs : list jsstring) :
  NoDup xs -> (forall x, In x xs -> ~ In x seen) ->
  unique_from seen xs = xs.
Proof.
  revert seen. induction xs as [|x xs IH]; intros seen Hnd Hdis; simpl; auto.
  inversion_clear Hnd as [|? ? Hnotin Hnd'].
  destruct (mem x seen) eqn:E.
  - apply mem_In in E. destruct (Hdis x); simpl; auto.
  - f_equal. apply IH; auto.
    intros y Hy [<-|Hs]; [contradiction|].
    apply (Hdis y); simpl; auto.
Qed.

Lemma unique_id (xs : list jsstring) : NoDup xs -> unique xs = xs.
Proof. intros H. apply unique_from_id; auto. Qed.

Lemma unique_length (xs : list jsstring) :
  List.length (unique xs) = List.length xs <-> NoDup xs.
Proof.
  split.
  - intros Hlen.
    apply (NoDup_incl_NoDup (l := unique xs)).
    + apply unique_from_NoDup.
    + now rewrite Hlen.
    + intros x Hx. now apply unique_In.
  - intros Hnd. now rewrite unique_id.
Qed.

(** X19. [toggleCookieSelection] flips the selection of exactly one key,
    the cookie's [domain-name]: every other key stays selected or
    unselected as it was, toggling the same cookie twice selects the same
    keys as before, and nothing but the selection changes. *)
Theorem toggleCookieSelection_flips (cookie : Cookie) (c : Component) :
  (forall k,
      Set_has (selectedCookies (toggleCookieSelection cookie c)) k
      = if str_eqb k (selection_key cookie)
        then negb (Set_has (selectedCookies c) k)
        else Set_has (selectedCookies c) k)
  /\ (forall k,
         Set_has (selectedCookies
                    (toggleCookieSelection cookie
                       (toggleCookieSelection cookie c))) k
         = Set_has (selectedCookies c) k)
  /\ view (toggleCookieSelection cookie c) = view c
  /\ loading (toggleCookieSelection cookie c) = loading c.
Proof.
  assert (Hflip : forall c k,
             Set_has (selectedCookies (toggleCookieSelection cookie c)) k
             = if str_eqb k (selection_key cookie)
               then negb (Set_has (selectedCookies c) k)
               else Set_has (selectedCookies c) k).
  { intros c0 k. unfold toggleCookieSelection, Set_has, Set_of, Set_add.
    cbn [selectedCookies set_selectedCookies]. rewrite mem_unique.
    destruct (mem (selection_key cookie) (selectedCookies c0)) eqn:E.
    - rewrite mem_delete.
      destruct (str_eqb k (selection_key cookie)) eqn:Ek; simpl.
      + apply str_eqb_eq in Ek. subst k. now rewrite E.
      + now rewrite andb_true_r.
    - rewrite mem_app. simpl. rewrite orb_false_r.
      destruct (str_eqb k (selection_key cookie)) eqn:Ek; simpl.
      + apply str_eqb_eq in Ek. subst k. now rewrite E, orb_true_r.
      + now rewrite orb_false_r. }
  split; [apply Hflip|]. split; [|split; reflexivity].
  intros k. rewrite !Hflip.
  destruct (str_eqb k (selection_key cookie)); [apply negb_involutive|].
  reflexivity.
Qed.

(** X20. [toggleAllSelection], called when the number of selected keys
    differs from the number of cookies shown, selects exactly the keys of
    the cookies shown.  Called again it clears the selection if the
    cookies shown have pairwise different [domain-name] keys; if two of
    them share a key (the same name and domain on two paths), it leaves
    everything selected, however often it is called. *)
Theorem toggleAllSelection_twice (c : Component) :
  Set_size (selectedCookies c)
  <> List.length (filteredCookies (view c)) ->
  let all := toggleAllSelection c in
  let keys := map selection_key (filteredCookies (view c)) in
  (forall k, Set_has (selectedCookies all) k = true <-> In k keys)
  /\ (NoDup keys -> selectedCookies (toggleAllSelection all) = [])
  /\ (~ NoDup keys ->
      toggleAllSelection all = all /\ selectedCookies all <> []).
Proof.
  intros Hsize all keys.
  assert (Hall : all = set_selectedCookies (Set_of keys) c).
  { unfold all, toggleAllSelection.
    now destruct (Nat.eqb_spec (Set_size (selectedCookies c))
                    (List.length (filteredCookies (view c)))). }
  assert (Hlen : List.length keys = List.length (filteredCookies (view c)))
    by apply length_map.
  split; [|split].
  - intros k. rewrite Hall. cbn [selectedCookies set_selectedCookies].
    unfold Set_has, Set_of. rewrite mem_unique. apply mem_In.
  - intros Hnd. rewrite Hall. unfold toggleAllSelection.
    cbn [selectedCookies set_selectedCookies view]. unfold Set_size, Set_of.
    fold keys. rewrite (unique_id Hnd), Hlen, Nat.eqb_refl. reflexivity.
  - intros Hdup.
    assert (Hne : List.length (unique keys) <> List.length keys)
      by (intros H; now apply unique_length in H).
    split.
    + rewrite Hall. unfold toggleAllSelection.
      cbn [selectedCookies set_selectedCookies view]. unfold Set_size, Set_of.
      fold keys. rewrite <- Hlen.
      now destruct (Nat.eqb_spec (List.length (unique keys))
                      (List.length keys)).
    + rewrite Hall. cbn [selectedCookies set_selectedCookies].
      unfold Set_of. intros Hnil. apply Hdup.
      destruct keys as [|k keys']; [constructor|].
      assert (Hin : In k (unique (k :: keys')))
        by (apply unique_In; now left).
      now rewrite Hnil in Hin.
Qed.

Lemma toggleAllSelection_twice_witness :
  let st := {| cookies := []; 
               filteredCookies := [cookie "sid" "1" "x.com" "/";
                                   cookie "sid" "2" "x.com" "/app"];
               searchTerm := []; selectedDomain := lit "all";
               showExpiredOnly := false;
               sortField := f_name; sortDirection := asc |} in
  let c := {| view := st; loading := false; selectedCookies := [];
              console_error := [] |} in
  selectedCookies (toggleAllSelection c) = [lit "x.com-sid"]
  /\ toggleAllSelection (toggleAllSelection c) = toggleAllSelection c.
Proof.
  intros st c. split; [reflexivity|].
  assert (Hsize : Set_size (selectedCookies c)
                  <> List.length (filteredCookies (view c)))
    by discriminate.
  destruct (@toggleAllSelection_twice c Hsize) as (_ & _ & Hdup).
  apply Hdup. intros Hnd. inversion_clear Hnd as [|? ? Hnotin _].
  apply Hnotin. now left.
Defined.

Lemma split_nonempty (sep : code_unit) (s : jsstring) : split sep s <> [].
Proof.
  destruct s as [|c s]; simpl; [discriminate|].
  destruct (N.eqb c sep); [discriminate|].
  destruct (split sep s); discriminate.
Qed.

Lemma split_without (sep : code_unit) (s : jsstring) :
  ~ In sep s -> split sep s = [s].
Proof.
  induction s as [|c s IH]; simpl; intros Hnot; [reflexivity|].
  destruct (N.eqb_spec c sep) as [->|_]; [tauto|].
  rewrite IH by tauto. reflexivity.
Qed.

Lemma split_at_first (sep : code_unit) (a b : jsstring) :
  ~ In sep a -> split sep (a ++ sep :: b) = a :: split sep b.
Proof.
  induction a as [|c a IH]; simpl; intros Hnot.
  - now rewrite N.eqb_refl.
  - destruct (N.eqb_spec c sep) as [->|_]; [tauto|].
    rewrite IH by tauto. reflexivity.
Qed.

Lemma join_cons (sep x : jsstring) (l : list jsstring) :
  l <> [] -> Json.join sep (x :: l) = x ++ sep ++ Json.join sep l.
Proof. destruct l; [congruence|reflexivity]. Qed.

Lemma join_split (sep : code_unit) (s : jsstring) :
  Json.join [sep] (split sep s) = s.
Proof.
  induction s as [|c s IH]; [reflexivity|]. cbn [split].
  pose proof (@split_nonempty sep s) as Hne.
  destruct (N.eqb_spec c sep) as [->|_].
  - rewrite (join_cons _ _ Hne), IH. reflexivity.
  - destruct (split sep s) as [|piece pieces]; [congruence|].
    rewrite <- IH. destruct pieces; reflexivity.
Qed.

Lemma trim_start_clean (s : jsstring) :
  starts_clean s = true -> trim_start s = s.
Proof.
  destruct s as [|c s]; simpl; [reflexivity|].
  now destruct (is_whitespace c).
Qed.

Lemma trim_clean (s : jsstring) :
  starts_clean s = true -> ends_clean s = true -> trim s = s.
Proof.
  intros Hs He. unfold trim.
  rewrite (@trim_start_clean _ Hs), (@trim_start_clean _ He).
  apply rev_involutive.
Qed.

Lemma trim_after_space (s : jsstring) : trim (32%N :: s) = trim s.
Proof. reflexivity. Qed.

Lemma pair_text_clean (n v : jsstring) :
  n <> [] -> starts_clean n = true -> ends_clean v = true ->
  trim (n ++ 61%N :: v) = n ++ 61%N :: v.
Proof.
  intros Hn Hs He. apply trim_clean.
  - destruct n; [congruence|exact Hs].
  - unfold ends_clean in *. rewrite rev_app_distr. cbn [rev].
    rewrite <- app_assoc. cbn [app].
    destruct (rev v); [reflexivity|exact He].
Qed.

Lemma parse_plain_pair (hostname pre : jsstring) (p : jsstring * jsstring) :
  plain_pair p -> pre = [] \/ pre = [32%N] ->
  let c := parse_cookie hostname (pre ++ fst p ++ lit "=" ++ snd p) in
  name c = fst p /\ CookieAdapter.value c = snd p
  /\ domain c = hostname /\ path c = lit "/" /\ CookieAdapter.session c = true
  /\ expirationDate c = None.
Proof.
  destruct p as [n v]. intros (Hn & _ & Heq & _ & Hs & He) Hpre c.
  subst c. cbn [fst snd] in *.
  change (lit "=" ++ v) with (61%N :: v).
  assert (Htrim : trim (pre ++ n ++ 61%N :: v) = n ++ 61%N :: v).
  { destruct Hpre as [->| ->]; cbn [app]; rewrite ?trim_after_space;
      now apply pair_text_clean. }
  unfold parse_cookie. rewrite Htrim. rewrite split_at_first by exact Heq.
  cbn [name CookieAdapter.value domain path CookieAdapter.session
         expirationDate].
  repeat split. apply (join_split 61%N).
Qed.

Lemma split_cookie_string (pre : jsstring) (p : jsstring * jsstring)
  (rest : list (jsstring * jsstring)) :
  ~ In 59%N pre -> Forall plain_pair (p :: rest) ->
  split 59%N (pre ++ cookie_string (p :: rest))
  = (pre ++ fst p ++ lit "=" ++ snd p)
    :: map (fun q => [32%N] ++ fst q ++ lit "=" ++ snd q) rest.
Proof.
  revert pre p. induction rest as [|q rest IH]; intros pre p Hpre Hall.
  - unfold cookie_string. cbn [map Json.join].
    apply split_without. inversion_clear Hall as [|? ? Hp _].
    destruct Hp as (_ & Hn & _ & Hv & _).
    change (lit "=") with [61%N].
    rewrite !in_app_iff. simpl.
    intros [H|[H|[[H|[]]|H]]]; try contradiction; discriminate.
  - inversion_clear Hall as [|? ? Hp Hrest].
    assert (Hstep : cookie_string (p :: q :: rest)
                    = (fst p ++ lit "=" ++ snd p)
                      ++ 59%N :: [32%N] ++ cookie_string (q :: rest))
      by reflexivity.
    rewrite Hstep, app_assoc. rewrite split_at_first.
    + f_equal. cbn [map]. apply IH; [|exact Hrest].
      simpl. intros [H|[]]. discriminate.
    + destruct Hp as (_ & Hn & _ & Hv & _).
      change (lit "=") with [61%N].
      rewrite !in_app_iff. simpl.
      intros [H|[H|[[H|[]]|H]]]; try contradiction; discriminate.
Qed.

(** X21. Outside the extension the dashboard reads [document.cookie]
    back exactly: for cookies whose names are not empty and hold no [;]
    or [=], and whose values hold no [;] (an [=] in a value is kept),
    none beginning or ending with white space, the fallback of
    [fetchCookies] parses the cookie string into the same names and
    values in the same order, each on the page's host name, path [/], as
    a session cookie. *)
Theorem document_cookies_round_trip (hostname : jsstring)
  (pairs : list (jsstring * jsstring)) :
  Forall plain_pair pairs ->
  let parsed := document_cookies hostname (cookie_string pairs) in
  map (fun c => (name c, CookieAdapter.value c)) parsed = pairs
  /\ Forall (fun c => domain c = hostname /\ path c = lit "/"
                      /\ CookieAdapter.session c = true /\ expirationDate c = None)
            parsed.
Proof.
  intros Hall parsed. unfold parsed, document_cookies.
  destruct pairs as [|p rest]; [split; [reflexivity|constructor]|].
  rewrite <- (app_nil_l (cookie_string (p :: rest))).
  rewrite (split_cookie_string (pre := []) (fun H => H) Hall).
  inversion_clear Hall as [|? ? Hp Hrest].
  cbn [map filter].
  destruct (parse_plain_pair hostname (pre := []) Hp (or_introl eq_refl))
    as (Hn & Hv & Hd & Hpath & Hs & He).
  assert (Hne : truthy_string
                  (name (parse_cookie hostname
                           ([] ++ fst p ++ lit "=" ++ snd p))) = true).
  { rewrite Hn. destruct Hp as (Hp & _). now destruct (fst p). }
  rewrite Hne. cbn [map]. rewrite Hn, Hv, <- surjective_pairing.
  assert (Htail :
            let l := filter (fun c => truthy_string (name c))
                       (map (parse_cookie hostname)
                          (map (fun q => [32%N] ++ fst q ++ lit "=" ++ snd q)
                               rest)) in
            map (fun c => (name c, CookieAdapter.value c)) l = rest
            /\ Forall (fun c => domain c = hostname /\ path c = lit "/"
                                /\ CookieAdapter.session c = true
                                /\ expirationDate c = None) l).
  { clear -Hrest. induction Hrest as [|q rest Hq Hrest IH];
      [split; [reflexivity|constructor]|].
    cbn [map filter].
    destruct (parse_plain_pair hostname (pre := [32%N]) Hq
                (or_intror eq_refl))
      as (Hn & Hv & Hd & Hpath & Hs & He).
    assert (Hne : truthy_string (fst q) = true)
      by (destruct Hq as (Hq & _); now destruct (fst q)).
    rewrite <- Hn in Hne. unfold jsstring, code_unit in *.
    rewrite Hne. cbn [map]. rewrite Hn, Hv, <- surjective_pairing.
    destruct IH as [IH1 IH2]. split; [now f_equal|].
    constructor; auto. }
  destruct Htail as [Ht1 Ht2]. split; [now f_equal|].
  constructor; auto.
Qed.

Lemma document_cookies_round_trip_witness :
  map (fun c => (name c, CookieAdapter.value c))
      (document_cookies (lit "localhost") (lit "sid=a=b=; lang=en; flag="))
  = [(lit "sid", lit "a=b="); (lit "lang", lit "en"); (lit "flag", [])].
Proof.
  assert (Hall : Forall plain_pair
                   [(lit "sid", lit "a=b="); (lit "lang", lit "en");
                    (lit "flag", [])]).
  { repeat constructor; simpl; try discriminate;
      intuition discriminate. }
  exact (proj1 (@document_cookies_round_trip (lit "localhost") _ Hall)).
Defined.

(** X22. [fetchCookies] never rejects and always ends with [loading]
    false and the selection untouched.  In the extension it replaces
    [cookies] by what [chrome.cookies.getAll({})] resolves with; if that
    call rejects, [cookies] stays as it was and the error is written to
    the console.  Outside the extension it takes the cookies of
    [document.cookie] and calls no browser API. *)
Theorem fetchCookies_settles {W : Type} (host : Host W) (w : W)
  (c : Component) :
  exists w' c',
    fetchCookies host (w, c) = (Resolved tt, (w', c'))
    /\ loading c' = false
    /\ selectedCookies c' = selectedCookies c
    /\ match chrome_cookies host with
       | Some api =>
           match cookies_getAll {| getAll_domain := None |} w with
           | (Resolved all, w1) =>
               w' = w1 /\ cookies (view c') = all
               /\ console_error c' = console_error c
           | (Rejected e, w1) =>
               w' = w1 /\ cookies (view c') = cookies (view c)
               /\ console_error c'
                  = console_error c ++ [(lit "Failed to fetch cookies:", e)]
           end
       | None =>
           w' = w
           /\ cookies (view c')
              = document_cookies (location_hostname host)
                                 (document_cookie host)
           /\ console_error c' = console_error c
       end.
Proof.
  unfold fetchCookies, bind, try_finally, try_catch, update, call.
  cbn [fst snd].
  destruct (chrome_cookies host) as [api|]; cbn [fst snd].
  - destruct (cookies_getAll {| getAll_domain := None |} w) as [[all|e] w1];
      cbn [fst snd]; do 2 eexists; repeat split.
  - do 2 eexists; repeat split.
Qed.

(** X23. [deleteCookie] never rejects.  Outside the extension it does
    nothing.  In the extension it asks for the removal of the cookie and
    then refreshes the list with [fetchCookies]; if the removal rejects
    there is no refresh: the error is written to the console and the
    component is otherwise as it was. *)
Theorem deleteCookie_settles {W : Type} (host : Host W) (cookie : Cookie)
  (w : W) (c : Component) :
  exists w' c',
    deleteCookie host cookie (w, c) = (Resolved tt, (w', c'))
    /\ match chrome_cookies host with
       | Some api =>
           match cookies_remove {| remove_url := cookie_url cookie;
                                   remove_name := name cookie;
                                   remove_storeId := storeId cookie |} w with
           | (Resolved _, w1) =>
               fetchCookies host (w1, c) = (Resolved tt, (w', c'))
           | (Rejected e, w1) =>
               w' = w1
               /\ c' = log_error (lit "Failed to delete cookie:") e c
           end
       | None => w' = w /\ c' = c
       end.
Proof.
  unfold deleteCookie.
  destruct (chrome_cookies host) as [api|] eqn:Hapi.
  - unfold try_catch, bind at 1, call. cbn [fst snd].
    destruct (cookies_remove _ w) as [[[]|e] w1].
    + destruct (fetchCookies_settles host w1 c) as (w' & c' & Hf & _).
      exists w', c'. now rewrite Hf.
    + do 2 eexists. split; [reflexivity|]. split; reflexivity.
  - do 2 eexists. split; [reflexivity|]. split; reflexivity.
Qed.

(** X24. The URL [deleteCookie] asks the removal for keeps a leading dot
    of the cookie's domain: it is the URL the adapter's [clear] infers
    for the same cookie exactly when the domain does not begin with a
    dot. *)
Theorem cookie_url_keeps_dot (c : Cookie) :
  cookie_url c
  = inferUrl {| io_domain := domain c; io_path := Some (path c);
                io_secure := Some (secure c) |}
  <-> forall h, domain c <> 46%N :: h.
Proof.
  unfold cookie_url, inferUrl.
  cbn [io_domain io_path io_secure truthy_opt_bool].
  assert (Hcore :
            domain c ++ path c = strip_leading_dot (domain c) ++ path c
            <-> forall h, domain c <> 46%N :: h).
  { destruct (domain c) as [|x d]; cbn [strip_leading_dot].
    - split; [discriminate|reflexivity].
    - destruct (N.eqb_spec x 46) as [->|Hx].
      + split.
        * intros H. apply (f_equal (@List.length _)) in H.
          cbn [app List.length] in H. rewrite !length_app in H.
          unfold jsstring, code_unit in *. lia.
        * intros H. now destruct (H d).
      + split; [|reflexivity]. intros _ h [= Hh _]. contradiction. }
  rewrite <- Hcore. destruct (secure c); cbn; split; intros H.
  - now injection H.
  - now rewrite H.
  - now injection H.
  - now rewrite H.
Qed.

Lemma split_piece_without (sep : code_unit) (s piece : jsstring) :
  In piece (split sep s) -> ~ In sep piece.
Proof.
  revert piece. induction s as [|c s IH]; simpl; intros piece.
  - intros [<-|[]] [].
  - destruct (N.eqb_spec c sep) as [->|Hne].
    + intros [<-|Hin]; [intros []|now apply IH].
    + destruct (split sep s) as [|first pieces] eqn:E.
      * intros [<-|[]] [H|[]]. congruence.
      * intros [<-|Hin].
        -- intros [H|H]; [congruence|].
           apply (IH first); [now left|exact H].
        -- apply IH. now right.
Qed.

Lemma split_piece_incl (sep : code_unit) (s piece : jsstring) (c : code_unit) :
  In piece (split sep s) -> In c piece -> In c s.
Proof.
  revert piece. induction s as [|x s IH]; simpl; intros piece.
  - intros [<-|[]] [].
  - destruct (N.eqb x sep).
    + intros [<-|Hin]; [intros []|]. right. now apply (IH piece).
    + destruct (split sep s) as [|first pieces] eqn:E.
      * intros [<-|[]] [H|[]]. now left.
      * intros [<-|Hin].
        -- intros [H|H]; [now left|]. right. apply (IH first); auto.
           now left.
        -- intros H. right. apply (IH piece); auto. now right.
Qed.

Lemma trim_start_incl (s : jsstring) (c : code_unit) :
  In c (trim_start s) -> In c s.
Proof.
  induction s as [|x s IH]; simpl; auto.
  destruct (is_whitespace x); auto.
Qed.

Lemma trim_incl (s : jsstring) (c : code_unit) : In c (trim s) -> In c s.
Proof.
  unfold trim. intros H. apply in_rev in H. apply trim_start_incl in H.
  apply in_rev in H. now apply trim_start_incl.
Qed.

Lemma trim_start_starts_clean (s : jsstring) :
  starts_clean (trim_start s) = true.
Proof.
  induction s as [|x s IH]; simpl; auto.
  destruct (is_whitespace x) eqn:E; auto. simpl. now rewrite E.
Qed.

Lemma trim_start_snoc (u : jsstring) (c : code_unit) :
  is_whitespace c = false -> exists u', trim_start (u ++ [c]) = u' ++ [c].
Proof.
  intros Hc. induction u as [|x u IH]; simpl.
  - exists []. now rewrite Hc.
  - destruct (is_whitespace x); [exact IH|]. now exists (x :: u).
Qed.

Lemma trim_ends_clean (s : jsstring) : ends_clean (trim s) = true.
Proof.
  unfold ends_clean, trim. rewrite rev_involutive.
  apply trim_start_starts_clean.
Qed.

Lemma trim_starts_clean (s : jsstring) : starts_clean (trim s) = true.
Proof.
  unfold trim. pose proof (trim_start_starts_clean s) as Hs.
  destruct (trim_start s) as [|c t]; [reflexivity|].
  simpl in Hs. apply negb_true_iff in Hs. cbn [rev].
  destruct (@trim_start_snoc (rev t) c Hs) as [u' ->].
  rewrite rev_app_distr. simpl. now rewrite Hs.
Qed.

Lemma join_incl (sep : jsstring) (l : list jsstring) (c : code_unit) :
  In c (Json.join sep l) -> In c sep \/ exists x, In x l /\ In c x.
Proof.
  induction l as [|x l IH]; [intros []|].
  destruct l as [|y l'].
  - intros H. right. exists x. split; [now left|exact H].
  - rewrite join_cons by discriminate. rewrite !in_app_iff.
    intros [H|[H|H]].
    + right. exists x. split; [now left|exact H].
    + now left.
    + destruct (IH H) as [Hs|(z & Hz & Hc)]; [now left|].
      right. exists z. split; [now right|exact Hc].
Qed.

Lemma ends_clean_suffix (a b : jsstring) :
  ends_clean (a ++ b) = true -> ends_clean b = true.
Proof.
  unfold ends_clean. rewrite rev_app_distr.
  destruct (rev b); [reflexivity|]. intros H. exact H.
Qed.

Lemma parse_cookie_plain (hostname piece : jsstring) :
  ~ In 59%N piece ->
  name (parse_cookie hostname piece) <> [] ->
  plain_pair (name (parse_cookie hostname piece),
              CookieAdapter.value (parse_cookie hostname piece)).
Proof.
  intros Hsemi. unfold parse_cookie.
  pose proof (trim_starts_clean piece) as Hstart.
  pose proof (trim_ends_clean piece) as Hend.
  pose proof (join_split 61%N (trim piece)) as Hjoin.
  assert (Hin : forall c, In c (trim piece) -> In c piece)
    by (intros c; apply trim_incl).
  assert (Hpieces : forall x, In x (split 61%N (trim piece)) ->
                              ~ In 61%N x /\ forall c, In c x -> In c piece).
  { intros x Hx. split; [now apply (@split_piece_without _ _ _ Hx)|].
    intros c Hc. apply Hin. now apply (@split_piece_incl _ _ _ _ Hx). }
  destruct (split 61%N (trim piece)) as [|n parts] eqn:E;
    cbn [name CookieAdapter.value]; [congruence|].
  intros Hn. unfold plain_pair. cbn [fst snd].
  destruct (Hpieces n (or_introl eq_refl)) as [Hn61 Hnin].
  split; [exact Hn|]. split; [intros H; apply Hsemi; auto|].
  split; [exact Hn61|]. split.
  - intros H. change (lit "=") with [61%N] in H.
    apply join_incl in H. destruct H as [[H|[]]|(x & Hx & Hc)];
      [discriminate|].
    apply Hsemi. apply (proj2 (Hpieces x (or_intror Hx))). exact Hc.
  - change (lit "=") with [61%N].
    destruct parts as [|v parts'].
    + simpl in Hjoin. subst n. split; [exact Hstart|reflexivity].
    + rewrite join_cons in Hjoin by discriminate.
      rewrite <- Hjoin in Hstart, Hend. split.
      * destruct n; [congruence|exact Hstart].
      * apply ends_clean_suffix with (a := n ++ [61%N]).
        rewrite <- app_assoc. exact Hend.
Qed.

(** X26. Whatever [document.cookie] holds, each cookie the fallback of
    [fetchCookies] makes of it has a name that is not empty, holds no [;]
    or [=] and begins with no white space, a value that holds no [;] and
    ends with no white space, the page's host name as its domain, path
    [/], and is a host-only, non-secure session cookie of store 0. *)
Theorem document_cookies_shape (hostname text : jsstring) :
  Forall (fun c =>
            plain_pair (name c, CookieAdapter.value c)
            /\ domain c = hostname /\ path c = lit "/"
            /\ secure c = false /\ httpOnly c = false /\ sameSite c = lax
            /\ expirationDate c = None /\ hostOnly c = true
            /\ CookieAdapter.session c = true /\ storeId c = lit "0")
         (document_cookies hostname text).
Proof.
  unfold document_cookies. apply Forall_forall. intros c Hc.
  apply filter_In in Hc. destruct Hc as [Hc Hname].
  apply in_map_iff in Hc. destruct Hc as (piece & <- & Hpiece).
  split.
  - apply parse_cookie_plain.
    + exact (@split_piece_without _ _ _ Hpiece).
    + intros Hnil. now rewrite Hnil in Hname.
  - unfold parse_cookie. destruct (split 61%N (trim piece)); repeat split.
Qed.

Lemma import_loop_outcome {P : Platform} (t : StorageType)
  (es : list (jsstring * JsValue)) (b : Browser) (i : Z) :
  first_tab_id (active_tabs b) = Some i ->
  exists b',
    for_of es (fun kv => match to_string (snd kv) with
                         | Some s => setEntry t (fst kv) s
                         | None => throw type_error
                         end) b
    = (if forallb (fun kv => converts (snd kv)) es
       then Resolved tt else Rejected type_error, b')
    /\ active_tabs b' = active_tabs b.
Proof.
  revert b. induction es as [|kv es IH]; intros b Htab.
  - exists b. split; reflexivity.
  - cbn [for_of forallb]. unfold bind, converts at 1.
    destruct (to_string (snd kv)) as [s|].
    + assert (Hset : exists b1,
                 setEntry t (fst kv) s b = (Resolved tt, b1)
                 /\ active_tabs b1 = active_tabs b).
      { unfold setEntry, query_tabs. rewrite Htab. unfold executeScript.
        cbn [pages record_call].
        destruct (page_of (pages b) i); eexists; split; reflexivity. }
      destruct Hset as (b1 & -> & Ht1).
      destruct (IH b1) as (b' & Hrun & Ht); [now rewrite Ht1|].
      exists b'. split; [exact Hrun|congruence].
    + exists b. split; reflexivity.
Qed.

(** X27. With an active tab, [importEntries] resolves exactly when the
    text is JSON, is not [null], and [String] converts the value of every
    entry, whether or not the page could be scripted.  Otherwise it
    rejects with the error "Invalid JSON format"; for a text that is not
    JSON and for [null], without touching the browser. *)
Theorem importEntries_rejects_iff {P : Platform} (t : StorageType)
  (text : jsstring) (b : Browser) (i : Z) :
  first_tab_id (active_tabs b) = Some i ->
  match JSON_parse text with
  | None =>
      importEntries t text b
      = (Rejected (Error (lit "Invalid JSON format")), b)
  | Some data =>
      match Object_entries data with
      | None =>
          data = JNull
          /\ importEntries t text b
             = (Rejected (Error (lit "Invalid JSON format")), b)
      | Some es =>
          data <> JNull
          /\ exists b',
               importEntries t text b
               = (if forallb (fun kv => converts (snd kv)) es
                  then Resolved tt
                  else Rejected (Error (lit "Invalid JSON format")), b')
               /\ active_tabs b' = active_tabs b
      end
  end.
Proof.
  intros Htab. unfold importEntries, try_catch.
  destruct (JSON_parse text) as [data|]; [|reflexivity].
  destruct (Object_entries data) as [es|] eqn:Hes.
  - split; [intros ->; discriminate|].
    destruct (import_loop_outcome t es Htab) as (b' & Hrun & Ht).
    exists b'. rewrite Hrun. split; [|exact Ht].
    now destruct (forallb _ es).
  - split; [now destruct data|reflexivity].
Qed.

Lemma importEntries_rejects_iff_witness :
  let b := {| active_tabs := [{| tab_id := Some 1%Z |}];
              pages := [(1%Z, {| localStorage := [(lit "a", lit "1")];
                                 sessionStorage := [] |})];
              calls := [] |} in
  importEntries (P := binary_platform) local (lit " null ") b
  = (Rejected (Error (lit "Invalid JSON format")), b)
  /\ (exists b',
         importEntries (P := binary_platform) local (qlit "['x', 2]") b
         = (Resolved tt, b')
         /\ active_tabs b' = active_tabs b)
  /\ exists b',
       importEntries (P := binary_platform) local
         (qlit "{'k':'v','a':[{'toString':1}]}") b
       = (Rejected (Error (lit "Invalid JSON format")), b')
       /\ option_map localStorage (page_of (pages b') 1%Z)
          = Some [(lit "a", lit "1"); (lit "k", lit "v")].
Proof.
  intros b. split; [|split].
  - exact (proj2 (@importEntries_rejects_iff binary_platform local
                    (lit " null ") b 1%Z eq_refl)).
  - exact (proj2 (@importEntries_rejects_iff binary_platform local
                    (qlit "['x', 2]") b 1%Z eq_refl)).
  - destruct (proj2 (@importEntries_rejects_iff binary_platform local
                       (qlit "{'k':'v','a':[{'toString':1}]}") b 1%Z
                       eq_refl))
      as (b' & Himp & _).
    exists b'. split; [exact Himp|].
    apply (f_equal snd) in Himp. simpl in Himp. now subst b'.
Defined.
